(** * Mines: provably-fair layout, payout model and round state machines

    A shallow embedding of the game logic of the repository
    (SoloMinesGame.tsx and MultiplayerMinesGame.tsx) together with the
    properties its specification states about it. *)

From Stdlib Require Import ZArith List String Ascii Bool Lia Permutation.
From Stdlib Require Import DecimalString Uint63 Floats.
From stdpp Require Import base list gmap.
Import ListNotations.

Set Default Proof Using "Type".

(* ===================================================================== *)
(** ** Hexadecimal text *)
(* ===================================================================== *)

Module Hex.
Local Open Scope Z_scope.

(** One lowercase hexadecimal digit, as [toString(crypto.enc.Hex)] prints
    it. *)
Definition digit (d : Z) : ascii :=
  match d with
  | 0 => "0" | 1 => "1" | 2 => "2" | 3 => "3" | 4 => "4" | 5 => "5"
  | 6 => "6" | 7 => "7" | 8 => "8" | 9 => "9" | 10 => "a" | 11 => "b"
  | 12 => "c" | 13 => "d" | 14 => "e" | _ => "f"
  end%char.

(** The value of a character read in radix 16 ([parseInt] accepts both
    cases); [None] when the character is no hexadecimal digit. *)
Definition value (c : ascii) : option Z :=
  let n := Z.of_nat (nat_of_ascii c) in
  if (48 <=? n) && (n <=? 57) then Some (n - 48)
  else if (97 <=? n) && (n <=? 102) then Some (n - 87)
  else if (65 <=? n) && (n <=? 70) then Some (n - 55)
  else None.

(** The [k] low hexadecimal digits of [x], most significant first. *)
Fixpoint of_word (k : nat) (x : Z) : string :=
  match k with
  | O => EmptyString
  | S k' => String (digit ((x / 16 ^ Z.of_nat k') mod 16)) (of_word k' x)
  end.

End Hex.

(* ===================================================================== *)
(** ** SHA-256 (crypto-js collaborator) *)
(* ===================================================================== *)

(** [crypto.SHA256(text).toString(crypto.enc.Hex)]: the FIPS 180-4 hash of
    the UTF-8 bytes of [text], printed as 64 lowercase hexadecimal
    characters.  A [string] here is the byte sequence of the UTF-8
    encoding of the JavaScript string. *)
Module Sha256.
Local Open Scope Z_scope.

Definition w32 (x : Z) : Z := x mod 2 ^ 32.
Definition add32 (x y : Z) : Z := w32 (x + y).
Definition rotr (n x : Z) : Z :=
  Z.lor (Z.shiftr x n) (w32 (Z.shiftl x (32 - n))).
Definition shr (n x : Z) : Z := Z.shiftr x n.
Definition not32 (x : Z) : Z := Z.lxor x 0xffffffff.

Definition Ch (x y z : Z) : Z := Z.lxor (Z.land x y) (Z.land (not32 x) z).
Definition Maj (x y z : Z) : Z :=
  Z.lxor (Z.lxor (Z.land x y) (Z.land x z)) (Z.land y z).
Definition Sigma0 (x : Z) : Z := Z.lxor (Z.lxor (rotr 2 x) (rotr 13 x)) (rotr 22 x).
Definition Sigma1 (x : Z) : Z := Z.lxor (Z.lxor (rotr 6 x) (rotr 11 x)) (rotr 25 x).
Definition sigma0 (x : Z) : Z := Z.lxor (Z.lxor (rotr 7 x) (rotr 18 x)) (shr 3 x).
Definition sigma1 (x : Z) : Z := Z.lxor (Z.lxor (rotr 17 x) (rotr 19 x)) (shr 10 x).

(** FIPS 180-4 defines the constants as the first 32 bits of the
    fractional parts of roots of the first primes; they are computed here
    once, from that definition. *)
Fixpoint iroot_bits (deg : Z) (bits : nat) (n r : Z) : Z :=
  match bits with
  | O => r
  | S bits' =>
      let c := r + 2 ^ Z.of_nat bits' in
      iroot_bits deg bits' n (if c ^ deg <=? n then c else r)
  end.

(** First 32 fractional bits of the [deg]-th root of [p]. *)
Definition frac_root32 (deg p : Z) : Z :=
  w32 (iroot_bits deg 40 (p * 2 ^ (32 * deg)) 0).

Definition is_prime (n : nat) : bool :=
  forallb (fun d => negb (Nat.eqb (n mod d) 0)) (seq 2 (n - 2)).

Definition primes (count : nat) : list Z :=
  map Z.of_nat (take count (List.filter is_prime (seq 2 400))).

(** Round constants: cube roots of the first 64 primes. *)
Definition K : list Z :=
  Eval vm_compute in map (frac_root32 3) (primes 64).

(** Initial hash value: square roots of the first 8 primes. *)
Definition H0 : list Z :=
  Eval vm_compute in map (frac_root32 2) (primes 8).

(** The eight working variables a..h. *)
Record regs := Regs {
  ra : Z; rb : Z; rc : Z; rd : Z; re : Z; rf : Z; rg : Z; rh : Z }.

Definition regs_of (h : list Z) : regs :=
  Regs (nth 0 h 0) (nth 1 h 0) (nth 2 h 0) (nth 3 h 0)
       (nth 4 h 0) (nth 5 h 0) (nth 6 h 0) (nth 7 h 0).

Definition list_of (r : regs) : list Z :=
  [ra r; rb r; rc r; rd r; re r; rf r; rg r; rh r].

(** One round on message word [wt] with constant [kt]. *)
Definition round (r : regs) (kt wt : Z) : regs :=
  let t1 := add32 (add32 (add32 (add32 (rh r) (Sigma1 (re r)))
                                 (Ch (re r) (rf r) (rg r))) kt) wt in
  let t2 := add32 (Sigma0 (ra r)) (Maj (ra r) (rb r) (rc r)) in
  Regs (add32 t1 t2) (ra r) (rb r) (rc r) (add32 (rd r) t1) (re r) (rf r) (rg r).

(** The message schedule is kept as a window of sixteen words
    [W_t .. W_(t+15)]; [next_word] is [W_(t+16)]. *)
Definition next_word (win : list Z) : Z :=
  add32 (add32 (add32 (sigma1 (nth 14 win 0)) (nth 9 win 0))
               (sigma0 (nth 1 win 0))) (nth 0 win 0).

Fixpoint rounds (ks : list Z) (r : regs) (win : list Z) : regs :=
  match ks with
  | [] => r
  | kt :: ks' =>
      rounds ks' (round r kt (nth 0 win 0)) (tl win ++ [next_word win])
  end.

Definition compress (h : list Z) (block : list Z) : list Z :=
  let r := rounds K (regs_of h) block in
  map (fun p => add32 (fst p) (snd p)) (combine h (list_of r)).

Definition byte_of (c : ascii) : Z := Z.of_nat (nat_of_ascii c).

Fixpoint bytes_of (s : string) : list Z :=
  match s with
  | EmptyString => []
  | String c s' => byte_of c :: bytes_of s'
  end.

(** Message padding: a 1 bit, zeros up to 56 mod 64 bytes, then the bit
    length as a 64-bit big-endian integer. *)
Definition pad (msg : list Z) : list Z :=
  let n := Z.of_nat (length msg) in
  let zeros := Z.to_nat ((55 - n) mod 64) in
  let bits := 8 * n in
  msg ++ [0x80] ++ repeat 0 zeros
      ++ map (fun k => (bits / 256 ^ k) mod 256) [7; 6; 5; 4; 3; 2; 1; 0].

(** Big-endian 32-bit words of a byte list; [fuel] bounds the number of
    words. *)
Fixpoint words_of (fuel : nat) (bs : list Z) : list Z :=
  match fuel, bs with
  | S fuel', b0 :: b1 :: b2 :: b3 :: rest =>
      (((b0 * 256 + b1) * 256 + b2) * 256 + b3) :: words_of fuel' rest
  | _, _ => []
  end.

Fixpoint blocks (fuel : nat) (h : list Z) (ws : list Z) : list Z :=
  match fuel, ws with
  | S fuel', _ :: _ => blocks fuel' (compress h (take 16 ws)) (drop 16 ws)
  | _, _ => h
  end.

Definition digest (s : string) : list Z :=
  let bs := pad (bytes_of s) in
  blocks (length bs) H0 (words_of (length bs) bs).

Fixpoint hex_of_words (ws : list Z) : string :=
  match ws with
  | [] => EmptyString
  | x :: ws' => append (Hex.of_word 8 x) (hex_of_words ws')
  end.

(** [crypto.SHA256(s).toString(crypto.enc.Hex)] *)
Definition SHA256 (s : string) : string := hex_of_words (digest s).

End Sha256.

(* ===================================================================== *)
(** ** The JavaScript fragment the game uses *)
(* ===================================================================== *)

Module JS.
Local Open Scope Z_scope.

(** Numbers as the game code meets them: the integer-valued doubles and
    [NaN].  Below 2^53 every integer is a double.  An [Int z] that is no
    double comes from a sum the model keeps exact, such as
    [totalGames + 1]; where the program reads the sum, in [toString], it
    is rounded to the nearest double as the addition rounds it. *)
Inductive number : Type :=
  | NaN : number
  | Int : Z -> number.

Definition isNaN (n : number) : bool :=
  match n with NaN => true | Int _ => false end.

(** The decimal numeral of an integer. *)
Definition decimal (z : Z) : string :=
  DecimalString.NilZero.string_of_int (Z.to_int z).

(** The double nearest to an integer [a >= 2^53], as an integer: the 53
    leading bits, rounded to nearest with ties to the even mantissa;
    [None] when the result is an infinity. *)
Definition nearest_double (a : Z) : option Z :=
  let e := Z.log2 a - 52 in
  let q := a / 2 ^ e in
  let r := a mod 2 ^ e in
  let half := 2 ^ (e - 1) in
  let m := if r <? half then q
           else if half <? r then q + 1
           else if Z.even q then q else q + 1 in
  let v := m * 2 ^ e in
  if 2 ^ 1024 <=? v then None else Some v.

(** Whether the integer [v] is read back as the double [x >= 2^53]: it
    lies between the midpoints to the neighbouring doubles, the
    midpoints included when the mantissa of [x] is even.  (The bounds are
    doubled to stay in the integers.) *)
Definition reads_back_as (x v : Z) : bool :=
  let e := Z.log2 x - 52 in
  let m := x / 2 ^ e in
  let up := 2 ^ e in
  let down := if m =? 2 ^ 52 then 2 ^ (e - 1) else up in
  if Z.even m
  then (2 * x - down <=? 2 * v) && (2 * v <=? 2 * x + up)
  else (2 * x - down <? 2 * v) && (2 * v <? 2 * x + up).

(** The digits Number::toString prints for the double [x >= 2^53]: those
    of the integer with the fewest significant digits that is read back
    as [x], the closest to [x] when there are two ([k] is the number of
    digits tried, [N] the number of digits of [x]). *)
Fixpoint shortest_from (fuel : nat) (k N x : Z) : Z :=
  match fuel with
  | O => x
  | S fuel' =>
      let p := 10 ^ (N - k) in
      let lo := x / p * p in
      let hi := lo + p in
      match reads_back_as x lo, reads_back_as x hi with
      | true, true =>
          if x - lo <? hi - x then lo
          else if hi - x <? x - lo then hi
          else if Z.even (lo / p) then lo else hi
      | true, false => lo
      | false, true => hi
      | false, false => shortest_from fuel' (k + 1) N x
      end
  end.

Definition shortest (x : Z) : Z :=
  let N := Z.of_nat (String.length (decimal x)) in
  shortest_from (Z.to_nat (Z.min 17 N)) 1 N x.

Fixpoint strip_zeros (s : string) : string :=
  match s with
  | EmptyString => EmptyString
  | String c r =>
      match strip_zeros r with
      | EmptyString => if (c =? "0")%char then EmptyString
                       else String c EmptyString
      | r' => String c r'
      end
  end.

(** The exponent form of Number::toString: one digit, the other digits
    behind a point if there are any, and the exponent. *)
Definition exponent_form (v : Z) : string :=
  let s := decimal v in
  match strip_zeros s with
  | EmptyString => s
  | String c rest =>
      (String c (match rest with
                 | EmptyString => EmptyString
                 | _ => "." ++ rest
                 end)
       ++ "e+" ++ decimal (Z.of_nat (String.length s) - 1))%string
  end.

(** [`${n}`] for an integer-valued number: the plain numeral below 2^53;
    past it the digits are those of the shortest numeral that reads back
    as the same double, followed by zeros, and from 1e21 on the exponent
    form. *)
Definition toString (n : number) : string :=
  match n with
  | NaN => "NaN"
  | Int z =>
      if Z.abs z <? 2 ^ 53 then decimal z
      else
        let body :=
          match nearest_double (Z.abs z) with
          | None => "Infinity"%string
          | Some x =>
              let v := shortest x in
              if v <? 10 ^ 21 then decimal v else exponent_form v
          end in
        if z <? 0 then ("-" ++ body)%string else body
  end.

(** [!s] for a string: only the empty string is falsy. *)
Definition not_string (s : string) : bool :=
  match s with EmptyString => true | String _ _ => false end.

(** [s.substring(a, b)] for non-negative integer arguments: both are
    clamped to the length and exchanged when [a > b]. *)
Definition substring (s : string) (a b : nat) : string :=
  let len := String.length s in
  let a' := Nat.min a len in
  let b' := Nat.min b len in
  String.substring (Nat.min a' b') (Nat.max a' b' - Nat.min a' b') s.

(** Longest prefix of radix-16 digits, accumulated most significant
    first; [acc] is [None] until a digit has been read. *)
Fixpoint hex_prefix (acc : option Z) (s : string) : option Z :=
  match s with
  | EmptyString => acc
  | String c s' =>
      match Hex.value c with
      | Some d => hex_prefix (Some (match acc with
                                    | Some a => a * 16 + d
                                    | None => d
                                    end)) s'
      | None => acc
      end
  end.

(** [parseInt(s, 16)] on a string without leading white space: an
    optional sign, an optional [0x] prefix, then the longest run of
    digits; [NaN] when there is none. *)
Definition parseInt16 (s : string) : number :=
  let '(neg, s1) :=
    match s with
    | String c r =>
        if (c =? "-")%char then (true, r)
        else if (c =? "+")%char then (false, r)
        else (false, s)
    | EmptyString => (false, s)
    end in
  let s2 :=
    match s1 with
    | String c0 (String c1 r) =>
        if (c0 =? "0")%char && ((c1 =? "x")%char || (c1 =? "X")%char)
        then r else s1
    | _ => s1
    end in
  match hex_prefix None s2 with
  | None => NaN
  | Some v => Int (if neg then - v else v)
  end.

(** [a % b]: the remainder takes the sign of the dividend. *)
Definition rem (a b : number) : number :=
  match a, b with
  | Int x, Int y => if y =? 0 then NaN else Int (Z.rem x y)
  | _, _ => NaN
  end.

(** [arr.slice(0, n)] for an integer [n]: a negative [n] counts from the
    end. *)
Definition slice0 {A} (arr : list A) (n : Z) : list A :=
  let len := Z.of_nat (length arr) in
  let k := if n <? 0 then Z.max (len + n) 0 else Z.min n len in
  take (Z.to_nat k) arr.

End JS.

(* ===================================================================== *)
(** ** Deterministic shuffle: [generateBombLocations] *)
(* ===================================================================== *)

(** The function appears twice, word for word, in SoloMinesGame.tsx and in
    MultiplayerMinesGame.tsx; one model serves both. *)
Module Shuffle.
Import JS.

(** [[tiles[i], tiles[j]] = [tiles[j], tiles[i]]].  Both reads happen
    before both writes.  [None] stands for the case where [j] is no index
    of the array ([NaN], negative or past the end), in which JavaScript
    would store [undefined]. *)
Definition swap (tiles : list nat) (i : nat) (j : number) : option (list nat) :=
  match j with
  | Int z =>
      if (z <? 0)%Z then None
      else match tiles !! Z.to_nat z, tiles !! i with
           | Some tj, Some ti => Some (<[Z.to_nat z := ti]> (<[i := tj]> tiles))
           | _, _ => None
           end
  | NaN => None
  end.

(** The body of [for (let i = tiles.length - 1; i > 0; i--)], entered with
    the current value of [i]. *)
Fixpoint shuffleLoop (i : nat) (tiles : list nat) (currentHash : string)
  : option (list nat) :=
  match i with
  | O => Some tiles
  | S i' =>
      let hashSegment :=
        substring currentHash ((i mod 8) * 8) (((i mod 8) * 8) + 8) in
      let randInt := parseInt16 hashSegment in
      let j := rem randInt (Int (Z.of_nat (i + 1))) in
      match swap tiles i j with
      | Some tiles' => shuffleLoop i' tiles' (Sha256.SHA256 currentHash)
      | None => None
      end
  end.

(** Lines from [combinedSeed] to the end of the loop: the array before
    [slice]. *)
Definition shuffledTiles (serverSeed clientSeed : string) (nonce : number)
  : option (list nat) :=
  let combinedSeed :=
    (serverSeed ++ "-" ++ clientSeed ++ "-" ++ toString nonce)%string in
  let hash := Sha256.SHA256 combinedSeed in
  let tiles := seq 0 25 in
  shuffleLoop (length tiles - 1) tiles hash.

Definition generateBombLocations (serverSeed clientSeed : string)
    (nonce bombCount : number) : option (list nat) :=
  if not_string serverSeed || not_string clientSeed
     || isNaN nonce || isNaN bombCount
  then Some []
  else match bombCount with
       | Int b => option_map (fun tiles => slice0 tiles b)
                             (shuffledTiles serverSeed clientSeed nonce)
       | NaN => Some []
       end.

End Shuffle.

(* ===================================================================== *)
(** ** The shuffle as the specification words it *)
(* ===================================================================== *)

(** Written from section 4.2 of the specification, independently of the
    loop above, to be compared with it. *)
Module ShuffleSpec.
Local Open Scope Z_scope.

(** [digest0 = SHA256(server_seed || "-" || client_seed || "-" || nonce)],
    the integer nonce written as its decimal numeral. *)
Definition digest0 (server_seed client_seed : string) (nonce : Z) : string :=
  Sha256.SHA256
    (server_seed ++ "-" ++ client_seed ++ "-"
       ++ DecimalString.NilZero.string_of_int (Z.to_int nonce))%string.

(** The digest after [k] advances, each hashing the hexadecimal text of
    the previous one. *)
Fixpoint digest_at (d0 : string) (k : nat) : string :=
  match k with
  | O => d0
  | S k' => Sha256.SHA256 (digest_at d0 k')
  end.

(** The unsigned integer a run of hexadecimal characters denotes. *)
Fixpoint hex_value_from (acc : Z) (s : string) : Z :=
  match s with
  | EmptyString => acc
  | String c s' => hex_value_from (acc * 16 + default 0 (Hex.value c)) s'
  end.

Definition uint32_of_hex (seg : string) : Z := hex_value_from 0 seg.

(** The 8-character segment of digest [d] used at step [i]. *)
Definition segment (d : string) (i : nat) : string :=
  String.substring ((i mod 8) * 8) 8 d.

(** [j = r mod (i+1)] *)
Definition partner (d : string) (i : nat) : nat :=
  Z.to_nat (uint32_of_hex (segment d i) mod (Z.of_nat i + 1)).

(** The list with positions [i] and [j] exchanged. *)
Definition exchange (i j : nat) (p : list nat) : list nat :=
  map (fun k => nth (if Nat.eqb k i then j else if Nat.eqb k j then i else k) p O)
      (seq 0 (length p)).

(** Steps [N-1] down to [1]. *)
Definition steps (N : nat) : list nat := rev (seq 1 (N - 1)).

(** Step [i] is the [(N-1-i)]-th step, so it reads the digest advanced
    [N-1-i] times. *)
Definition shuffle (server_seed client_seed : string) (nonce : Z) (N : nat)
  : list nat :=
  let d0 := digest0 server_seed client_seed nonce in
  fold_left
    (fun p i => exchange i (partner (digest_at d0 (N - 1 - i)) i) p)
    (steps N) (seq 0 N).

End ShuffleSpec.


(* ===================================================================== *)
(** ** Payout model: [calculateMultiplier] *)
(* ===================================================================== *)

(** Money and multipliers are IEEE 754 binary64 values, as in JavaScript;
    the literals [0.99] and [0.1] denote the nearest double. *)
#[local] Set Warnings "-inexact-float".

Module Payout.
Local Open Scope float_scope.

(** An integer counter as a double (exact below 2^53 in magnitude). *)
Definition of_int (z : Z) : float :=
  if (z <? 0)%Z then - PrimFloat.of_uint63 (Uint63.of_Z (- z))
  else PrimFloat.of_uint63 (Uint63.of_Z z).

Definition totalTiles : float := 25.
Definition houseEdge : float := 0.99.

(** [for (let i = 0; i < safeRevealed; i++) chance *= ...], with [n]
    iterations left and the loop variable at [i]. *)
Fixpoint chanceLoop (n : nat) (i : float) (bombCount : float) (chance : float)
  : float :=
  match n with
  | O => chance
  | S n' =>
      chanceLoop n' (i + 1) bombCount
        (chance * ((totalTiles - bombCount - i) / (totalTiles - i)))
  end.

(** For an integer [safeRevealed] the loop body runs
    [max 0 safeRevealed] times. *)
Definition chanceOf (safeRevealed bombCount : Z) : float :=
  chanceLoop (Z.to_nat safeRevealed) 0 (of_int bombCount) 1.

Definition calculateMultiplier (safeRevealed bombCount : Z) : float :=
  let chance := chanceOf safeRevealed bombCount in
  houseEdge / chance.

End Payout.

(* ===================================================================== *)
(** ** Solo round: reducer, settlement effect and handlers *)
(* ===================================================================== *)

Module Solo.
Local Open Scope float_scope.

Inductive GameStatus : Type := betting | playing | finished.

Definition GameStatus_eqb (a b : GameStatus) : bool :=
  match a, b with
  | betting, betting | playing, playing | finished, finished => true
  | _, _ => false
  end.

Record Tile : Type := mkTile {
  id : nat;
  isRevealed : bool;
  isBomb : bool;
  isSelected : bool }.

(** [{ ...t, isRevealed: true }] *)
Definition reveal (t : Tile) : Tile :=
  mkTile (id t) true (isBomb t) (isSelected t).

(** Counters ([bombCount], [safeRevealed]) are integers; the slider and
    the increments of the reducer never produce anything else. *)
Record State : Type := mkState {
  gameState : GameStatus;
  betAmount : float;
  bombCount : Z;
  tiles : list Tile;
  currentMultiplier : float;
  safeRevealed : Z }.

Definition freshTiles (bomb : nat -> bool) : list Tile :=
  map (fun i => mkTile i false (bomb i) false) (seq 0 25).

Definition initialState : State :=
  mkState betting 0.1 5 (freshTiles (fun _ => false)) 1.0 0.

Inductive Action : Type :=
  | SET_GAME_STATE (payload : GameStatus)
  | SET_BET_AMOUNT (payload : float)
  | SET_BOMB_COUNT (payload : Z)
  | RESET_GAME
  | INITIALIZE_GAME (payloadBombCount : Z) (payloadTiles : list Tile)
  | REVEAL_TILE (tileId : nat)
  | CASH_OUT.

(** [gameReducer].  [None] is the [TypeError] thrown by [tile.isRevealed]
    when [tiles[tileId]] is [undefined].  Toasts are not modelled. *)
Definition gameReducer (state : State) (action : Action) : option State :=
  match action with
  | SET_GAME_STATE payload =>
      Some (mkState payload (betAmount state) (bombCount state) (tiles state)
                    (currentMultiplier state) (safeRevealed state))
  | SET_BET_AMOUNT payload =>
      Some (mkState (gameState state) payload (bombCount state) (tiles state)
                    (currentMultiplier state) (safeRevealed state))
  | SET_BOMB_COUNT payload =>
      Some (mkState (gameState state) (betAmount state) payload (tiles state)
                    (currentMultiplier state) (safeRevealed state))
  | RESET_GAME =>
      Some (mkState (gameState initialState) (betAmount state)
                    (bombCount state) (tiles initialState)
                    (currentMultiplier initialState)
                    (safeRevealed initialState))
  | INITIALIZE_GAME payloadBombCount payloadTiles =>
      Some (mkState playing (betAmount state) payloadBombCount payloadTiles
                    1.0 0)
  | REVEAL_TILE tileId =>
      match tiles state !! tileId with
      | None => None
      | Some tile =>
          if isRevealed tile then Some state
          else if isBomb tile then
            Some (mkState finished (betAmount state) (bombCount state)
                          (map reveal (tiles state))
                          (currentMultiplier state) (safeRevealed state))
          else
            let newSafeRevealed := (safeRevealed state + 1)%Z in
            let newMultiplier :=
              Payout.calculateMultiplier newSafeRevealed (bombCount state) in
            let newTiles :=
              map (fun t => if Nat.eqb (id t) tileId then reveal t else t)
                  (tiles state) in
            let allSafeTilesFound :=
              (newSafeRevealed =? 25 - bombCount state)%Z in
            if allSafeTilesFound then
              Some (mkState finished (betAmount state) (bombCount state)
                            (map reveal newTiles) newMultiplier
                            newSafeRevealed)
            else
              Some (mkState (gameState state) (betAmount state)
                            (bombCount state) newTiles newMultiplier
                            newSafeRevealed)
      end
  | CASH_OUT =>
      Some (mkState finished (betAmount state) (bombCount state)
                    (tiles state) (currentMultiplier state)
                    (safeRevealed state))
  end.

(** What [useStats()] hands to the component. *)
Record Stats : Type := mkStats {
  profileClientSeed : option string;   (* userProfile?.clientSeed *)
  totalGames : JS.number }.

(** [userProfile?.clientSeed || 'not_available'] *)
Definition clientSeedOf (st : Stats) : string :=
  match profileClientSeed st with
  | Some s => if JS.not_string s then "not_available"%string else s
  | None => "not_available"%string
  end.

(** [totalGames + 1] *)
Definition nonceOf (st : Stats) : JS.number :=
  match totalGames st with
  | JS.Int n => JS.Int (n + 1)
  | JS.NaN => JS.NaN
  end.

(** The argument of [addGame]. *)
Record GameRecord : Type := mkRecord {
  netProfit : float;
  wageredAmount : float;
  multiplier : float;
  recServerSeed : string;
  recClientSeed : string;
  recNonce : JS.number }.

(** The component: reducer state, the [serverSeed] state, the
    [prevGameState] ref and the games handed to [addGame] so far (latest
    first). *)
Record Component : Type := mkComponent {
  state : State;
  serverSeed : string;
  prevGameState : GameStatus;
  recorded : list GameRecord }.

Definition initialComponent : Component :=
  mkComponent initialState ""%string betting [].

(** The record the settlement effect hands to [addGame] when it sees the
    transition from [playing] to [finished]. *)
Definition settlement (st : Stats) (serverSeed : string) (s : State)
  : GameRecord :=
  let isLoss := existsb (fun tile => isBomb tile && isRevealed tile) (tiles s) in
  if isLoss then
    mkRecord (- betAmount s) (betAmount s) 0
             serverSeed (clientSeedOf st) (nonceOf st)
  else
    let winAmount := betAmount s * currentMultiplier s in
    let netProfit := winAmount - betAmount s in
    mkRecord netProfit (betAmount s) (currentMultiplier s)
             serverSeed (clientSeedOf st) (nonceOf st).

(** The [useEffect] on [gameState]: runs after a render. *)
Definition settlementEffect (st : Stats) (c : Component) : Component :=
  let s := state c in
  let recorded' :=
    if GameStatus_eqb (prevGameState c) playing
       && GameStatus_eqb (gameState s) finished
    then settlement st (serverSeed c) s :: recorded c
    else recorded c in
  mkComponent s (serverSeed c) (gameState s) recorded'.

(** [dispatch(action)] followed by the render and its effect. *)
Definition dispatch (st : Stats) (c : Component) (a : Action)
  : option Component :=
  match gameReducer (state c) a with
  | Some s' =>
      Some (settlementEffect st
              (mkComponent s' (serverSeed c) (prevGameState c) (recorded c)))
  | None => None
  end.

(** [initializeGame]; [newServerSeed] is the value
    [crypto.lib.WordArray.random(16).toString()] returned.  A layout the
    model cannot express (see [Shuffle.swap]) yields [None]. *)
Definition initializeGame (st : Stats) (newServerSeed : string)
    (c : Component) : option Component :=
  let s := state c in
  if PrimFloat.leb (betAmount s) 0 then Some c
  else
    let clientSeed := clientSeedOf st in
    let nonce := nonceOf st in
    match Shuffle.generateBombLocations newServerSeed clientSeed nonce
            (JS.Int (bombCount s)) with
    | None => None
    | Some bombLocations =>
        let newTiles :=
          freshTiles (fun i => existsb (Nat.eqb i) bombLocations) in
        dispatch st
          (mkComponent s newServerSeed (prevGameState c) (recorded c))
          (INITIALIZE_GAME (bombCount s) newTiles)
    end.

(** [revealTile] *)
Definition revealTile (st : Stats) (tileId : nat) (c : Component)
  : option Component :=
  if negb (GameStatus_eqb (gameState (state c)) playing) then Some c
  else dispatch st c (REVEAL_TILE tileId).

(** [cashOut] *)
Definition cashOut (st : Stats) (c : Component) : option Component :=
  if negb (GameStatus_eqb (gameState (state c)) playing)
     || (safeRevealed (state c) =? 0)%Z
  then Some c
  else dispatch st c CASH_OUT.

Definition resetGame (st : Stats) (c : Component) : option Component :=
  dispatch st c RESET_GAME.

Definition handleBetAmountChange (st : Stats) (value : float) (c : Component)
  : option Component :=
  dispatch st c (SET_BET_AMOUNT value).

Definition handleBombCountChange (st : Stats) (value : Z) (c : Component)
  : option Component :=
  dispatch st c (SET_BOMB_COUNT value).

(** One user interaction.  The board offers the 25 tiles; the slider
    offers the integers from 1 to 24. *)
Inductive step : Component -> Component -> Prop :=
  | step_bet st v c c' :
      handleBetAmountChange st v c = Some c' -> step c c'
  | step_bombs st v c c' :
      (1 <= v <= 24)%Z ->
      handleBombCountChange st v c = Some c' -> step c c'
  | step_start st seed c c' :
      initializeGame st seed c = Some c' -> step c c'
  | step_reveal st tileId c c' :
      (tileId < 25)%nat ->
      revealTile st tileId c = Some c' -> step c c'
  | step_cash st c c' :
      cashOut st c = Some c' -> step c c'
  | step_reset st c c' :
      resetGame st c = Some c' -> step c c'.

Inductive reachable : Component -> Prop :=
  | reach_init : reachable initialComponent
  | reach_step c c' : reachable c -> step c c' -> reachable c'.

End Solo.

(* ===================================================================== *)
(** ** Duel round: [processMove], turn effect and coinflip *)
(* ===================================================================== *)

Module Duel.
Local Open Scope float_scope.

Inductive Side : Type := player | opponent.

Definition Side_eqb (a b : Side) : bool :=
  match a, b with
  | player, player | opponent, opponent => true
  | _, _ => false
  end.

Definition other (s : Side) : Side :=
  match s with player => opponent | opponent => player end.

(** ['player' | 'opponent' | 'tie']; [null] is [None] below. *)
Inductive Winner : Type := WinPlayer | WinOpponent | WinTie.

Definition Winner_of (s : Side) : Winner :=
  match s with player => WinPlayer | opponent => WinOpponent end.

Record GameSettings : Type := mkSettings {
  bombs : Z;
  amount : float }.

Record Tile : Type := mkTile {
  id : nat;
  isRevealed : bool;
  isBomb : bool;
  revealedBy : option Side }.

(** A stake as the state holds it: a double, or the [null] that
    [JSON.parse(JSON.stringify(state))] leaves of a [NaN] or of an
    infinity. *)
Inductive Amount : Type :=
  | Num (f : float)
  | Null.

Coercion Num : float >-> Amount.

(** [JSON.parse(JSON.stringify(x))] on a stake: [NaN] and the infinities
    are written as [null], [-0] is written as [0], and every other
    double is read back as it was. *)
Definition jsonCopy (x : Amount) : Amount :=
  match x with
  | Null => Null
  | Num f =>
      if PrimFloat.is_nan f || PrimFloat.is_infinity f then Null
      else if PrimFloat.is_zero f then Num 0
      else Num f
  end.

(** [-x]; [null] counts as [0]. *)
Definition negate (x : Amount) : float :=
  match x with
  | Num f => - f
  | Null => - 0
  end.

Record GameState : Type := mkState {
  tiles : list Tile;
  activeTurn : Side;
  playerScore : Z;
  opponentScore : Z;
  playerHasHitBomb : bool;
  opponentHasHitBomb : bool;
  gameOver : bool;
  winner : option Winner;
  minesPlaced : bool;
  betAmount : Amount;
  bombCount : Z;
  gameSeed : string;
  serverSeed : string;
  clientSeed : string;
  nonce : JS.number }.

Record CoinflipState : Type := mkCoinflip {
  show : bool;
  cfWinner : option Side }.

(** The argument of [stats.addGame]. *)
Record GameRecord : Type := mkRecord {
  wageredAmount : Amount;
  netProfit : Amount;
  multiplier : float;
  recServerSeed : string;
  recClientSeed : string;
  recNonce : JS.number }.

(** The component: the two pieces of React state and the games handed
    to [addGame] so far (latest first). *)
Record Component : Type := mkComponent {
  state : GameState;
  coinflip : CoinflipState;
  recorded : list GameRecord }.

(** What [processMove] did. *)
Inductive Result : Type :=
  | Rejected                      (* early [return]: nothing is set *)
  | Threw                         (* [tiles[tileId]] is [undefined] *)
  | OutOfFuel                     (* [placeMines] still looping *)
  | Accepted (c : Component).

Record Stats : Type := mkStats {
  profileClientSeed : option string;   (* userProfile?.clientSeed *)
  totalGames : JS.number }.

(** [Math.floor] of a double as an integer; [None] for [NaN] and the
    infinities. *)
Definition floorZ (f : float) : option Z :=
  match Prim2SF f with
  | S754_zero _ => Some 0%Z
  | S754_finite sign m e =>
      let n := (if sign then Z.neg m else Z.pos m) in
      Some (if (0 <=? e)%Z then n * 2 ^ e else n / 2 ^ (- e))%Z
  | _ => None
  end.

(** [x || d] on doubles: [0] and [NaN] are falsy. *)
Definition float_or (x d : float) : float :=
  if PrimFloat.eqb x 0 || negb (PrimFloat.eqb x x) then d else x.

Section WithPRNG.

(** The seedrandom collaborator: [seedrandom seed n] is the [n]-th value
    drawn from the generator made by [seedrandom(seed)]. *)
Variable seedrandom : string -> nat -> float.

Definition blankTiles : list Tile :=
  map (fun id => mkTile id false false None) (seq 0 25).

(** [createInitialState]; [now] is [Date.now().toString()]. *)
Definition createInitialState (now : string) (settings : option GameSettings)
  : GameState :=
  let gameSeed := now in
  let isPlayerFirst := PrimFloat.ltb (seedrandom gameSeed 0) 0.5 in
  mkState blankTiles
          (if isPlayerFirst then player else opponent)
          0 0 false false false None false
          (Num (match settings with
                | Some st => float_or (amount st) 0.01
                | None => 0.01
                end))
          (match settings with
           | Some st => if (bombs st =? 0)%Z then 3%Z else bombs st
           | None => 3%Z
           end)
          gameSeed ""%string ""%string (JS.Int 0).

(** The [while] loop of [placeMines] with [fuel] iterations allowed;
    [n] counts the values drawn so far.  A position that is no finite
    number is kept as [None]. *)
Fixpoint placeLoop (fuel : nat) (n : nat) (firstClickedId : nat)
    (bombCount : Z) (totalTiles : float) (seed : string)
    (minePositions : gset (option Z)) : option (gset (option Z)) :=
  if (Z.of_nat (size minePositions) <? bombCount)%Z then
    match fuel with
    | O => None
    | S fuel' =>
        let position := floorZ (seedrandom seed n * totalTiles) in
        placeLoop fuel' (S n) firstClickedId bombCount totalTiles seed
          (if bool_decide (position = Some (Z.of_nat firstClickedId))
           then minePositions
           else {[ position ]} ∪ minePositions)
    end
  else Some minePositions.

Definition placeMines (fuel : nat) (firstClickedId : nat) (bombCount : Z)
    (totalTiles : float) (seed : string) : option (gset (option Z)) :=
  placeLoop fuel 0 firstClickedId bombCount totalTiles seed ∅.

(** [seedrandom(gameSeed + 'tie')() < 0.5 ? 'player' : 'opponent'] *)
Definition coinFlipWinner (gameSeed : string) : Side :=
  if PrimFloat.ltb (seedrandom (gameSeed ++ "tie") 0) 0.5
  then player else opponent.

Definition revealAll (ts : list Tile) : list Tile :=
  map (fun t => mkTile (id t) true (isBomb t) (revealedBy t)) ts.

Definition hasHitBomb (s : GameState) (who : Side) : bool :=
  match who with
  | player => playerHasHitBomb s
  | opponent => opponentHasHitBomb s
  end.

(** The number of safe tiles revealed so far, as [processMove] counts
    it. *)
Definition safeRevealedCount (ts : list Tile) : Z :=
  Z.of_nat (length (List.filter (fun t => negb (isBomb t) && isRevealed t) ts)).

(** The block under "Check for game over conditions": whether the game
    is over, the winner decided by the scores if any, and the winner of
    the coinflip handed to [setCoinflip] if the tie-break is started. *)
Definition gameOverCheck (gameSeed : string) (allSafeTilesRevealed : bool)
    (playerHasHitBomb opponentHasHitBomb : bool)
    (playerScore opponentScore : Z)
  : bool * option Side * option Side :=
  let by_score :=
    if (opponentScore <? playerScore)%Z then (true, Some player, None)
    else if (playerScore <? opponentScore)%Z then (true, Some opponent, None)
    else (true, None, Some (coinFlipWinner gameSeed)) in
  if allSafeTilesRevealed then by_score
  else if playerHasHitBomb && (playerScore <? opponentScore)%Z
  then (true, Some opponent, None)
  else if opponentHasHitBomb && (opponentScore <? playerScore)%Z
  then (true, Some player, None)
  else if playerHasHitBomb && opponentHasHitBomb then by_score
  else (false, None, None).

(** The record of a decided game: [bet] is the stake of the state the
    handler works on, the seeds and the nonce are those of [old]. *)
Definition gameRecord (old : GameState) (bet : Amount) (w : Side) : GameRecord :=
  mkRecord bet
           (match w with player => bet | opponent => Num (negate bet) end)
           (match w with player => 2 | opponent => 0 end)
           (serverSeed old) (clientSeed old) (nonce old).

(** [processMove(tileId, moveMaker)] on the component [c].  It works on
    [newState], the JSON copy of [state]: of the fields of the state only
    a stake that is no finite number, or [-0], comes back changed. *)
Definition processMove (fuel : nat) (c : Component) (tileId : nat)
    (moveMaker : Side) : Result :=
  let s := state c in
  let newBetAmount := jsonCopy (betAmount s) in
  if gameOver s then Rejected
  else if Side_eqb moveMaker player
          && (playerHasHitBomb s || negb (Side_eqb (activeTurn s) player))
  then Rejected
  else if Side_eqb moveMaker opponent
          && (opponentHasHitBomb s || negb (Side_eqb (activeTurn s) opponent))
  then Rejected
  else
    (* first move of a round whose mines are not placed yet *)
    let placed :=
      if minesPlaced s then Some (tiles s)
      else
        match placeMines fuel tileId (bombCount s) 25 (gameSeed s) with
        | None => None
        | Some minePositions =>
            Some (imap (fun index tile =>
                          if bool_decide (Some (Z.of_nat index) ∈ minePositions)
                          then mkTile (id tile) (isRevealed tile) true
                                      (revealedBy tile)
                          else tile) (tiles s))
        end in
    match placed with
    | None => OutOfFuel
    | Some tiles1 =>
        match tiles1 !! tileId with
        | None => Threw
        | Some tile0 =>
            let tile := mkTile (id tile0) true (isBomb tile0) (Some moveMaker) in
            let tiles2 := <[tileId := tile]> tiles1 in
            let bust := isBomb tile in
            let playerHasHitBomb' :=
              if bust && Side_eqb moveMaker player then true
              else playerHasHitBomb s in
            let opponentHasHitBomb' :=
              if bust && Side_eqb moveMaker opponent then true
              else opponentHasHitBomb s in
            let playerScore' :=
              if negb bust && Side_eqb moveMaker player
              then (playerScore s + 1)%Z else playerScore s in
            let opponentScore' :=
              if negb bust && Side_eqb moveMaker opponent
              then (opponentScore s + 1)%Z else opponentScore s in
            let allSafeTilesRevealed :=
              (safeRevealedCount tiles2 =? 25 - bombCount s)%Z in
            let '(over, won, flip) :=
              gameOverCheck (gameSeed s) allSafeTilesRevealed
                playerHasHitBomb' opponentHasHitBomb'
                playerScore' opponentScore' in
            let coinflip' :=
              match flip with
              | Some w => mkCoinflip true (Some w)
              | None => coinflip c
              end in
            let mk ts turn over' winner' :=
              mkState ts turn playerScore' opponentScore'
                      playerHasHitBomb' opponentHasHitBomb' over' winner'
                      true newBetAmount (bombCount s) (gameSeed s)
                      (serverSeed s) (clientSeed s) (nonce s) in
            if over then
              match won with
              | Some w =>
                  Accepted
                    (mkComponent
                       (mk (revealAll tiles2) (activeTurn s) true
                           (Some (Winner_of w)))
                       coinflip'
                       (gameRecord s newBetAmount w :: recorded c))
              | None =>
                  Accepted
                    (mkComponent (mk tiles2 (activeTurn s) true (winner s))
                                 coinflip' (recorded c))
              end
            else
              Accepted
                (mkComponent (mk tiles2 (other moveMaker) false (winner s))
                             coinflip' (recorded c))
        end
    end.

(** [handleTileClick] *)
Definition handleTileClick (fuel : nat) (c : Component) (tileId : nat)
  : Result :=
  match tiles (state c) !! tileId with
  | None => Threw
  | Some t => if isRevealed t then Rejected
              else processMove fuel c tileId player
  end.

(** [makeBotMove]; [pick] is [Math.floor(Math.random() * length)]. *)
Definition makeBotMove (fuel : nat) (c : Component) (pick : nat) : Result :=
  let unrevealedTiles :=
    List.filter (fun t => negb (isRevealed t)) (tiles (state c)) in
  match unrevealedTiles !! pick with
  | None => if Nat.eqb (length unrevealedTiles) 0 then Rejected else Threw
  | Some randomTile => processMove fuel c (id randomTile) opponent
  end.

(** The state update of the turn-progression effect: a side that has hit
    a bomb is skipped. *)
Definition turnEffect (s : GameState) : GameState :=
  let pass turn :=
    mkState (tiles s) turn (playerScore s) (opponentScore s)
            (playerHasHitBomb s) (opponentHasHitBomb s) (gameOver s)
            (winner s) (minesPlaced s) (betAmount s) (bombCount s)
            (gameSeed s) (serverSeed s) (clientSeed s) (nonce s) in
  if gameOver s then s
  else if Side_eqb (activeTurn s) player && playerHasHitBomb s
  then pass opponent
  else if Side_eqb (activeTurn s) opponent && opponentHasHitBomb s
  then pass player
  else s.

(** [handleCoinflipComplete(winner)] *)
Definition handleCoinflipComplete (w : Side) (c : Component) : Component :=
  let s := state c in
  mkComponent
    (mkState (tiles s) (activeTurn s) (playerScore s) (opponentScore s)
             (playerHasHitBomb s) (opponentHasHitBomb s) (gameOver s)
             (Some (Winner_of w)) (minesPlaced s) (betAmount s)
             (bombCount s) (gameSeed s) (serverSeed s) (clientSeed s)
             (nonce s))
    (mkCoinflip false (cfWinner (coinflip c)))
    (gameRecord s (betAmount s) w :: recorded c).

(** The effect on [settings]: a round whose layout comes from the
    seed-based shuffle.  [now] and [newServerSeed] are the clock and the
    random seed it reads. *)
Definition settingsEffect (st : Stats) (now newServerSeed : string)
    (settings : option GameSettings) (c : Component) : option Component :=
  match settings with
  | None => Some c
  | Some cfg =>
      let s := state c in
      if minesPlaced s || existsb isRevealed (tiles s) || gameOver s
      then Some c
      else
        let initialState := createInitialState now settings in
        let clientSeed :=
          match profileClientSeed st with
          | Some x => if JS.not_string x then "default-client-seed"%string else x
          | None => "default-client-seed"%string
          end in
        let nonce :=
          match totalGames st with
          | JS.Int n => JS.Int (n + 1)
          | JS.NaN => JS.Int 1
          end in
        match Shuffle.generateBombLocations newServerSeed clientSeed nonce
                (JS.Int (bombs cfg)) with
        | None => None
        | Some bombLocations =>
            Some (mkComponent
                    (mkState
                       (map (fun i => mkTile i false
                                        (existsb (Nat.eqb i) bombLocations)
                                        None) (seq 0 25))
                       (activeTurn initialState) 0 0 false false false None
                       true (Num (amount cfg)) (bombs cfg)
                       (gameSeed initialState) newServerSeed clientSeed nonce)
                    (coinflip c) (recorded c))
        end
  end.

(** The component at its first render. *)
Definition initialComponent (now : string) (settings : option GameSettings)
  : Component :=
  mkComponent (createInitialState now settings) (mkCoinflip false None) [].

(** One event of a round.  The bot moves from a timer: the turn effect
    sets it whenever [activeTurn], a bust flag or [gameOver] has changed,
    and the timer calls the [makeBotMove] of the render that set it.
    While a timer waits, the state can change without changing those four
    in one way only, through the settings effect; otherwise the bot moves
    on the current state ([step_bot]).  When the opponent starts both in
    the state of the first render and in the state the settings effect
    installs, the timer of the first render stays: its move is computed
    from the first render's state and replaces the installed one
    ([step_bot_stale]). *)
Inductive step : Component -> Component -> Prop :=
  | step_click fuel tileId c c' :
      handleTileClick fuel c tileId = Accepted c' -> step c c'
  | step_bot fuel pick c c' :
      makeBotMove fuel c pick = Accepted c' -> step c c'
  | step_bot_stale fuel pick st now0 settings0 now seed cfg c c' :
      activeTurn (createInitialState now0 settings0) = opponent ->
      settingsEffect st now seed (Some cfg) (initialComponent now0 settings0)
        = Some c ->
      activeTurn (state c) = opponent ->
      makeBotMove fuel (initialComponent now0 settings0) pick = Accepted c' ->
      step c c'
  | step_turn c :
      step c (mkComponent (turnEffect (state c)) (coinflip c) (recorded c))
  | step_coinflip w c :
      show (coinflip c) = true ->
      step c (handleCoinflipComplete w c)
  | step_settings st now seed settings c c' :
      settingsEffect st now seed settings c = Some c' -> step c c'.

Inductive reachable : Component -> Prop :=
  | reach_init now settings : reachable (initialComponent now settings)
  | reach_step c c' : reachable c -> step c c' -> reachable c'.

End WithPRNG.

End Duel.

(* ===================================================================== *)
(** ** Auxiliary definitions used by the statements and proofs *)
(* ===================================================================== *)

(** Integers from [lo], [n] of them. *)
Definition Zrange (lo : Z) (n : nat) : list Z :=
  map (fun i => (lo + Z.of_nat i)%Z) (seq 0 n).

(** Every character is a radix-16 digit. *)
Fixpoint all_hex (s : string) : bool :=
  match s with
  | EmptyString => true
  | String c s' =>
      match Hex.value c with Some _ => all_hex s' | None => false end
  end.

(** A digest as crypto-js prints it: 64 hexadecimal characters. *)
Definition hex64 (s : string) : Prop :=
  String.length s = 64%nat /\ all_hex s = true.

(** Cells of the multiplier tables that are checked by evaluation. *)
Definition increasing_in_reveals (b k : Z) : bool :=
  if (k + 1 <=? 25 - b)%Z
  then PrimFloat.ltb (Payout.calculateMultiplier k b)
                    (Payout.calculateMultiplier (k + 1) b)
  else true.

Definition increasing_in_bombs (b k : Z) : bool :=
  if ((1 <=? k) && (k <=? 25 - (b + 1)))%Z
  then PrimFloat.ltb (Payout.calculateMultiplier k b)
                    (Payout.calculateMultiplier k (b + 1))
  else true.


Module SoloAux.
Import Solo.

(** The board as every handler builds it: 25 tiles, tile [i] at index [i]. *)
Definition wf_tiles (ts : list Tile) : Prop := map id ts = seq 0 25.

(** [tiles.some(tile => tile.isBomb && tile.isRevealed)] *)
Definition isLoss (ts : list Tile) : bool :=
  existsb (fun tile => isBomb tile && isRevealed tile) ts.

Definition revealedCount (ts : list Tile) : Z :=
  Z.of_nat (length (List.filter isRevealed ts)).

(** What holds of the component after any sequence of interactions. *)
Record invariant (c : Component) : Prop := mkInvariant {
  inv_prev : prevGameState c = gameState (state c);
  inv_tiles : wf_tiles (tiles (state c));
  inv_bombs : (1 <= bombCount (state c) <= 24)%Z;
  inv_mult : PrimFloat.eqb (currentMultiplier (state c)) 0 = false;
  inv_play :
    gameState (state c) = playing ->
    isLoss (tiles (state c)) = false
    /\ safeRevealed (state c) = revealedCount (tiles (state c)) }.

Definition multiplier_nonzero (b k : Z) : bool :=
  negb (PrimFloat.eqb (Payout.calculateMultiplier k b) 0).

(** A round of five bombs started from the conformance seeds. *)
Definition demoStats : Stats := mkStats (Some "def"%string) (JS.Int 0).

Definition demoRound : Component :=
  Eval vm_compute in
    default initialComponent (initializeGame demoStats "abc" initialComponent).

(** A round of 24 bombs from the same seeds: tile 18 is the only safe
    one. *)
Definition jackpotRound : Component :=
  Eval vm_compute in
    default initialComponent
      (c1 ← handleBombCountChange demoStats 24 initialComponent;
       initializeGame demoStats "abc" c1).

(** A stats context whose game counter is not a number. *)
Definition nanStats : Stats := mkStats None JS.NaN.

(** The update of one tile in the safe branch of the reducer. *)
Definition revealOne (tileId : nat) (t : Tile) : Tile :=
  if Nat.eqb (id t) tileId then reveal t else t.

End SoloAux.

Module DuelAux.
Import Duel.

(** The state with the turn handed to [turn], all else as it is. *)
Definition withTurn (s : GameState) (turn : Side) : GameState :=
  mkState (tiles s) turn (playerScore s) (opponentScore s)
          (playerHasHitBomb s) (opponentHasHitBomb s) (gameOver s)
          (winner s) (minesPlaced s) (betAmount s) (bombCount s)
          (gameSeed s) (serverSeed s) (clientSeed s) (nonce s).

(** What holds of the component after any sequence of events. *)
Record invariant (c : Component) : Prop := mkInvariant {
  inv_placed :
    playerHasHitBomb (state c) || opponentHasHitBomb (state c) = true ->
    minesPlaced (state c) = true;
  inv_pending : gameOver (state c) = false -> winner (state c) = None;
  inv_show : show (coinflip c) = true -> gameOver (state c) = true }.

(** Written from section 4.5 of the specification, to be compared with
    [coinFlipWinner]: the digest of [round_seed || "tie"] read as a
    fraction of 2^256 and compared against one half. *)
Definition sha256_tie_coin (round_seed : string) : Side :=
  let value :=
    fold_left (fun acc w => acc * 2 ^ 32 + w)%Z
              (Sha256.digest (round_seed ++ "tie")) 0%Z in
  if (2 * value <? 2 ^ 256)%Z then player else opponent.

(** Two generators that always draw the same value, 0.25 and 0.75. *)
Definition lowPRNG : string -> nat -> float := fun _ _ => 0.25%float.
Definition highPRNG : string -> nat -> float := fun _ _ => 0.75%float.

(** A generator whose [n]-th value is [(n mod 25) / 25 + 0.02]: it
    lands on position [n mod 25] of 25. *)
Definition cyclePRNG : string -> nat -> float :=
  fun _ n => (Payout.of_int (Z.of_nat (n mod 25)) / 25 + 0.02)%float.

Definition accepted (r : Result) (d : Component) : Component :=
  match r with Accepted c => c | _ => d end.

(** A round without settings under [cyclePRNG]: the player starts and
    reveals tile 24 (the mines land on 0, 1, 2), the bot reveals tile 23,
    the player hits the bomb on tile 0. *)
Definition duel0 : Component :=
  Eval vm_compute in initialComponent cyclePRNG "1700000000000" None.
Definition duel1 : Component :=
  Eval vm_compute in accepted (handleTileClick cyclePRNG 10 duel0 24) duel0.
Definition duel2 : Component :=
  Eval vm_compute in accepted (makeBotMove cyclePRNG 0 duel1 23) duel0.
Definition duel3 : Component :=
  Eval vm_compute in accepted (handleTileClick cyclePRNG 0 duel2 0) duel0.

(** A state in which the turn stands on the player, who has hit a
    bomb. *)
Definition skipState : GameState :=
  mkState (tiles (state duel3)) player 2 1 true false false None true
          0.01%float 3 "1700000000000" "" "" (JS.Int 0).

End DuelAux.

(* ===================================================================== *)
(** ** Further models: exact payout, on-chain nonce, page gating *)
(* ===================================================================== *)

From Stdlib Require Import QArith Qabs.
Close Scope Q_scope.

Module PayoutExact.
Local Open Scope Z_scope.

(** The rational number a finite double denotes; [None] for [NaN] and the
    infinities. *)
Definition float_to_Q (f : float) : option Q :=
  match Prim2SF f with
  | S754_zero _ => Some 0%Q
  | S754_finite sign m e =>
      let n := if sign then Z.neg m else Z.pos m in
      Some (if 0 <=? e then inject_Z (n * 2 ^ e)
            else Qmake n (Pos.pow 2 (Z.to_pos (- e))))
  | _ => None
  end.

(** The loop of [calculateMultiplier] over exact rationals. *)
Fixpoint chanceExact (n : nat) (i : Z) (bombCount : Z) (chance : Q) : Q :=
  match n with
  | O => chance
  | S n' =>
      chanceExact n' (i + 1) bombCount
        (chance * (inject_Z (25 - bombCount - i) / inject_Z (25 - i)))%Q
  end.

Definition multiplierExact (safeRevealed bombCount : Z) : Q :=
  ((99 # 100) / chanceExact (Z.to_nat safeRevealed) 0 bombCount (1 # 1))%Q.

(** Relative error of the double against the exact value at most 2^-50. *)
Definition accurate (b k : Z) : bool :=
  if k <=? 25 - b then
    match float_to_Q (Payout.calculateMultiplier k b) with
    | Some q =>
        Qle_bool (Qabs (q - multiplierExact k b))
                 (multiplierExact k b * (1 # Pos.pow 2 50))
    | None => false
    end
  else true.

(** In range: finite and at least the house edge. *)
Definition finite_above_edge (b k : Z) : bool :=
  if k <=? 25 - b then
    PrimFloat.leb Payout.houseEdge (Payout.calculateMultiplier k b)
    && PrimFloat.ltb (Payout.calculateMultiplier k b) infinity
  else true.

End PayoutExact.

Module Onchain.
Local Open Scope Z_scope.

(** [ToInt32], the conversion the bitwise operators apply first. *)
Definition toInt32 (n : JS.number) : Z :=
  match n with
  | JS.NaN => 0
  | JS.Int z => (z + 2 ^ 31) mod 2 ^ 32 - 2 ^ 31
  end.

(** [const gameNonce = params.nonce & 0xff] in [startSoloOnchain]. *)
Definition gameNonce (nonce : JS.number) : Z :=
  Z.land (toInt32 nonce) 0xff.

End Onchain.

Module SoloUI.
Import Solo.

(** The interactions the rendered page offers: the stake input, the bomb
    slider and the start button exist only while [betting]; the "Play
    Again" button only when [finished]; tiles and cash-out call the
    handlers, which check the state themselves. *)
Inductive ui_step : Component -> Component -> Prop :=
  | ui_bet st v c c' :
      gameState (state c) = betting ->
      handleBetAmountChange st v c = Some c' -> ui_step c c'
  | ui_bombs st v c c' :
      gameState (state c) = betting ->
      (1 <= v <= 24)%Z ->
      handleBombCountChange st v c = Some c' -> ui_step c c'
  | ui_start st seed c c' :
      gameState (state c) = betting ->
      initializeGame st seed c = Some c' -> ui_step c c'
  | ui_reveal st tileId c c' :
      (tileId < 25)%nat ->
      revealTile st tileId c = Some c' -> ui_step c c'
  | ui_cash st c c' :
      cashOut st c = Some c' -> ui_step c c'
  | ui_reset st c c' :
      gameState (state c) = finished ->
      resetGame st c = Some c' -> ui_step c c'.

Inductive ui_reachable : Component -> Prop :=
  | ui_init : ui_reachable initialComponent
  | ui_next c c' : ui_reachable c -> ui_step c c' -> ui_reachable c'.

(** The multiplier the counters determine. *)
Definition multiplierOf (s : State) : float :=
  if (safeRevealed s =? 0)%Z then 1%float
  else Payout.calculateMultiplier (safeRevealed s) (bombCount s).

(** What the counters satisfy after any sequence of page interactions. *)
Record counters_ok (c : Component) : Prop := mkCountersOk {
  ok_mult : currentMultiplier (state c) = multiplierOf (state c);
  ok_betting : gameState (state c) = betting -> safeRevealed (state c) = 0%Z;
  ok_playing :
    gameState (state c) = playing ->
    (0 <= safeRevealed (state c) < 25 - bombCount (state c))%Z;
  ok_finished :
    gameState (state c) = finished ->
    (0 <= safeRevealed (state c) <= 25 - bombCount (state c))%Z }.

End SoloUI.

Module SoloDemo.
Import Solo SoloAux.
(** The demonstration round after the safe tile 0 has been revealed. *)
Definition demoRound1 : Component :=
  Eval vm_compute in default demoRound (revealTile demoStats 0 demoRound).
End SoloDemo.

Module DuelBooks.
Import Duel.

Section WithPRNG.
Variable seedrandom : string -> nat -> float.

(** The tiles [processMove] works on once the mines are in place. *)
Definition placedTiles (fuel : nat) (s : GameState) (tileId : nat)
  : option (list Tile) :=
  if minesPlaced s then Some (tiles s)
  else
    match placeMines seedrandom fuel tileId (bombCount s) 25 (gameSeed s) with
    | None => None
    | Some minePositions =>
        Some (imap (fun index tile =>
                      if bool_decide (Some (Z.of_nat index) ∈ minePositions)
                      then mkTile (id tile) (isRevealed tile) true
                                  (revealedBy tile)
                      else tile) (tiles s))
    end.
End WithPRNG.

Definition score (s : GameState) (who : Side) : Z :=
  match who with player => playerScore s | opponent => opponentScore s end.

(** How turn, flags and scores stand together while a round is live. *)
Definition turn_ok (s : GameState) : Prop :=
  (playerHasHitBomb s = false /\ opponentHasHitBomb s = false
   /\ (playerScore s = opponentScore s
       \/ (activeTurn s = player /\ opponentScore s = playerScore s + 1)
       \/ (activeTurn s = opponent /\ playerScore s = opponentScore s + 1)))%Z
  \/ (playerHasHitBomb s = true /\ opponentHasHitBomb s = false
      /\ activeTurn s = opponent /\ playerScore s = opponentScore s)
  \/ (playerHasHitBomb s = false /\ opponentHasHitBomb s = true
      /\ activeTurn s = player /\ playerScore s = opponentScore s).

(** What the books look like after any sequence of events. *)
Record books_ok (c : Component) : Prop := mkBooksOk {
  bk_live : gameOver (state c) = false -> turn_ok (state c);
  bk_none : winner (state c) = None -> recorded c = [];
  bk_some :
    forall x, winner (state c) = Some x ->
      exists w, x = Winner_of w
                /\ recorded c = [gameRecord (state c) (betAmount (state c)) w];
  bk_show : show (coinflip c) = true -> winner (state c) = None }.

(** Once a tile is shown the stake is one the JSON copy leaves as it is,
    and a round that is over has a tile shown. *)
Record stake_ok (c : Component) : Prop := mkStakeOk {
  sk_copied :
    existsb isRevealed (tiles (state c)) = true ->
    jsonCopy (betAmount (state c)) = betAmount (state c);
  sk_over :
    gameOver (state c) = true ->
    existsb isRevealed (tiles (state c)) = true }.

End DuelBooks.

Module DuelTally.
Import Duel.
(** Before the first move of a round without pre-placed mines the board
    is blank and nobody has scored. *)
Definition fresh_ok (s : GameState) : Prop :=
  minesPlaced s = false ->
  tiles s = map (fun id => mkTile id false false None) (seq 0 25)
  /\ playerScore s = 0%Z /\ opponentScore s = 0%Z.

(** Tiles sit at their own index, and while no winner is stored the two
    scores add up to the safe tiles revealed. *)
Definition tally_ok (s : GameState) : Prop :=
  map id (tiles s) = seq 0 25
  /\ (winner s = None ->
      (playerScore s + opponentScore s)%Z = safeRevealedCount (tiles s)).
End DuelTally.

Module DuelDemo.
Import Duel DuelAux.
(** From [duel3] the bot reveals the safe tile 5 and wins on points. *)
Definition duel4 : Component :=
  Eval vm_compute in accepted (makeBotMove cyclePRNG 0 duel3 4) duel0.
End DuelDemo.

Module Frozen.
(** The board [after] shows the layout of [before]: same ids, same bombs,
    and every tile that was revealed still is. *)
Definition same_layout {T} (id : T -> nat) (isBomb isRevealed : T -> bool)
    (before after : list T) : Prop :=
  map id after = map id before
  /\ map isBomb after = map isBomb before
  /\ (forall k t, before !! k = Some t -> isRevealed t = true ->
        exists t', after !! k = Some t' /\ isRevealed t' = true).
End Frozen.

Module Progress.
Import Duel.
(** How many tiles of the board are shown. *)
Definition revealedCount (ts : list Tile) : nat :=
  length (List.filter isRevealed ts).
End Progress.

(* ===================================================================== *)
(** * Properties *)
(* ===================================================================== *)

(** ** Test vectors *)

Section Vectors.
Local Open Scope string_scope.

Example sha_abc : Sha256.SHA256 "abc" =
  "ba7816bf8f01cfea414140de5dae2223b00361a396177a9cb410ff61f20015ad".
Proof. vm_compute. reflexivity. Qed.

Example sha_empty : Sha256.SHA256 "" =
  "e3b0c44298fc1c149afbf4c8996fb92427ae41e4649b934ca495991b7852b855".
Proof. vm_compute. reflexivity. Qed.

Example sha_two_blocks : Sha256.SHA256
  "abcdbcdecdefdefgefghfghighijhijkijkljklmklmnlmnomnopnopq" =
  "248d6a61d20638b8e5c026930c3e6039a33ce45964ff2167f6ecedd419db06c1".
Proof. vm_compute. reflexivity. Qed.

Example conformance_vector :
  Shuffle.generateBombLocations "abc" "def" (JS.Int 1) (JS.Int 5)
  = Some [20; 11; 2; 13; 19].
Proof. vm_compute. reflexivity. Qed.

Example parseInt16_samples :
  map JS.parseInt16 ["ff"; "0x1F"; "-a"; "12zz"; ""; "zz"; "0x"]
  = [JS.Int 255; JS.Int 31; JS.Int (-10); JS.Int 18; JS.NaN; JS.NaN; JS.NaN].
Proof. reflexivity. Qed.

Example exchange_sample : ShuffleSpec.exchange 1 3 [10; 11; 12; 13; 14]%nat
  = [10; 13; 12; 11; 14]%nat.
Proof. reflexivity. Qed.

End Vectors.

(** ** Enumeration over integer ranges *)

Section Ranges.
Local Open Scope Z_scope.

Lemma Zrange_In (lo : Z) (n : nat) (z : Z) :
  lo <= z < lo + Z.of_nat n -> In z (Zrange lo n).
Proof.
  intros Hz. unfold Zrange. apply in_map_iff.
  exists (Z.to_nat (z - lo)). split; [lia|].
  apply in_seq. lia.
Qed.

Lemma Zrange_forallb (P : Z -> bool) (lo : Z) (n : nat) :
  forallb P (Zrange lo n) = true ->
  forall z, lo <= z < lo + Z.of_nat n -> P z = true.
Proof.
  intros Hall z Hz. rewrite forallb_forall in Hall.
  apply Hall, Zrange_In, Hz.
Qed.

End Ranges.


(* ===================================================================== *)
(** ** Hexadecimal text and the shape of a digest *)
(* ===================================================================== *)

Section HexFacts.
Local Open Scope Z_scope.

Lemma value_digit (d : Z) : 0 <= d < 16 -> Hex.value (Hex.digit d) = Some d.
Proof.
  intros Hd.
  assert (Hall : forallb (fun d => match Hex.value (Hex.digit d) with
                                   | Some v => v =? d | None => false end)
                         (Zrange 0 16) = true) by (vm_compute; reflexivity).
  pose proof (Zrange_forallb _ _ _ Hall d ltac:(simpl; lia)) as H.
  cbv beta in H. destruct (Hex.value (Hex.digit d)); [|discriminate].
  f_equal. lia.
Qed.

Lemma all_hex_append (a b : string) :
  all_hex (a ++ b) = all_hex a && all_hex b.
Proof.
  induction a as [|c a IH]; simpl; [reflexivity|].
  destruct (Hex.value c); [exact IH | reflexivity].
Qed.

Lemma length_append (a b : string) :
  String.length (a ++ b) = (String.length a + String.length b)%nat.
Proof. induction a as [|c a IH]; simpl; [reflexivity | now rewrite IH]. Qed.

Lemma of_word_length (k : nat) (x : Z) : String.length (Hex.of_word k x) = k.
Proof. induction k as [|k IH]; simpl; [reflexivity | now rewrite IH]. Qed.

Lemma of_word_all_hex (k : nat) (x : Z) : all_hex (Hex.of_word k x) = true.
Proof.
  induction k as [|k IH]; simpl; [reflexivity|].
  rewrite value_digit; [exact IH|].
  apply Z.mod_pos_bound. lia.
Qed.

Lemma substring_all_hex (n m : nat) (s : string) :
  all_hex s = true -> all_hex (String.substring n m s) = true.
Proof.
  revert n m. induction s as [|c s IH]; intros n m Hs.
  - destruct n, m; reflexivity.
  - simpl in Hs. destruct (Hex.value c) eqn:Hc; [|discriminate].
    destruct n as [|n]; simpl.
    + destruct m as [|m]; simpl; [reflexivity|]. rewrite Hc. now apply IH.
    + now apply IH.
Qed.

Lemma substring_length (n m : nat) (s : string) :
  (n + m <= String.length s)%nat ->
  String.length (String.substring n m s) = m.
Proof.
  revert n m. induction s as [|c s IH]; intros n m Hlen; simpl in Hlen.
  - assert (n = O) by lia. assert (m = O) by lia. subst. reflexivity.
  - destruct n as [|n]; simpl.
    + destruct m as [|m]; simpl; [reflexivity|]. f_equal. apply IH. simpl. lia.
    + apply IH. lia.
Qed.

Lemma js_substring_in_range (s : string) (a b : nat) :
  (a <= b <= String.length s)%nat ->
  JS.substring s a b = String.substring a (b - a) s.
Proof.
  intros Hab. unfold JS.substring.
  replace (Nat.min a (String.length s)) with a by lia.
  replace (Nat.min b (String.length s)) with b by lia.
  replace (Nat.min a b) with a by lia.
  replace (Nat.max a b) with b by lia. reflexivity.
Qed.

Lemma hex_prefix_all_hex (s : string) (a : Z) :
  all_hex s = true ->
  JS.hex_prefix (Some a) s = Some (ShuffleSpec.hex_value_from a s).
Proof.
  revert a. induction s as [|c s IH]; intros a Hs; simpl; [reflexivity|].
  simpl in Hs. destruct (Hex.value c) as [d|]; [|discriminate].
  simpl. now apply IH.
Qed.

Lemma parseInt16_hex (s : string) :
  all_hex s = true -> s <> EmptyString ->
  JS.parseInt16 s = JS.Int (ShuffleSpec.uint32_of_hex s).
Proof.
  intros Hs Hne. destruct s as [|c s]; [congruence|]. clear Hne.
  simpl in Hs. destruct (Hex.value c) as [d|] eqn:Hc; [|discriminate].
  unfold JS.parseInt16.
  destruct (Ascii.eqb_spec c "-") as [->|_]; [discriminate Hc|].
  destruct (Ascii.eqb_spec c "+") as [->|_]; [discriminate Hc|].
  assert (Hs2 : match String c s with
                | String c0 (String c1 r) =>
                    if (c0 =? "0")%char && ((c1 =? "x")%char || (c1 =? "X")%char)
                    then r else String c s
                | _ => String c s
                end = String c s).
  { destruct s as [|c1 r]; [reflexivity|].
    simpl in Hs. destruct (Hex.value c1) eqn:Hc1; [|discriminate].
    destruct (Ascii.eqb_spec c1 "x") as [->|_]; [discriminate Hc1|].
    destruct (Ascii.eqb_spec c1 "X") as [->|_]; [discriminate Hc1|].
    now rewrite andb_false_r. }
  rewrite Hs2. simpl. rewrite Hc.
  rewrite hex_prefix_all_hex by exact Hs.
  unfold ShuffleSpec.uint32_of_hex. simpl. rewrite Hc. reflexivity.
Qed.

Lemma hex_value_from_bounds (s : string) (a : Z) :
  0 <= a ->
  a * 16 ^ Z.of_nat (String.length s) <= ShuffleSpec.hex_value_from a s
    < (a + 1) * 16 ^ Z.of_nat (String.length s).
Proof.
  revert a. induction s as [|c s IH]; intros a Ha.
  - simpl. lia.
  - cbn [ShuffleSpec.hex_value_from String.length].
    assert (Hd : 0 <= default 0 (Hex.value c) < 16).
    { unfold Hex.value. repeat case_match; simpl; lia. }
    specialize (IH (a * 16 + default 0 (Hex.value c)) ltac:(lia)).
    rewrite Nat2Z.inj_succ, Z.pow_succ_r by lia.
    nia.
Qed.

(** An 8-character segment denotes an unsigned 32-bit integer. *)
Lemma uint32_of_hex_range (seg : string) :
  String.length seg = 8%nat ->
  0 <= ShuffleSpec.uint32_of_hex seg < 2 ^ 32.
Proof.
  intros Hlen. unfold ShuffleSpec.uint32_of_hex.
  pose proof (hex_value_from_bounds seg 0 ltac:(lia)) as H.
  rewrite Hlen in H. change (16 ^ Z.of_nat 8) with (2 ^ 32) in H. lia.
Qed.

End HexFacts.

Section Sha256Shape.

Lemma compress_length (h block : list Z) :
  length h = 8%nat -> length (Sha256.compress h block) = 8%nat.
Proof.
  intros Hh. unfold Sha256.compress.
  rewrite length_map, length_combine, Hh. reflexivity.
Qed.

Lemma blocks_length (fuel : nat) (h ws : list Z) :
  length h = 8%nat -> length (Sha256.blocks fuel h ws) = 8%nat.
Proof.
  revert h ws. induction fuel as [|fuel IH]; intros h ws Hh; simpl.
  - exact Hh.
  - destruct ws; [exact Hh|]. apply IH, compress_length, Hh.
Qed.

Lemma hex_of_words_shape (ws : list Z) :
  String.length (Sha256.hex_of_words ws) = (8 * length ws)%nat
  /\ all_hex (Sha256.hex_of_words ws) = true.
Proof.
  induction ws as [|x ws [IHl IHh]]; [split; reflexivity|].
  cbn [Sha256.hex_of_words]. split.
  - rewrite length_append, of_word_length, IHl. simpl. lia.
  - rewrite all_hex_append, of_word_all_hex, IHh. reflexivity.
Qed.

(** Every digest is 64 hexadecimal characters. *)
Lemma SHA256_hex64 (s : string) : hex64 (Sha256.SHA256 s).
Proof.
  unfold hex64, Sha256.SHA256.
  destruct (hex_of_words_shape (Sha256.digest s)) as [Hl Hh].
  split; [|exact Hh].
  rewrite Hl. unfold Sha256.digest. rewrite blocks_length; reflexivity.
Qed.

End Sha256Shape.

(* ===================================================================== *)
(** ** Deterministic shuffle *)
(* ===================================================================== *)

Section ShuffleFacts.
Import JS Shuffle ShuffleSpec.

Lemma exchange_length (i j : nat) (p : list nat) :
  length (exchange i j p) = length p.
Proof. unfold exchange. now rewrite length_map, length_seq. Qed.

Lemma exchange_lookup (i j k : nat) (p : list nat) :
  (k < length p)%nat ->
  exchange i j p !! k =
    Some (nth (if Nat.eqb k i then j else if Nat.eqb k j then i else k) p O).
Proof.
  intros Hk. unfold exchange.
  rewrite list_lookup_fmap, lookup_seq_lt by exact Hk. reflexivity.
Qed.

(** On indices of the array the destructuring swap is the exchange of
    the two positions. *)
Lemma swap_exchange (tiles : list nat) (i j : nat) :
  (i < length tiles)%nat -> (j < length tiles)%nat ->
  swap tiles i (Int (Z.of_nat j)) = Some (exchange i j tiles).
Proof.
  intros Hi Hj. unfold swap.
  destruct (Z.ltb_spec (Z.of_nat j) 0) as [?|_]; [lia|].
  rewrite Nat2Z.id.
  destruct (lookup_lt_is_Some_2 tiles i Hi) as [ti Hti].
  destruct (lookup_lt_is_Some_2 tiles j Hj) as [tj Htj].
  rewrite Hti, Htj. f_equal.
  apply list_eq. intros k.
  destruct (Nat.lt_ge_cases k (length tiles)) as [Hk|Hk].
  - rewrite exchange_lookup by exact Hk.
    destruct (Nat.eqb_spec k j) as [->|Hkj].
    + rewrite list_lookup_insert_eq by (rewrite length_insert; exact Hj).
      destruct (Nat.eqb_spec j i) as [->|_].
      * rewrite (nth_lookup_Some _ _ _ _ Htj). congruence.
      * now rewrite (nth_lookup_Some _ _ _ _ Hti).
    + rewrite list_lookup_insert_ne by congruence.
      destruct (Nat.eqb_spec k i) as [->|Hki].
      * rewrite list_lookup_insert_eq by exact Hi.
        now rewrite (nth_lookup_Some _ _ _ _ Htj).
      * rewrite list_lookup_insert_ne by congruence.
        destruct (lookup_lt_is_Some_2 tiles k Hk) as [tk Htk].
        now rewrite (nth_lookup_Some _ _ _ _ Htk).
  - rewrite !lookup_ge_None_2; [reflexivity | | ].
    + now rewrite exchange_length.
    + now rewrite !length_insert.
Qed.

Lemma swap_Permutation (tiles tiles' : list nat) (i : nat) (j : number) :
  swap tiles i j = Some tiles' -> tiles' ≡ₚ tiles.
Proof.
  unfold swap. intros H. destruct j as [|z]; [discriminate|].
  destruct (z <? 0)%Z; [discriminate|].
  destruct (tiles !! Z.to_nat z) as [tj|] eqn:Hj; [|discriminate].
  destruct (tiles !! i) as [ti|] eqn:Hi; [|discriminate].
  injection H as <-. now apply Permutation_insert_swap.
Qed.

Lemma shuffleLoop_Permutation (i : nat) (tiles tiles' : list nat) (h : string) :
  shuffleLoop i tiles h = Some tiles' -> tiles' ≡ₚ tiles.
Proof.
  revert tiles h. induction i as [|i IH]; intros tiles h H.
  - injection H as <-. reflexivity.
  - cbn [shuffleLoop] in H.
    destruct (swap tiles (S i) _) as [t1|] eqn:Hswap; [|discriminate].
    rewrite (IH _ _ H). eapply swap_Permutation, Hswap.
Qed.

Lemma digest_at_shift (h : string) (k : nat) :
  digest_at (Sha256.SHA256 h) k = Sha256.SHA256 (digest_at h k).
Proof. induction k as [|k IH]; simpl; [reflexivity | now rewrite IH]. Qed.

Lemma digest_at_hex64 (h : string) (k : nat) :
  hex64 h -> hex64 (digest_at h k).
Proof. destruct k; simpl; [tauto | intros _; apply SHA256_hex64]. Qed.

Lemma fold_left_ext_In {A B} (f g : A -> B -> A) (l : list B) (a : A) :
  (forall x b, In b l -> f x b = g x b) ->
  fold_left f l a = fold_left g l a.
Proof.
  revert a. induction l as [|b l IH]; intros a Hfg; simpl; [reflexivity|].
  rewrite Hfg by (left; reflexivity). apply IH.
  intros x b' Hb'. apply Hfg. now right.
Qed.

(** What one pass of the loop body reads from the digest. *)
Lemma loop_partner (h : string) (i : nat) :
  hex64 h ->
  rem (parseInt16 (substring h ((i mod 8) * 8) ((i mod 8) * 8 + 8)))
      (Int (Z.of_nat (i + 1)))
  = Int (Z.of_nat (partner h i))
  /\ (partner h i <= i)%nat.
Proof.
  intros [Hlen Hhex].
  assert (Hm : (i mod 8 < 8)%nat) by (apply Nat.mod_upper_bound; lia).
  rewrite js_substring_in_range by lia.
  replace ((i mod 8) * 8 + 8 - (i mod 8) * 8)%nat with 8%nat by lia.
  fold (segment h i).
  assert (Hseg_hex : all_hex (segment h i) = true)
    by (apply substring_all_hex, Hhex).
  assert (Hseg_len : String.length (segment h i) = 8%nat)
    by (apply substring_length; lia).
  rewrite parseInt16_hex; [|exact Hseg_hex|].
  2:{ intros E. rewrite E in Hseg_len. discriminate. }
  pose proof (uint32_of_hex_range _ Hseg_len) as Hr.
  unfold rem, partner.
  destruct (Z.eqb_spec (Z.of_nat (i + 1)) 0) as [?|_]; [lia|].
  rewrite Z.rem_mod_nonneg by lia.
  replace (Z.of_nat (i + 1)) with (Z.of_nat i + 1)%Z by lia.
  pose proof (Z.mod_pos_bound (uint32_of_hex (segment h i)) (Z.of_nat i + 1)
                ltac:(lia)).
  split; [f_equal; lia | lia].
Qed.

(** The loop entered at [i] performs steps [i] down to 1, step [i'] on
    the digest advanced [i - i'] times. *)
Lemma shuffleLoop_steps (i : nat) (tiles : list nat) (h : string) :
  (i < length tiles)%nat -> hex64 h ->
  shuffleLoop i tiles h =
    Some (fold_left
            (fun p i' => exchange i' (partner (digest_at h (i - i')) i') p)
            (rev (seq 1 i)) tiles).
Proof.
  revert tiles h. induction i as [|i IH]; intros tiles h Hi Hh.
  - reflexivity.
  - cbn [shuffleLoop].
    destruct (loop_partner h (S i) Hh) as [Hj Hle]. rewrite Hj.
    rewrite swap_exchange by lia.
    rewrite IH; [|rewrite exchange_length; lia|apply SHA256_hex64].
    f_equal. rewrite seq_S, rev_app_distr. cbn [rev app fold_left].
    replace (1 + i)%nat with (S i) by lia.
    rewrite Nat.sub_diag. cbn [digest_at].
    apply fold_left_ext_In. intros p i' Hin.
    apply in_rev, in_seq in Hin.
    rewrite digest_at_shift.
    replace (S i - i')%nat with (S (i - i')) by lia. reflexivity.
Qed.

(** Whatever text the nonce prints as, the loop runs to its end and the
    array it leaves is a permutation of the tile indices. *)
Lemma shuffledTiles_runs (serverSeed clientSeed : string) (nonce : number) :
  exists perm,
    shuffledTiles serverSeed clientSeed nonce = Some perm
    /\ perm ≡ₚ seq 0 25.
Proof.
  unfold shuffledTiles.
  set (h := Sha256.SHA256 _).
  pose proof (shuffleLoop_steps (length (seq 0 25) - 1) (seq 0 25) h
                ltac:(simpl; lia) (SHA256_hex64 _)) as Hrun.
  eexists. split; [exact Hrun|].
  eapply shuffleLoop_Permutation, Hrun.
Qed.

(** Below 2^53 the template literal prints the plain decimal numeral. *)
Lemma toString_safe (nonce : Z) :
  (Z.abs nonce < 2 ^ 53)%Z -> toString (Int nonce) = decimal nonce.
Proof.
  intros H. unfold toString.
  destruct (Z.ltb_spec (Z.abs nonce) (2 ^ 53)); [reflexivity | lia].
Qed.

(** The loop, started on [digest0], computes the permutation of the
    specification. *)
Lemma shuffleLoop_digest0 (server_seed client_seed : string) (nonce : Z) :
  shuffleLoop 24 (seq 0 25) (digest0 server_seed client_seed nonce)
  = Some (shuffle server_seed client_seed nonce 25).
Proof.
  unfold shuffle, steps, digest0.
  rewrite shuffleLoop_steps; [reflexivity | simpl; lia | apply SHA256_hex64].
Qed.

Lemma shuffledTiles_spec (serverSeed clientSeed : string) (nonce : Z) :
  (Z.abs nonce < 2 ^ 53)%Z ->
  shuffledTiles serverSeed clientSeed (Int nonce)
  = Some (shuffle serverSeed clientSeed nonce 25).
Proof.
  intros Hsafe. rewrite <- shuffleLoop_digest0.
  unfold shuffledTiles, digest0.
  rewrite (toString_safe nonce Hsafe). reflexivity.
Qed.

Lemma not_string_false (s : string) : s <> EmptyString -> not_string s = false.
Proof. destruct s; [congruence | reflexivity]. Qed.

Lemma generateBombLocations_valid (serverSeed clientSeed : string) (nonce b : Z) :
  serverSeed <> EmptyString -> clientSeed <> EmptyString ->
  generateBombLocations serverSeed clientSeed (Int nonce) (Int b)
  = option_map (fun tiles => slice0 tiles b)
               (shuffledTiles serverSeed clientSeed (Int nonce)).
Proof.
  intros Hs Hc. unfold generateBombLocations.
  now rewrite (not_string_false _ Hs), (not_string_false _ Hc).
Qed.

Lemma slice0_take {A} (l : list A) (b : Z) :
  (0 <= b)%Z -> slice0 l b = take (Z.to_nat b) l.
Proof.
  intros Hb. unfold slice0.
  destruct (Z.ltb_spec b 0) as [?|_]; [lia|].
  destruct (Z.le_ge_cases b (Z.of_nat (length l))) as [Hle|Hge].
  - now rewrite Z.min_l by lia.
  - rewrite Z.min_r, Nat2Z.id by lia.
    rewrite !take_ge by lia. reflexivity.
Qed.

(** The loop never indexes outside the array: the outcome [None] of the
    model does not occur, whatever the arguments. *)
Lemma generateBombLocations_total
    (serverSeed clientSeed : string) (nonce bombCount : number) :
  exists bombs, generateBombLocations serverSeed clientSeed nonce bombCount
                = Some bombs.
Proof.
  unfold generateBombLocations.
  destruct (_ || _); [eauto|].
  destruct bombCount as [|b]; [eauto|].
  unfold shuffledTiles.
  rewrite shuffleLoop_steps; [simpl; eauto | simpl; lia | apply SHA256_hex64].
Qed.

(** C1: for non-empty seeds and an integer nonce, on the board of 25
    tiles, the array [generateBombLocations] shuffles is the permutation
    the specification describes: from [digest0], step [i] from 24 down to
    1 reads the 8 characters at offset [(i mod 8) * 8] of the current
    digest as an unsigned 32-bit integer [r], exchanges positions [i] and
    [r mod (i+1)], and rehashes the hexadecimal text of the digest.  The
    bombs returned are its first [bomb_count] entries; and every segment
    read is 8 characters that [parseInt] reads as a number below 2^32.
    The nonce is a safe integer, below 2^53 in absolute value: there the
    template literal that builds the combined seed prints the decimal
    numeral [digest0] hashes (past it the literal prints rounded digits,
    and the exponent form from 1e21, see [template_literal_past_2_53]). *)
Theorem generateBombLocations_follows_spec
    (server_seed client_seed : string) (nonce bomb_count : Z) :
  server_seed <> EmptyString -> client_seed <> EmptyString ->
  (Z.abs nonce < 2 ^ 53)%Z ->
  (0 <= bomb_count)%Z ->
  shuffledTiles server_seed client_seed (Int nonce)
    = Some (shuffle server_seed client_seed nonce 25)
  /\ generateBombLocations server_seed client_seed (Int nonce) (Int bomb_count)
    = Some (take (Z.to_nat bomb_count)
                 (shuffle server_seed client_seed nonce 25))
  /\ (forall k i,
        let d := digest_at (digest0 server_seed client_seed nonce) k in
        String.length (segment d i) = 8%nat
        /\ parseInt16 (segment d i) = Int (uint32_of_hex (segment d i))
        /\ (0 <= uint32_of_hex (segment d i) < 2 ^ 32)%Z).
Proof.
  intros Hs Hc Hsafe Hb. split; [apply shuffledTiles_spec, Hsafe|]. split.
  - rewrite generateBombLocations_valid, shuffledTiles_spec by assumption.
    simpl. now rewrite slice0_take.
  - intros k i d.
    destruct (digest_at_hex64 _ k (SHA256_hex64 _) : hex64 d) as [Hlen Hhex].
    assert (Hm : (i mod 8 < 8)%nat) by (apply Nat.mod_upper_bound; lia).
    assert (Hseg : String.length (segment d i) = 8%nat)
      by (apply substring_length; lia).
    split; [exact Hseg|]. split; [|now apply uint32_of_hex_range].
    apply parseInt16_hex; [apply substring_all_hex, Hhex|].
    intros E. rewrite E in Hseg. discriminate.
Qed.

Lemma generateBombLocations_follows_spec_witness :
  generateBombLocations "abc" "def" (Int 1) (Int 5)
  = Some (take 5 (shuffle "abc" "def" 1 25)).
Proof.
  apply (generateBombLocations_follows_spec "abc" "def" 1 5);
    [discriminate | discriminate | simpl; lia | lia].
Defined.

(** C5: for non-empty seeds, an integer nonce and a bomb count from 1 to
    24, the shuffled array is a permutation of 0..24 (no duplicates, and
    exactly the values below 25), and the bombs returned, its first
    [bomb_count] entries, are pairwise distinct tile indices below 25. *)
Theorem shuffle_is_bijection
    (server_seed client_seed : string) (nonce bomb_count : Z) :
  server_seed <> EmptyString -> client_seed <> EmptyString ->
  (1 <= bomb_count <= 24)%Z ->
  exists perm bombs : list nat,
    shuffledTiles server_seed client_seed (Int nonce) = Some perm
    /\ perm ≡ₚ seq 0 25
    /\ NoDup perm
    /\ (forall v, v ∈ perm <-> (v < 25)%nat)
    /\ generateBombLocations server_seed client_seed (Int nonce) (Int bomb_count)
       = Some bombs
    /\ bombs = take (Z.to_nat bomb_count) perm
    /\ length bombs = Z.to_nat bomb_count
    /\ NoDup bombs
    /\ (forall v, v ∈ bombs -> (v < 25)%nat).
Proof.
  intros Hs Hc Hb.
  destruct (shuffledTiles_runs server_seed client_seed (Int nonce))
    as (perm & Hrun & Hperm).
  assert (Hnd : NoDup perm) by (rewrite Hperm; apply NoDup_seq).
  assert (Hin : forall v, v ∈ perm <-> (v < 25)%nat).
  { intros v. rewrite Hperm, elem_of_seq. lia. }
  exists perm, (take (Z.to_nat bomb_count) perm).
  split; [exact Hrun|]. split; [exact Hperm|]. split; [exact Hnd|].
  split; [exact Hin|]. repeat split.
  - rewrite generateBombLocations_valid, Hrun by assumption.
    simpl. rewrite slice0_take by lia. reflexivity.
  - rewrite length_take, (Permutation_length Hperm), length_seq. lia.
  - eapply sublist_NoDup; [exact Hnd | apply sublist_take].
  - intros v Hv. apply Hin. eapply subseteq_take, Hv.
Qed.

Lemma shuffle_is_bijection_witness :
  exists perm bombs : list nat,
    shuffledTiles "abc" "def" (Int 1) = Some perm
    /\ perm ≡ₚ seq 0 25
    /\ NoDup perm
    /\ (forall v, v ∈ perm <-> (v < 25)%nat)
    /\ generateBombLocations "abc" "def" (Int 1) (Int 5) = Some bombs
    /\ bombs = take (Z.to_nat 5) perm
    /\ length bombs = Z.to_nat 5
    /\ NoDup bombs
    /\ (forall v, v ∈ bombs -> (v < 25)%nat).
Proof.
  apply (shuffle_is_bijection "abc" "def" 1 5);
    [discriminate | discriminate | lia].
Defined.

(** What the template literal prints past 2^53: rounded digits, then
    the exponent form from 1e21 on.  For nonce 1e21 the code returns the
    layout of the combined seed [abc-def-1e+21], not the one of the
    decimal numeral. *)
Example template_literal_past_2_53 :
  map (fun z => toString (Int z))
      [2 ^ 53 - 1; 2 ^ 53 + 1; 2 ^ 64; 10 ^ 21; - 2 ^ 70]%Z
  = ["9007199254740991"; "9007199254740992"; "18446744073709552000";
     "1e+21"; "-1.1805916207174113e+21"]%string
  /\ generateBombLocations "abc" "def" (Int (10 ^ 21)) (Int 5)
     = Some [21; 10; 20; 4; 9]
  /\ take 5 (shuffle "abc" "def" (10 ^ 21) 25) = [11; 5; 16; 18; 20].
Proof.
  split; [vm_compute; reflexivity|]. split; [vm_compute; reflexivity|].
  assert (L : shuffleLoop 24 (seq 0 25) (digest0 "abc" "def" (10 ^ 21))
              = Some [11; 5; 16; 18; 20; 13; 2; 0; 9; 10; 3; 14; 24; 17; 6;
                      22; 1; 4; 7; 15; 21; 12; 23; 8; 19])
    by (vm_compute; reflexivity).
  rewrite shuffleLoop_digest0 in L. apply (inj Some) in L.
  rewrite L. reflexivity.
Qed.

End ShuffleFacts.

(* ===================================================================== *)
(** ** Payout model *)
(* ===================================================================== *)

Section PayoutFacts.
Import Payout.
Local Open Scope Z_scope.

Lemma increasing_in_reveals_table :
  forallb (fun b => forallb (increasing_in_reveals b) (Zrange 0 25))
          (Zrange 1 24) = true.
Proof. vm_compute. reflexivity. Qed.

Lemma increasing_in_bombs_table :
  forallb (fun b => forallb (increasing_in_bombs b) (Zrange 0 25))
          (Zrange 1 23) = true.
Proof. vm_compute. reflexivity. Qed.

(** C8: with no safe tile revealed the loop body never runs, the chance
    is exactly 1 and the multiplier is exactly the house edge 0.99,
    whatever the bomb count. *)
Theorem multiplier_zero_is_house_edge (bombCount : Z) :
  chanceOf 0 bombCount = 1%float /\
  calculateMultiplier 0 bombCount = houseEdge /\
  houseEdge = 0.99%float.
Proof.
  unfold calculateMultiplier, chanceOf. simpl Z.to_nat. simpl chanceLoop.
  repeat split; vm_compute; reflexivity.
Qed.

(** C6, claim as stated, fails: with no safe tile revealed the multiplier
    of one bomb is not below the multiplier of two bombs (both are the
    house edge). *)
Lemma multiplier_not_increasing_in_bombs_at_zero :
  PrimFloat.ltb (calculateMultiplier 0 1) (calculateMultiplier 0 2) = false
  /\ calculateMultiplier 0 1 = calculateMultiplier 0 2.
Proof. split; vm_compute; reflexivity. Qed.

(** C6, amended: on a board of 25 tiles with [bombCount] in 1..24 and
    [safeRevealed] safe tiles revealed, fewer than there are, one more
    safe reveal strictly raises the multiplier; and when at least one
    safe tile is revealed and [bombCount + 1] is still at most 24, one
    more bomb strictly raises it too.  With no safe tile revealed the
    multiplier does not depend on the bomb count. *)
Theorem multiplier_strictly_increasing (safeRevealed bombCount : Z) :
  1 <= bombCount <= 24 ->
  0 <= safeRevealed ->
  safeRevealed + 1 <= 25 - bombCount ->
  PrimFloat.ltb (calculateMultiplier safeRevealed bombCount)
                (calculateMultiplier (safeRevealed + 1) bombCount) = true
  /\ (1 <= safeRevealed -> bombCount + 1 <= 24 ->
      PrimFloat.ltb (calculateMultiplier safeRevealed bombCount)
                    (calculateMultiplier safeRevealed (bombCount + 1)) = true)
  /\ calculateMultiplier 0 bombCount = calculateMultiplier 0 (bombCount + 1).
Proof.
  intros Hb Hk Hin. split; [|split].
  - pose proof (Zrange_forallb _ _ _ increasing_in_reveals_table bombCount) as Hrow.
    cbv beta in Hrow. specialize (Hrow ltac:(simpl; lia)).
    pose proof (Zrange_forallb _ _ _ Hrow safeRevealed ltac:(simpl; lia)) as Hcell.
    unfold increasing_in_reveals in Hcell.
    destruct (Z.leb_spec (safeRevealed + 1) (25 - bombCount)); [exact Hcell | lia].
  - intros Hk1 Hb1.
    pose proof (Zrange_forallb _ _ _ increasing_in_bombs_table bombCount) as Hrow.
    cbv beta in Hrow. specialize (Hrow ltac:(simpl; lia)).
    pose proof (Zrange_forallb _ _ _ Hrow safeRevealed ltac:(simpl; lia)) as Hcell.
    unfold increasing_in_bombs in Hcell.
    destruct (Z.leb_spec 1 safeRevealed); [|lia].
    destruct (Z.leb_spec safeRevealed (25 - (bombCount + 1))); [exact Hcell | lia].
  - reflexivity.
Qed.

Lemma multiplier_strictly_increasing_witness :
  PrimFloat.ltb (calculateMultiplier 3 5) (calculateMultiplier (3 + 1) 5) = true
  /\ PrimFloat.ltb (calculateMultiplier 3 5) (calculateMultiplier 3 (5 + 1)) = true.
Proof.
  destruct (multiplier_strictly_increasing 3 5) as (Hk & Hb & _); [lia | lia | lia |].
  split; [exact Hk | apply Hb; lia].
Defined.

End PayoutFacts.

(* ===================================================================== *)
(** ** Solo round *)
(* ===================================================================== *)

Section SoloFacts.
Import Solo SoloAux.
Local Open Scope Z_scope.

Lemma multiplier_nonzero_table :
  forallb (fun b => forallb (multiplier_nonzero b) (Zrange 1 25))
          (Zrange 1 24) = true.
Proof. vm_compute. reflexivity. Qed.

Lemma calculateMultiplier_nonzero (k b : Z) :
  1 <= b <= 24 -> 1 <= k <= 25 ->
  PrimFloat.eqb (Payout.calculateMultiplier k b) 0 = false.
Proof.
  intros Hb Hk.
  pose proof (Zrange_forallb _ _ _ multiplier_nonzero_table b) as Hrow.
  cbv beta in Hrow. specialize (Hrow ltac:(simpl; lia)).
  pose proof (Zrange_forallb _ _ _ Hrow k ltac:(simpl; lia)) as Hcell.
  unfold multiplier_nonzero in Hcell. now apply negb_true_iff in Hcell.
Qed.

Lemma GameStatus_eqb_eq (a b : GameStatus) :
  GameStatus_eqb a b = true <-> a = b.
Proof. destruct a, b; simpl; split; congruence. Qed.

Lemma wf_freshTiles (bomb : nat -> bool) : wf_tiles (freshTiles bomb).
Proof.
  unfold wf_tiles, freshTiles. rewrite map_map. reflexivity.
Qed.

Lemma wf_length (ts : list Tile) : wf_tiles ts -> length ts = 25%nat.
Proof. intros H. rewrite <- (length_map id), H. reflexivity. Qed.

Lemma wf_lookup_id (ts : list Tile) (k : nat) (t : Tile) :
  wf_tiles ts -> ts !! k = Some t -> id t = k.
Proof.
  intros Hwf Hk.
  assert (H : map id ts !! k = Some (id t)) by (rewrite list_lookup_fmap, Hk; reflexivity).
  rewrite Hwf in H. apply lookup_seq in H. lia.
Qed.

Lemma wf_lookup_unique (ts : list Tile) (k : nat) (t t' : Tile) :
  wf_tiles ts -> ts !! k = Some t -> In t' ts -> id t' = k -> t' = t.
Proof.
  intros Hwf Hk Hin Hid.
  apply list_elem_of_In, list_elem_of_lookup in Hin as [k' Hk'].
  pose proof (wf_lookup_id _ _ _ Hwf Hk') as E. congruence.
Qed.

Lemma wf_map (f : Tile -> Tile) (ts : list Tile) :
  (forall t, id (f t) = id t) -> wf_tiles ts -> wf_tiles (map f ts).
Proof.
  intros Hf Hwf. unfold wf_tiles. rewrite map_map.
  rewrite <- Hwf. apply map_ext, Hf.
Qed.

Lemma existsb_fmap {A B} (p : B -> bool) (f : A -> B) (l : list A) :
  existsb p (map f l) = existsb (fun x => p (f x)) l.
Proof. induction l as [|a l IH]; simpl; [reflexivity | now rewrite IH]. Qed.

Lemma existsb_pointwise {A} (p q : A -> bool) (l : list A) :
  (forall x, p x = q x) -> existsb p l = existsb q l.
Proof.
  intros Hpq. induction l as [|a l IH]; simpl; [reflexivity|].
  now rewrite Hpq, IH.
Qed.

Lemma isLoss_freshTiles (bomb : nat -> bool) : isLoss (freshTiles bomb) = false.
Proof.
  unfold isLoss, freshTiles. rewrite existsb_fmap.
  generalize (seq 0 25). intros l.
  induction l as [|i l IH]; simpl; [reflexivity|].
  now rewrite andb_false_r.
Qed.

Lemma revealedCount_freshTiles (bomb : nat -> bool) :
  revealedCount (freshTiles bomb) = 0.
Proof.
  unfold revealedCount, freshTiles.
  generalize (seq 0 25). intros l.
  induction l as [|i l IH]; simpl; [reflexivity | exact IH].
Qed.

(** Revealing every tile exposes a bomb exactly when there is one. *)
Lemma isLoss_reveal_all (ts : list Tile) :
  isLoss (map reveal ts) = existsb isBomb ts.
Proof.
  unfold isLoss. rewrite existsb_fmap. apply existsb_pointwise. intros t.
  simpl. apply andb_true_r.
Qed.

Lemma forallb_reveal_all (ts : list Tile) :
  forallb isRevealed (map reveal ts) = true.
Proof. induction ts as [|t ts IH]; simpl; [reflexivity | exact IH]. Qed.

Lemma revealOne_absent (tileId : nat) (ts : list Tile) :
  ~ In tileId (map id ts) -> map (revealOne tileId) ts = ts.
Proof.
  induction ts as [|t ts IH]; intros Hnot; simpl; [reflexivity|].
  simpl in Hnot. unfold revealOne at 1.
  destruct (Nat.eqb_spec (id t) tileId) as [E|_]; [tauto|].
  f_equal. apply IH. tauto.
Qed.

Lemma revealOne_count (tileId : nat) (ts : list Tile) (tile : Tile) :
  List.NoDup (map id ts) -> In tile ts -> id tile = tileId ->
  isRevealed tile = false ->
  length (List.filter isRevealed (map (revealOne tileId) ts))
  = S (length (List.filter isRevealed ts)).
Proof.
  induction ts as [|t ts IH]; intros Hnd Hin Hid Hrev; [destruct Hin|].
  simpl in Hnd. apply List.NoDup_cons_iff in Hnd as [Hnotin Hnd].
  cbn [map]. unfold revealOne at 1.
  destruct (Nat.eqb_spec (id t) tileId) as [E|NE].
  - rewrite revealOne_absent by (rewrite <- E; exact Hnotin).
    assert (tile = t) as ->.
    { destruct Hin as [->|Hin]; [reflexivity|].
      exfalso. apply Hnotin. rewrite E, <- Hid. now apply in_map. }
    simpl. now rewrite Hrev.
  - destruct Hin as [->|Hin]; [congruence|].
    simpl. destruct (isRevealed t); simpl; rewrite (IH Hnd Hin Hid Hrev); reflexivity.
Qed.

Lemma filter_length_lt {A} (p : A -> bool) (l : list A) (x : A) :
  In x l -> p x = false -> (length (List.filter p l) < length l)%nat.
Proof.
  induction l as [|a l IH]; intros Hin Hp; [destruct Hin|].
  pose proof (List.filter_length_le p l) as Hle.
  simpl. destruct Hin as [->|Hin].
  - rewrite Hp. lia.
  - specialize (IH Hin Hp). destruct (p a); simpl; lia.
Qed.

Lemma isLoss_revealOne (tileId : nat) (ts : list Tile) (tile : Tile) :
  wf_tiles ts -> ts !! tileId = Some tile -> isBomb tile = false ->
  isLoss ts = false -> isLoss (map (revealOne tileId) ts) = false.
Proof.
  intros Hwf Hk Hsafe Hno. unfold isLoss in *.
  apply not_true_is_false. intros H.
  apply existsb_exists in H as (t' & Hin' & Ht').
  apply in_map_iff in Hin' as (t & <- & Hin).
  unfold revealOne in Ht'.
  destruct (Nat.eqb_spec (id t) tileId) as [E|_].
  - rewrite (wf_lookup_unique _ _ _ _ Hwf Hk Hin E) in Ht'.
    simpl in Ht'. rewrite Hsafe in Ht'. discriminate.
  - assert (existsb (fun tile => isBomb tile && isRevealed tile) ts = true)
      by (apply existsb_exists; eauto).
    congruence.
Qed.

(** The reducer on an unrevealed bomb. *)
Lemma gameReducer_reveal_bomb (s : State) (tileId : nat) (tile : Tile) :
  tiles s !! tileId = Some tile ->
  isRevealed tile = false -> isBomb tile = true ->
  gameReducer s (REVEAL_TILE tileId)
  = Some (mkState finished (betAmount s) (bombCount s)
                  (map reveal (tiles s)) (currentMultiplier s)
                  (safeRevealed s)).
Proof. intros Hk Hr Hb. simpl. now rewrite Hk, Hr, Hb. Qed.

Lemma dispatch_invariant_prev st c a c' :
  dispatch st c a = Some c' ->
  prevGameState c' = gameState (state c')
  /\ gameReducer (state c) a = Some (state c').
Proof.
  unfold dispatch. destruct (gameReducer (state c) a) as [s'|]; [|discriminate].
  intros H. injection H as <-. simpl. auto.
Qed.

(** Reduce record projections only. *)
Tactic Notation "fields" :=
  cbn [gameState betAmount bombCount tiles currentMultiplier safeRevealed
       state prevGameState initialState].
Tactic Notation "fields" "in" hyp(H) :=
  cbn [gameState betAmount bombCount tiles currentMultiplier safeRevealed
       state prevGameState initialState] in H.

(** After a dispatch: read the new state off the reducer equation and
    re-establish the invariant field by field. *)
Ltac settle Hred Hprev :=
  let Hs := fresh "Hs" in
  injection Hred as Hs; rewrite <- Hs in Hprev; fields in Hprev;
  constructor; rewrite <- ?Hs; fields; auto.

Lemma solo_invariant_initial : invariant initialComponent.
Proof.
  constructor;
    [ reflexivity | apply (wf_freshTiles (fun _ => false)) | simpl; lia
    | reflexivity | discriminate ].
Qed.

Lemma solo_invariant_reveal st tileId c c' :
  (tileId < 25)%nat -> invariant c ->
  revealTile st tileId c = Some c' -> invariant c'.
Proof.
  intros Hid [Hprev Hwf Hb Hm Hplay]. unfold revealTile.
  destruct (GameStatus_eqb (gameState (state c)) playing) eqn:Hst; simpl.
  2:{ intros H. injection H as <-. now constructor. }
  apply GameStatus_eqb_eq in Hst. destruct (Hplay Hst) as [Hno Hcount].
  intros H. apply dispatch_invariant_prev in H as [Hprev' Hred].
  destruct (lookup_lt_is_Some_2 (tiles (state c)) tileId
              ltac:(rewrite (wf_length _ Hwf); exact Hid)) as [tile Hk].
  simpl in Hred. rewrite Hk in Hred.
  destruct (isRevealed tile) eqn:Hr.
  { settle Hred Hprev'. }
  destruct (isBomb tile) eqn:Hbomb.
  { settle Hred Hprev'.
    - apply wf_map; [reflexivity | exact Hwf].
    - discriminate. }
  assert (Hin : In tile (tiles (state c))).
  { apply list_elem_of_In. eapply list_elem_of_lookup_2, Hk. }
  assert (Hlt : (length (List.filter isRevealed (tiles (state c))) < 25)%nat).
  { rewrite <- (wf_length _ Hwf). eapply filter_length_lt; eauto. }
  assert (Hnz : PrimFloat.eqb
                  (Payout.calculateMultiplier (safeRevealed (state c) + 1)
                     (bombCount (state c))) 0 = false).
  { apply calculateMultiplier_nonzero; [exact Hb|].
    rewrite Hcount. unfold revealedCount. lia. }
  fold (revealOne tileId) in Hred.
  destruct (safeRevealed (state c) + 1 =? 25 - bombCount (state c)).
  - settle Hred Hprev'.
    + apply wf_map; [reflexivity|].
      apply wf_map; [|exact Hwf]. intros t. unfold revealOne.
      destruct (Nat.eqb (id t) tileId); reflexivity.
    + discriminate.
  - settle Hred Hprev'.
    + apply wf_map; [|exact Hwf]. intros t. unfold revealOne.
      destruct (Nat.eqb (id t) tileId); reflexivity.
    + intros _. split.
      * eapply isLoss_revealOne; eauto.
      * rewrite Hcount. unfold revealedCount.
        erewrite revealOne_count; eauto.
        -- lia.
        -- rewrite Hwf. apply seq_NoDup.
        -- eapply wf_lookup_id; eauto.
Qed.

Lemma solo_invariant_step c c' : invariant c -> step c c' -> invariant c'.
Proof.
  intros Hinv Hstep. pose proof Hinv as [Hprev Hwf Hb Hm Hplay].
  destruct Hstep as [st v c c' H | st v c c' Hv H | st seed c c' H
                    | st tileId c c' Hid H | st c c' H | st c c' H].
  - apply dispatch_invariant_prev in H as [Hprev' Hred].
    settle Hred Hprev'.
  - apply dispatch_invariant_prev in H as [Hprev' Hred].
    settle Hred Hprev'.
  - unfold initializeGame in H.
    destruct (PrimFloat.leb _ 0); [injection H as <-; exact Hinv|].
    destruct (Shuffle.generateBombLocations _ _ _ _) as [locs|]; [|discriminate].
    apply dispatch_invariant_prev in H as [Hprev' Hred].
    settle Hred Hprev'.
    + apply wf_freshTiles.
    + intros _. split; [apply isLoss_freshTiles|].
      symmetry. apply revealedCount_freshTiles.
  - eapply solo_invariant_reveal; eauto.
  - unfold cashOut in H.
    destruct (_ || _); [injection H as <-; exact Hinv|].
    apply dispatch_invariant_prev in H as [Hprev' Hred].
    settle Hred Hprev'.
    discriminate.
  - apply dispatch_invariant_prev in H as [Hprev' Hred].
    settle Hred Hprev'. apply wf_freshTiles.
Qed.

Lemma solo_reachable_invariant c : reachable c -> invariant c.
Proof.
  induction 1 as [|c c' _ IH Hstep]; [apply solo_invariant_initial|].
  eapply solo_invariant_step; eauto.
Qed.


Lemma isLoss_false_unrevealed (ts : list Tile) (t : Tile) :
  isLoss ts = false -> In t ts -> isBomb t = true -> isRevealed t = false.
Proof.
  intros Hno Hin Hb. apply not_true_is_false. intros Hr.
  assert (isLoss ts = true); [|congruence].
  apply existsb_exists. exists t. now rewrite Hb, Hr.
Qed.

Lemma lookup_In {A} (l : list A) (k : nat) (x : A) : l !! k = Some x -> In x l.
Proof. intros H. apply list_elem_of_In. eapply list_elem_of_lookup_2, H. Qed.

(** In a round in play no bomb has been revealed yet. *)
Lemma playing_bomb_unrevealed (c : Component) (tileId : nat) (tile : Tile) :
  reachable c -> gameState (state c) = playing ->
  tiles (state c) !! tileId = Some tile -> isBomb tile = true ->
  isRevealed tile = false.
Proof.
  intros Hreach Hplay Hk Hb.
  destruct (inv_play _ (solo_reachable_invariant _ Hreach) Hplay) as [Hno _].
  eapply isLoss_false_unrevealed; eauto using lookup_In.
Qed.

(** C7: in a round in play, revealing a bomb tile finishes the round with
    every tile revealed, and the settlement effect records a total loss:
    net profit minus the stake, multiplier 0, whatever was revealed
    before. *)
Theorem bomb_reveal_is_total_loss
    (st : Stats) (c : Component) (tileId : nat) (tile : Tile) :
  reachable c -> gameState (state c) = playing ->
  tiles (state c) !! tileId = Some tile -> isBomb tile = true ->
  exists c',
    revealTile st tileId c = Some c'
    /\ gameState (state c') = finished
    /\ tiles (state c') = map reveal (tiles (state c))
    /\ forallb isRevealed (tiles (state c')) = true
    /\ recorded c' =
         mkRecord (- betAmount (state c)) (betAmount (state c)) 0
                  (serverSeed c) (clientSeedOf st) (nonceOf st)
         :: recorded c.
Proof.
  intros Hreach Hplay Hk Hb.
  pose proof (playing_bomb_unrevealed _ _ _ Hreach Hplay Hk Hb) as Hr.
  pose proof (inv_prev _ (solo_reachable_invariant _ Hreach)) as Hprev.
  unfold revealTile, dispatch. rewrite Hplay. cbn [GameStatus_eqb negb].
  rewrite (gameReducer_reveal_bomb _ _ _ Hk Hr Hb).
  eexists. split; [reflexivity|].
  unfold settlementEffect, settlement. fields.
  rewrite Hprev, Hplay. cbn [GameStatus_eqb andb].
  fold (isLoss (map reveal (tiles (state c)))).
  rewrite isLoss_reveal_all.
  assert (Hex : existsb isBomb (tiles (state c)) = true).
  { apply existsb_exists. exists tile. eauto using lookup_In. }
  rewrite Hex. cbn [state recorded gameState tiles].
  repeat split. apply forallb_reveal_all.
Qed.

Lemma demoRound_reachable : reachable demoRound.
Proof.
  eapply reach_step; [apply reach_init|].
  apply (step_start demoStats "abc"). vm_compute. reflexivity.
Qed.

Lemma bomb_reveal_is_total_loss_witness :
  exists c',
    revealTile demoStats 20 demoRound = Some c'
    /\ gameState (state c') = finished
    /\ tiles (state c') = map reveal (tiles (state demoRound))
    /\ forallb isRevealed (tiles (state c')) = true
    /\ recorded c' =
         mkRecord (- betAmount (state demoRound)) (betAmount (state demoRound))
                  0 (serverSeed demoRound) (clientSeedOf demoStats)
                  (nonceOf demoStats)
         :: recorded demoRound.
Proof.
  apply (bomb_reveal_is_total_loss demoStats demoRound 20
           (mkTile 20 false true false));
    [apply demoRound_reachable | reflexivity | reflexivity | reflexivity].
Defined.

(** C10: in a round in play, the reducer's answer to the reveal of a bomb
    tile differs from the state before only in [gameState] (now
    [finished]) and [tiles] (all revealed); [safeRevealed],
    [currentMultiplier], [betAmount] and [bombCount] are as before, so
    the stored multiplier is the one from before the bust, which is not
    zero. *)
Theorem bomb_reveal_keeps_counters
    (c : Component) (tileId : nat) (tile : Tile) :
  reachable c -> gameState (state c) = playing ->
  tiles (state c) !! tileId = Some tile -> isBomb tile = true ->
  exists s',
    gameReducer (state c) (REVEAL_TILE tileId) = Some s'
    /\ gameState s' = finished
    /\ tiles s' = map reveal (tiles (state c))
    /\ safeRevealed s' = safeRevealed (state c)
    /\ currentMultiplier s' = currentMultiplier (state c)
    /\ betAmount s' = betAmount (state c)
    /\ bombCount s' = bombCount (state c)
    /\ PrimFloat.eqb (currentMultiplier s') 0 = false.
Proof.
  intros Hreach Hplay Hk Hb.
  pose proof (playing_bomb_unrevealed _ _ _ Hreach Hplay Hk Hb) as Hr.
  rewrite (gameReducer_reveal_bomb _ _ _ Hk Hr Hb).
  eexists. split; [reflexivity|]. fields.
  repeat split. apply (inv_mult _ (solo_reachable_invariant _ Hreach)).
Qed.

Lemma bomb_reveal_keeps_counters_witness :
  exists s',
    gameReducer (state demoRound) (REVEAL_TILE 20) = Some s'
    /\ gameState s' = finished
    /\ tiles s' = map reveal (tiles (state demoRound))
    /\ safeRevealed s' = safeRevealed (state demoRound)
    /\ currentMultiplier s' = currentMultiplier (state demoRound)
    /\ betAmount s' = betAmount (state demoRound)
    /\ bombCount s' = bombCount (state demoRound)
    /\ PrimFloat.eqb (currentMultiplier s') 0 = false.
Proof.
  apply (bomb_reveal_keeps_counters demoRound 20 (mkTile 20 false true false));
    [apply demoRound_reachable | reflexivity | reflexivity | reflexivity].
Defined.

(** The board-cleared path in general: when the last safe tile of a board
    that holds a bomb is revealed, the reducer finishes the round with
    the new multiplier, and the settlement effect, finding a revealed
    bomb, records a loss. *)
Lemma board_cleared_recorded_as_loss
    (st : Stats) (c : Component) (tileId : nat) (tile : Tile) :
  prevGameState c = playing -> gameState (state c) = playing ->
  tiles (state c) !! tileId = Some tile ->
  isRevealed tile = false -> isBomb tile = false ->
  safeRevealed (state c) + 1 = 25 - bombCount (state c) ->
  existsb isBomb (tiles (state c)) = true ->
  exists c',
    revealTile st tileId c = Some c'
    /\ gameState (state c') = finished
    /\ forallb isRevealed (tiles (state c')) = true
    /\ currentMultiplier (state c') =
         Payout.calculateMultiplier (safeRevealed (state c) + 1)
                                    (bombCount (state c))
    /\ recorded c' =
         mkRecord (- betAmount (state c)) (betAmount (state c)) 0
                  (serverSeed c) (clientSeedOf st) (nonceOf st)
         :: recorded c.
Proof.
  intros Hprev Hplay Hk Hr Hb Hall Hbomb.
  unfold revealTile, dispatch. rewrite Hplay. cbn [GameStatus_eqb negb].
  cbn [gameReducer]. rewrite Hk, Hr, Hb.
  apply Z.eqb_eq in Hall. rewrite Hall.
  eexists. split; [reflexivity|].
  unfold settlementEffect, settlement. fields.
  rewrite Hprev. cbn [GameStatus_eqb andb].
  match goal with |- context [existsb ?p (map reveal ?l)] =>
    change (existsb p (map reveal l)) with (isLoss (map reveal l)) end.
  rewrite isLoss_reveal_all, existsb_fmap.
  erewrite existsb_pointwise; [rewrite Hbomb|].
  2:{ intros t. destruct (Nat.eqb (id t) tileId); reflexivity. }
  cbn [state recorded gameState tiles currentMultiplier].
  repeat split. apply forallb_reveal_all.
Qed.

Lemma jackpotRound_reachable : reachable jackpotRound.
Proof.
  eapply reach_step; [eapply reach_step; [apply reach_init|]|].
  - apply (step_bombs demoStats 24); [lia | reflexivity].
  - apply (step_start demoStats "abc"). vm_compute. reflexivity.
Qed.

(** C2, at the failing input: a round of 24 bombs is in play with stake
    0.1 and tile 18 its only safe tile; revealing it finishes the round
    with every tile revealed and multiplier 24.75, yet the game handed to
    [addGame] is a loss of the stake with multiplier 0. *)
Theorem jackpot_reveal_recorded_as_loss :
  reachable jackpotRound
  /\ gameState (state jackpotRound) = playing
  /\ bombCount (state jackpotRound) = 24
  /\ tiles (state jackpotRound) !! 18%nat = Some (mkTile 18 false false false)
  /\ exists c',
       revealTile demoStats 18 jackpotRound = Some c'
       /\ gameState (state c') = finished
       /\ forallb isRevealed (tiles (state c')) = true
       /\ safeRevealed (state c') = 1
       /\ currentMultiplier (state c') = 24.75%float
       /\ recorded c' =
            [mkRecord (- 0.1)%float 0.1%float 0%float "abc" "def" (JS.Int 1)].
Proof.
  split; [apply jackpotRound_reachable|].
  repeat split.
  eexists. split; [vm_compute; reflexivity|].
  repeat split.
Qed.

(** Round creation always answers. *)
Lemma initializeGame_total (st : Stats) (newServerSeed : string)
    (c : Component) :
  exists c', initializeGame st newServerSeed c = Some c'.
Proof.
  unfold initializeGame. destruct (PrimFloat.leb _ 0); [eauto|].
  destruct (generateBombLocations_total newServerSeed (clientSeedOf st)
              (nonceOf st) (JS.Int (bombCount (state c)))) as [locs ->].
  unfold dispatch. cbn [gameReducer]. eauto.
Qed.

(** C4, claim as stated, fails: with a game counter that is not a number
    the layout comes back empty, and [initializeGame] starts the round
    all the same, on a board without a single bomb. *)
Lemma round_started_without_bombs :
  Shuffle.generateBombLocations "abc" (clientSeedOf nanStats)
    (nonceOf nanStats) (JS.Int (bombCount (state initialComponent)))
  = Some []
  /\ exists c',
       initializeGame nanStats "abc" initialComponent = Some c'
       /\ gameState (state c') = playing
       /\ bombCount (state c') = 5
       /\ existsb isBomb (tiles (state c')) = false.
Proof.
  split; [reflexivity|].
  eexists. split; [vm_compute; reflexivity|]. repeat split.
Qed.

Lemma existsb_isBomb_freshTiles :
  existsb isBomb (freshTiles (fun i => existsb (Nat.eqb i) [])) = false.
Proof. reflexivity. Qed.

(** C4, amended: when a seed is empty or the nonce or the bomb count is
    [NaN], [generateBombLocations] returns the empty array.  Round
    creation does not treat an empty layout as an error: with a positive
    stake [initializeGame] starts the round, [playing], on 25 unrevealed
    tiles none of which is a bomb, the configured bomb count unchanged. *)
Theorem empty_layout_starts_round
    (server_seed client_seed : string) (nonce bomb_count : JS.number)
    (st : Stats) (newServerSeed : string) (c : Component) :
  server_seed = EmptyString \/ client_seed = EmptyString
    \/ nonce = JS.NaN \/ bomb_count = JS.NaN ->
  Shuffle.generateBombLocations server_seed client_seed nonce bomb_count
    = Some []
  /\ (PrimFloat.leb (betAmount (state c)) 0 = false ->
      Shuffle.generateBombLocations newServerSeed (clientSeedOf st)
        (nonceOf st) (JS.Int (bombCount (state c))) = Some [] ->
      exists c',
        initializeGame st newServerSeed c = Some c'
        /\ gameState (state c') = playing
        /\ bombCount (state c') = bombCount (state c)
        /\ tiles (state c') = freshTiles (fun _ => false)
        /\ existsb isBomb (tiles (state c')) = false).
Proof.
  intros Hbad. split.
  - unfold Shuffle.generateBombLocations.
    destruct Hbad as [-> | [-> | [-> | ->]]]; cbn [JS.not_string JS.isNaN orb];
      rewrite ?orb_true_r; reflexivity.
  - intros Hstake Hempty. unfold initializeGame.
    rewrite Hstake, Hempty. unfold dispatch. cbn [gameReducer].
    eexists. split; [reflexivity|].
    unfold settlementEffect. fields. repeat split.
Qed.

Lemma empty_layout_starts_round_witness :
  Shuffle.generateBombLocations "" "def" (JS.Int 1) (JS.Int 5) = Some []
  /\ exists c',
       initializeGame nanStats "abc" initialComponent = Some c'
       /\ gameState (state c') = playing
       /\ bombCount (state c') = bombCount (state initialComponent)
       /\ tiles (state c') = freshTiles (fun _ => false)
       /\ existsb isBomb (tiles (state c')) = false.
Proof.
  destruct (empty_layout_starts_round "" "def" (JS.Int 1) (JS.Int 5)
              nanStats "abc" initialComponent) as [Hgen Hstart];
    [left; reflexivity|].
  split; [exact Hgen|]. apply Hstart; reflexivity.
Defined.

End SoloFacts.

(* ===================================================================== *)
(** ** Duel round *)
(* ===================================================================== *)

Section DuelFacts.
Import Duel DuelAux.
Variable seedrandom : string -> nat -> float.
Local Open Scope Z_scope.

Lemma Side_eqb_eq (a b : Side) : Side_eqb a b = true <-> a = b.
Proof. destruct a, b; simpl; split; congruence. Qed.

(** *** The game-over check *)

Lemma gameOverCheck_winner sd a pb ob ps os over w flip :
  gameOverCheck seedrandom sd a pb ob ps os = (over, Some w, flip) ->
  ps <> os.
Proof.
  unfold gameOverCheck. intros H.
  repeat match type of H with
         | context [if ?b then _ else _] => destruct b eqn:?
         end;
  simplify_eq; try lia;
  repeat match goal with
         | E : _ && _ = true |- _ => apply andb_prop in E as [? ?]
         end; lia.
Qed.

Lemma gameOverCheck_continue sd a pb ob ps os won flip :
  gameOverCheck seedrandom sd a pb ob ps os = (false, won, flip) ->
  a = false /\ pb && ob = false /\ won = None /\ flip = None.
Proof.
  unfold gameOverCheck. intros H.
  repeat match type of H with
         | context [if ?b then _ else _] => destruct b eqn:?
         end;
  simplify_eq; auto.
Qed.

Lemma gameOverCheck_pending sd a pb ob ps os flip :
  gameOverCheck seedrandom sd a pb ob ps os = (true, None, flip) ->
  flip = Some (coinFlipWinner seedrandom sd) /\ ps = os.
Proof.
  unfold gameOverCheck. intros H.
  repeat match type of H with
         | context [if ?b then _ else _] => destruct b eqn:?
         end;
  simplify_eq; split; auto; lia.
Qed.

Lemma gameOverCheck_flip sd a pb ob ps os over won w :
  gameOverCheck seedrandom sd a pb ob ps os = (over, won, Some w) ->
  over = true /\ won = None.
Proof.
  unfold gameOverCheck. intros H.
  repeat match type of H with
         | context [if ?b then _ else _] => destruct b eqn:?
         end;
  simplify_eq; auto.
Qed.

(** *** [processMove] *)

Lemma processMove_rejects fuel c tileId side :
  gameOver (state c) = true \/ hasHitBomb (state c) side = true
    \/ activeTurn (state c) <> side ->
  processMove seedrandom fuel c tileId side = Rejected.
Proof.
  intros H. unfold processMove.
  destruct (gameOver (state c)); [reflexivity|].
  destruct H as [H|[H|H]]; [discriminate| |].
  - destruct side; simpl in H; rewrite H; reflexivity.
  - destruct side, (activeTurn (state c)); try congruence; simpl;
      rewrite ?orb_true_r; reflexivity.
Qed.

Lemma processMove_Accepted_inv fuel c tileId side c' :
  processMove seedrandom fuel c tileId side = Accepted c' ->
  gameOver (state c) = false
  /\ hasHitBomb (state c) side = false
  /\ activeTurn (state c) = side
  /\ minesPlaced (state c') = true
  /\ bombCount (state c') = bombCount (state c)
  /\ gameSeed (state c') = gameSeed (state c)
  /\ (playerHasHitBomb (state c) = true -> playerHasHitBomb (state c') = true)
  /\ (opponentHasHitBomb (state c) = true ->
      opponentHasHitBomb (state c') = true)
  /\ exists tiles2 over won flip,
       gameOverCheck seedrandom (gameSeed (state c))
         (safeRevealedCount tiles2 =? 25 - bombCount (state c))
         (playerHasHitBomb (state c')) (opponentHasHitBomb (state c'))
         (playerScore (state c')) (opponentScore (state c'))
       = (over, won, flip)
       /\ gameOver (state c') = over
       /\ coinflip c' = match flip with
                        | Some w => mkCoinflip true (Some w)
                        | None => coinflip c
                        end
       /\ winner (state c') = match won with
                              | Some w => Some (Winner_of w)
                              | None => winner (state c)
                              end
       /\ tiles (state c') = match won with
                             | Some _ => revealAll tiles2
                             | None => tiles2
                             end.
Proof.
  unfold processMove. intros H.
  destruct (gameOver (state c)) eqn:Hover; [discriminate|].
  destruct (Side_eqb side player && _) eqn:Hp; [discriminate|].
  destruct (Side_eqb side opponent && _) eqn:Ho; [discriminate|].
  assert (Hside : hasHitBomb (state c) side = false
                  /\ activeTurn (state c) = side).
  { destruct side, (activeTurn (state c)); simpl in *;
      destruct (playerHasHitBomb (state c)), (opponentHasHitBomb (state c));
      simpl in *; try discriminate; auto. }
  destruct Hside as [Hbust Hturn].
  match type of H with
  | match ?placed with _ => _ end = _ => destruct placed as [tiles1|]
  end; [|discriminate].
  destruct (tiles1 !! tileId) as [tile0|]; [|discriminate].
  cbv zeta in H.
  match type of H with
  | context [gameOverCheck ?r ?sd ?a ?pb ?ob ?ps ?os] =>
      destruct (gameOverCheck r sd a pb ob ps os) as [[over won] flip] eqn:Hcheck
  end.
  assert (Hwon : over = false -> won = None).
  { intros ->. now apply gameOverCheck_continue in Hcheck. }
  split; [reflexivity|]. split; [exact Hbust|]. split; [exact Hturn|].
  destruct over; [destruct won as [w|]|rewrite (Hwon eq_refl) in *];
    injection H as <-; cbn [state coinflip minesPlaced bombCount gameSeed
      playerHasHitBomb opponentHasHitBomb playerScore opponentScore
      gameOver winner tiles];
    (repeat (split;
       [first [ reflexivity
              | intros Hq; rewrite Hq; repeat case_match; reflexivity ]|]));
    eexists _, _, _, _; (split; [exact Hcheck|]); repeat split.
Qed.

(** Once the mines are placed, a move on a tile of the board is either
    rejected or accepted: the placement loop is not entered and nothing
    is thrown. *)
Lemma processMove_total_when_placed fuel c tileId side :
  minesPlaced (state c) = true ->
  (tileId < length (tiles (state c)))%nat ->
  processMove seedrandom fuel c tileId side = Rejected
  \/ exists c', processMove seedrandom fuel c tileId side = Accepted c'.
Proof.
  intros Hplaced Hid. unfold processMove.
  destruct (gameOver (state c)); [now left|].
  destruct (Side_eqb side player && _); [now left|].
  destruct (Side_eqb side opponent && _); [now left|].
  rewrite Hplaced.
  destruct (lookup_lt_is_Some_2 _ _ Hid) as [tile0 ->].
  cbv zeta.
  match goal with
  | |- context [gameOverCheck ?r ?sd ?a ?pb ?ob ?ps ?os] =>
      destruct (gameOverCheck r sd a pb ob ps os) as [[over won] flip]
  end.
  right. destruct over; [destruct won|]; eauto.
Qed.

(** *** The invariant *)

Lemma duel_invariant_initial now settings :
  invariant (initialComponent seedrandom now settings).
Proof. constructor; simpl; [discriminate | reflexivity | discriminate]. Qed.

Lemma duel_invariant_processMove fuel c tileId side c' :
  invariant c ->
  processMove seedrandom fuel c tileId side = Accepted c' ->
  invariant c'.
Proof.
  intros [Hplaced Hpending Hshow] H.
  apply processMove_Accepted_inv in H
    as (Hover & _ & _ & Hmines & _ & _ & _ & _
        & tiles2 & over & won & flip & Hcheck & Hover' & Hflip & Hwin & _).
  constructor.
  - intros _. exact Hmines.
  - rewrite Hover'. intros ->.
    apply gameOverCheck_continue in Hcheck as (_ & _ & -> & _).
    rewrite Hwin. auto.
  - rewrite Hflip, Hover'. destruct flip as [w|].
    + intros _. now apply gameOverCheck_flip in Hcheck.
    + intros Hs. apply Hshow in Hs. congruence.
Qed.

Lemma turnEffect_cases (s : GameState) :
  turnEffect s = s \/ exists turn, turnEffect s = withTurn s turn.
Proof.
  unfold turnEffect, withTurn. cbv zeta beta.
  repeat case_match;
    first [left; reflexivity | right; eexists; unfold withTurn; reflexivity].
Qed.

(** A bot move is [processMove] for the opponent on some tile. *)
Lemma makeBotMove_processMove fuel c pick c' :
  makeBotMove seedrandom fuel c pick = Accepted c' ->
  exists tileId,
    processMove seedrandom fuel c tileId opponent = Accepted c'.
Proof.
  unfold makeBotMove. intros H. repeat case_match; try discriminate. eauto.
Qed.

(** What the settings effect installs over the state of the first
    render. *)
Lemma settingsEffect_installs st now seed cfg now0 settings0 c :
  settingsEffect seedrandom st now seed (Some cfg)
    (initialComponent seedrandom now0 settings0) = Some c ->
  playerHasHitBomb (state c) = false
  /\ opponentHasHitBomb (state c) = false
  /\ existsb isRevealed (tiles (state c)) = false.
Proof.
  unfold settingsEffect.
  replace (minesPlaced (state (initialComponent seedrandom now0 settings0))
           || existsb isRevealed
                (tiles (state (initialComponent seedrandom now0 settings0)))
           || gameOver (state (initialComponent seedrandom now0 settings0)))
    with false by reflexivity.
  destruct (Shuffle.generateBombLocations _ _ _ _) as [locs|];
    [|discriminate].
  intros H. injection H as <-.
  cbn [state playerHasHitBomb opponentHasHitBomb tiles].
  split; [reflexivity|]. split; [reflexivity|].
  generalize (seq 0 25). intros l.
  induction l as [|i l IH]; [reflexivity | exact IH].
Qed.

Lemma duel_invariant_step c c' :
  invariant c -> step seedrandom c c' -> invariant c'.
Proof.
  intros Hinv Hstep. pose proof Hinv as [Hplaced Hpending Hshow].
  destruct Hstep as [fuel tileId c c' H | fuel pick c c' H
                    | fuel pick st now0 settings0 now seed cfg c c' _ _ _ H
                    | c | w c Hs | st now seed settings c c' H].
  - unfold handleTileClick in H. repeat case_match; try discriminate.
    eapply duel_invariant_processMove; eauto.
  - unfold makeBotMove in H. repeat case_match; try discriminate.
    eapply duel_invariant_processMove; eauto.
  - apply makeBotMove_processMove in H as [tileId H].
    eapply duel_invariant_processMove; [apply duel_invariant_initial|exact H].
  - destruct (turnEffect_cases (state c)) as [E|[turn E]]; rewrite E;
      constructor; auto.
  - constructor; cbn; auto. intros Hover.
    rewrite (Hshow Hs) in Hover. discriminate.
  - unfold settingsEffect in H.
    destruct settings as [cfg|]; [|injection H as <-; exact Hinv].
    destruct (_ || _) eqn:Hgate; [injection H as <-; exact Hinv|].
    destruct (Shuffle.generateBombLocations _ _ _ _); [|discriminate].
    injection H as <-. constructor; cbn; auto.
    intros Hs. apply Hshow in Hs.
    rewrite Hs, orb_true_r in Hgate. discriminate.
Qed.

Lemma duel_reachable_invariant c : reachable seedrandom c -> invariant c.
Proof.
  induction 1 as [|c c' _ IH Hstep]; [apply duel_invariant_initial|].
  eapply duel_invariant_step; eauto.
Qed.

(** *** Bust flags never clear *)

Lemma hasHitBomb_step c c' side :
  invariant c -> step seedrandom c c' ->
  hasHitBomb (state c) side = true -> hasHitBomb (state c') side = true.
Proof.
  intros [Hplaced _ _] Hstep Hbust.
  assert (Hmove : forall fuel tileId who,
             processMove seedrandom fuel c tileId who = Accepted c' ->
             hasHitBomb (state c') side = true).
  { intros fuel tileId who H.
    apply processMove_Accepted_inv in H
      as (_ & _ & _ & _ & _ & _ & Hp & Ho & _).
    destruct side; simpl in *; auto. }
  destruct Hstep as [fuel tileId c c' H | fuel pick c c' H
                    | fuel pick st now0 settings0 now seed cfg c c' _ Hset _ _
                    | c | w c Hs | st now seed settings c c' H].
  - unfold handleTileClick in H. repeat case_match; try discriminate. eauto.
  - unfold makeBotMove in H. repeat case_match; try discriminate. eauto.
  - apply settingsEffect_installs in Hset as (Hp & Ho & _).
    destruct side; simpl in Hbust; congruence.
  - destruct (turnEffect_cases (state c)) as [E|[turn E]]; cbn [state];
      rewrite E; destruct side; exact Hbust.
  - destruct side; exact Hbust.
  - unfold settingsEffect in H.
    destruct settings as [cfg|]; [|injection H as <-; exact Hbust].
    assert (Hm : minesPlaced (state c) = true).
    { apply Hplaced. destruct side; simpl in Hbust; rewrite Hbust;
        rewrite ?orb_true_r; reflexivity. }
    rewrite Hm in H. simpl in H. injection H as <-. exact Hbust.
Qed.

Lemma hasHitBomb_steps c c' side :
  invariant c -> rtc (step seedrandom) c c' ->
  hasHitBomb (state c) side = true ->
  invariant c' /\ hasHitBomb (state c') side = true.
Proof.
  intros Hinv Hsteps. revert Hinv.
  induction Hsteps as [c|c c1 c' Hstep _ IH]; intros Hinv Hbust; [auto|].
  apply IH; [eapply duel_invariant_step | eapply hasHitBomb_step]; eauto.
Qed.

Lemma turnEffect_skips (s : GameState) (side : Side) :
  gameOver s = false -> activeTurn s = side -> hasHitBomb s side = true ->
  turnEffect s = withTurn s (other side).
Proof.
  intros Hover Hturn Hbust. unfold turnEffect, withTurn. cbv zeta beta.
  rewrite Hover, Hturn. destruct side; simpl in Hbust; rewrite Hbust.
  - reflexivity.
  - simpl. reflexivity.
Qed.

(** C9: in every reachable state of a duel, [processMove] returns at
    once, setting nothing, when the round is over, when the side that
    moves has hit a bomb, or when it is not that side's turn.  Once a
    side has hit a bomb its flag stays set whatever happens next in the
    round, so each of its later moves is rejected.  And in any state of
    a round not yet over where the turn stands on a side that has hit a
    bomb, the turn effect hands the turn to the other side and changes
    nothing else: no tile, no score, no flag. *)
Theorem turn_contract (c : Component) (side : Side) (s : GameState) :
  reachable seedrandom c ->
  (forall fuel tileId,
      gameOver (state c) = true \/ hasHitBomb (state c) side = true
        \/ activeTurn (state c) <> side ->
      processMove seedrandom fuel c tileId side = Rejected)
  /\ (hasHitBomb (state c) side = true ->
      forall c', rtc (step seedrandom) c c' ->
        hasHitBomb (state c') side = true
        /\ forall fuel tileId,
             processMove seedrandom fuel c' tileId side = Rejected)
  /\ (gameOver s = false -> activeTurn s = side ->
      hasHitBomb s side = true ->
      turnEffect s = withTurn s (other side)).
Proof.
  intros Hreach. split; [|split].
  - intros fuel tileId. apply processMove_rejects.
  - intros Hbust c' Hsteps.
    destruct (hasHitBomb_steps c c' side (duel_reachable_invariant _ Hreach)
                Hsteps Hbust) as [_ Hbust'].
    split; [exact Hbust'|].
    intros fuel tileId. apply processMove_rejects. auto.
  - apply turnEffect_skips.
Qed.

(** C3, amended: when an accepted move leaves the scores equal with both
    sides busted or every safe tile revealed, the round is over with no
    winner yet and the coinflip is shown; its winner is the player when
    the first value of the seedrandom generator seeded with the game
    seed followed by "tie" is below 0.5, the opponent otherwise.
    Completing the coinflip stores exactly that one side as the winner:
    never a tie, never nothing, and the round stays over. *)
Theorem tie_enters_coinflip
    (fuel : nat) (c : Component) (tileId : nat) (side : Side)
    (c' : Component) :
  reachable seedrandom c ->
  processMove seedrandom fuel c tileId side = Accepted c' ->
  playerScore (state c') = opponentScore (state c') ->
  (playerHasHitBomb (state c') = true /\ opponentHasHitBomb (state c') = true)
    \/ safeRevealedCount (tiles (state c')) = 25 - bombCount (state c') ->
  gameOver (state c') = true
  /\ winner (state c') = None
  /\ coinflip c' =
       mkCoinflip true
         (Some (if PrimFloat.ltb
                     (seedrandom (gameSeed (state c) ++ "tie") 0) 0.5
                then player else opponent))
  /\ forall w,
       cfWinner (coinflip c') = Some w ->
       let c'' := handleCoinflipComplete w c' in
       winner (state c'') = Some (Winner_of w)
       /\ Winner_of w <> WinTie
       /\ gameOver (state c'') = true
       /\ show (coinflip c'') = false.
Proof.
  intros Hreach H Heq Hend.
  pose proof (inv_pending _ (duel_reachable_invariant _ Hreach)) as Hpending.
  apply processMove_Accepted_inv in H
    as (Hover & _ & _ & _ & Hb & _ & _ & _
        & tiles2 & over & won & flip & Hcheck & Hover' & Hflip & Hwin & Htiles).
  destruct won as [w|].
  { apply gameOverCheck_winner in Hcheck. contradiction. }
  rewrite Htiles, Hb in Hend.
  destruct over.
  - apply gameOverCheck_pending in Hcheck as [-> _].
    rewrite Hover', Hwin, Hflip, (Hpending Hover).
    repeat split; [destruct w; discriminate | exact Hover'].
  - apply gameOverCheck_continue in Hcheck as (Hall & Hboth & _).
    exfalso. destruct Hend as [[Hp Ho]|Hall'].
    + rewrite Hp, Ho in Hboth. discriminate.
    + apply Z.eqb_neq in Hall. contradiction.
Qed.

End DuelFacts.

Section DuelVectors.
Import Duel DuelAux.
Local Open Scope Z_scope.

Example duel3_state :
  state duel3
  = mkState (tiles (state duel3)) opponent 1 1 true false false None true
            0.01%float 3 "1700000000000" "" "" (JS.Int 0)
  /\ map id (List.filter isBomb (tiles (state duel3))) = [0; 1; 2]%nat
  /\ map id (List.filter isRevealed (tiles (state duel3))) = [0; 23; 24]%nat.
Proof. repeat split. Qed.

Lemma duel3_reachable : reachable cyclePRNG duel3.
Proof.
  eapply reach_step; [eapply reach_step; [eapply reach_step|]|].
  - apply (reach_init cyclePRNG "1700000000000" None).
  - apply (step_click cyclePRNG 10 24). vm_compute. reflexivity.
  - apply (step_bot cyclePRNG 0 23). vm_compute. reflexivity.
  - apply (step_click cyclePRNG 0 0). vm_compute. reflexivity.
Qed.

Lemma tie_enters_coinflip_witness :
  exists c',
    makeBotMove cyclePRNG 0 duel3 0 = Accepted c'
    /\ gameOver (state c') = true
    /\ winner (state c') = None
    /\ coinflip c' = mkCoinflip true (Some player)
    /\ winner (state (handleCoinflipComplete player c')) = Some WinPlayer.
Proof.
  eexists. split; [vm_compute; reflexivity|].
  match goal with |- context [gameOver (state ?c)] => set (c' := c) end.
  destruct (tie_enters_coinflip cyclePRNG 0 duel3 1 opponent c')
    as (Hover & Hwin & Hflip & Hdone);
    [apply duel3_reachable | vm_compute; reflexivity | reflexivity
    | left; split; reflexivity |].
  split; [exact Hover|]. split; [exact Hwin|]. split; [exact Hflip|].
  apply (Hdone player). reflexivity.
Defined.

Lemma turn_contract_witness :
  processMove cyclePRNG 0 duel3 5 player = Rejected
  /\ (forall c', rtc (step cyclePRNG) duel3 c' ->
        hasHitBomb (state c') player = true
        /\ forall fuel tileId,
             processMove cyclePRNG fuel c' tileId player = Rejected)
  /\ turnEffect skipState = withTurn skipState opponent.
Proof.
  destruct (turn_contract cyclePRNG duel3 player skipState duel3_reachable)
    as (Hrej & Hrest & Hskip).
  split; [apply Hrej; right; left; reflexivity|].
  split; [apply Hrest; reflexivity|].
  apply Hskip; reflexivity.
Defined.

(** C3, claim as stated, fails: in one and the same round, with one and
    the same game seed, the tie-break names the player under a generator
    that draws 0.25 and the opponent under one that draws 0.75, so the
    winner follows the seedrandom draw; the coin read off
    SHA256(game seed || "tie") names the opponent, which the first run
    contradicts. *)
Lemma tie_break_follows_prng_not_sha256 :
  (exists c',
     processMove lowPRNG 0 duel3 1 opponent = Accepted c'
     /\ coinflip c' = mkCoinflip true (Some player)
     /\ cfWinner (coinflip c')
        <> Some (sha256_tie_coin (gameSeed (state duel3))))
  /\ (exists c',
        processMove highPRNG 0 duel3 1 opponent = Accepted c'
        /\ coinflip c' = mkCoinflip true (Some opponent)).
Proof.
  split; eexists; (split; [vm_compute; reflexivity|]).
  - split; [reflexivity|]. vm_compute. discriminate.
  - reflexivity.
Qed.

(** The JSON copy at the start of [processMove]: a stake that is no
    finite number comes back as [null], [-0] as [0]. *)
Example jsonCopy_samples :
  map jsonCopy [Num nan; Num infinity; Num neg_infinity; Num (-0)%float;
                Num 0.01; Null]
  = [Null; Null; Null; Num 0; Num 0.01; Null]
  /\ negate Null = (-0)%float
  /\ (-0)%float <> 0%float.
Proof.
  split; [reflexivity|]. split; [reflexivity|].
  intros E. apply (f_equal (fun x => PrimFloat.ltb (1 / x) 0)%float) in E.
  vm_compute in E. discriminate.
Qed.

(** The bot timer of the first render.  The opponent starts, under a
    generator that always draws 0.75, both in the state of the first
    render and in the state the settings effect installs; the bot's move
    is then made on the first render's state and replaces the installed
    round: the bomb moves from tile 20 to tile 18, and the seeds and the
    nonce of the installed round are gone. *)
Example stale_bot_move_replaces_layout :
  let cfg := mkSettings 1 0.01 in
  let first := initialComponent highPRNG "1700000000000" (Some cfg) in
  exists installed moved,
    settingsEffect highPRNG (mkStats (Some "def"%string) (JS.Int 0))
      "1700000000001" "abc" (Some cfg) first = Some installed
    /\ step highPRNG installed moved
    /\ map id (List.filter isBomb (tiles (state installed))) = [20]%nat
    /\ map id (List.filter isBomb (tiles (state moved))) = [18]%nat
    /\ (serverSeed (state installed), clientSeed (state installed),
        nonce (state installed)) = ("abc", "def", JS.Int 1)%string
    /\ (serverSeed (state moved), clientSeed (state moved),
        nonce (state moved)) = ("", "", JS.Int 0)%string.
Proof.
  cbv zeta. eexists. eexists.
  split; [vm_compute; reflexivity|].
  split.
  - eapply (step_bot_stale highPRNG 10 0
              (mkStats (Some "def"%string) (JS.Int 0))
              "1700000000000" (Some (mkSettings 1 0.01))
              "1700000000001" "abc" (mkSettings 1 0.01)).
    + reflexivity.
    + vm_compute. reflexivity.
    + reflexivity.
    + vm_compute. reflexivity.
  - vm_compute. repeat split.
Qed.

End DuelVectors.

(* ===================================================================== *)
(** * Further properties of the code *)
(* ===================================================================== *)

(** ** Bomb layout, payout and on-chain nonce *)

Section MoreShuffle.
Import JS Shuffle ShuffleSpec.
Local Open Scope Z_scope.

Lemma Zrange_Forall (P : Z -> Prop) (lo : Z) (n : nat) :
  Forall P (Zrange lo n) -> forall z, lo <= z < lo + Z.of_nat n -> P z.
Proof.
  intros Hall z Hz. rewrite Forall_forall in Hall.
  apply Hall, list_elem_of_In, Zrange_In, Hz.
Qed.

Lemma slice0_length {A} (l : list A) (b : Z) :
  Z.of_nat (length (slice0 l b))
  = if b <? 0 then Z.max (Z.of_nat (length l) + b) 0
    else Z.min b (Z.of_nat (length l)).
Proof.
  unfold slice0. rewrite length_take.
  destruct (Z.ltb_spec b 0); lia.
Qed.

Lemma slice0_of_board (perm : list nat) (b : Z) :
  perm ≡ₚ seq 0 25 ->
  NoDup (slice0 perm b)
  /\ (forall v, v ∈ slice0 perm b -> (v < 25)%nat)
  /\ Z.of_nat (length (slice0 perm b))
     = if b <? 0 then Z.max (25 + b) 0 else Z.min b 25.
Proof.
  intros Hperm.
  assert (Hsub : slice0 perm b `sublist_of` perm) by apply sublist_take.
  split; [|split].
  - eapply sublist_NoDup; [|exact Hsub]. rewrite Hperm. apply NoDup_seq.
  - intros v Hv. apply (subseteq_take _ perm) in Hv.
    rewrite Hperm in Hv. apply elem_of_seq in Hv. lia.
  - rewrite slice0_length, (Permutation_length Hperm), length_seq. reflexivity.
Qed.

Lemma generateBombLocations_slice
    (serverSeed clientSeed : string) (nonce : Z) :
  serverSeed <> EmptyString -> clientSeed <> EmptyString ->
  exists perm,
    perm ≡ₚ seq 0 25
    /\ forall bombCount,
         generateBombLocations serverSeed clientSeed (Int nonce)
           (Int bombCount) = Some (slice0 perm bombCount).
Proof.
  intros Hs Hc.
  destruct (shuffledTiles_runs serverSeed clientSeed (Int nonce))
    as (perm & Hrun & Hperm).
  exists perm. split; [exact Hperm|].
  intros bombCount.
  rewrite generateBombLocations_valid, Hrun by assumption. reflexivity.
Qed.

(** X1: for non-empty seeds [generateBombLocations] returns, for every
    integer bomb count, a duplicate-free list of tile ids below 25; its
    length is the count clamped to 25, and for a negative count
    [slice(0, bombCount)] drops that many ids from the end instead, so
    [25 + bombCount] ids come back (none once the count reaches -25). *)
Theorem bomb_locations_count
    (serverSeed clientSeed : string) (nonce bombCount : Z) :
  serverSeed <> EmptyString -> clientSeed <> EmptyString ->
  exists bombs,
    generateBombLocations serverSeed clientSeed (Int nonce) (Int bombCount)
      = Some bombs
    /\ NoDup bombs
    /\ (forall v, v ∈ bombs -> (v < 25)%nat)
    /\ Z.of_nat (length bombs)
       = if bombCount <? 0 then Z.max (25 + bombCount) 0
         else Z.min bombCount 25.
Proof.
  intros Hs Hc.
  destruct (generateBombLocations_slice serverSeed clientSeed nonce Hs Hc)
    as (perm & Hperm & Hrun).
  exists (slice0 perm bombCount). split; [apply Hrun|].
  apply slice0_of_board, Hperm.
Qed.

Lemma bomb_locations_count_witness :
  exists bombs,
    generateBombLocations "abc" "def" (Int 1) (Int (-1)) = Some bombs
    /\ NoDup bombs
    /\ (forall v, v ∈ bombs -> (v < 25)%nat)
    /\ Z.of_nat (length bombs) = 24.
Proof.
  apply (bomb_locations_count "abc" "def" 1 (-1)); discriminate.
Defined.

End MoreShuffle.

Section MorePayout.
Import Payout PayoutExact.
Local Open Scope Z_scope.

Lemma accurate_table :
  forallb (fun b => forallb (accurate b) (Zrange 0 25)) (Zrange 1 24) = true.
Proof. vm_compute. reflexivity. Qed.

Lemma finite_above_edge_table :
  forallb (fun b => forallb (finite_above_edge b) (Zrange 0 25)) (Zrange 1 24)
  = true.
Proof. vm_compute. reflexivity. Qed.

(** X2: for every bomb count the slider allows and every number of safe
    reveals the board can hold, the double [calculateMultiplier] returns is
    finite and within a relative error of 2^-50 of the exact rational
    0.99 / prod_i (25 - bombCount - i) / (25 - i). *)
Theorem multiplier_accuracy (safeRevealed bombCount : Z) :
  1 <= bombCount <= 24 -> 0 <= safeRevealed <= 25 - bombCount ->
  exists q,
    float_to_Q (calculateMultiplier safeRevealed bombCount) = Some q
    /\ (Qabs (q - multiplierExact safeRevealed bombCount)
        <= multiplierExact safeRevealed bombCount * (1 # Pos.pow 2 50))%Q.
Proof.
  intros Hb Hk.
  pose proof (Zrange_forallb _ _ _ accurate_table bombCount) as Hrow.
  cbv beta in Hrow. specialize (Hrow ltac:(simpl; lia)).
  pose proof (Zrange_forallb _ _ _ Hrow safeRevealed ltac:(simpl; lia)) as Hcell.
  unfold accurate in Hcell.
  destruct (Z.leb_spec safeRevealed (25 - bombCount)); [|lia].
  destruct (float_to_Q _) as [q|]; [|discriminate].
  exists q. split; [reflexivity|]. now apply Qle_bool_iff.
Qed.

Lemma multiplier_accuracy_witness :
  exists q,
    float_to_Q (calculateMultiplier 3 5) = Some q
    /\ (Qabs (q - multiplierExact 3 5)
        <= multiplierExact 3 5 * (1 # Pos.pow 2 50))%Q.
Proof. apply (multiplier_accuracy 3 5); lia. Defined.

Lemma finite_above_edge_cell (safeRevealed bombCount : Z) :
  1 <= bombCount <= 24 -> 0 <= safeRevealed <= 25 - bombCount ->
  finite_above_edge bombCount safeRevealed = true.
Proof.
  intros Hb Hk.
  pose proof (Zrange_forallb _ _ _ finite_above_edge_table bombCount) as Hrow.
  cbv beta in Hrow. specialize (Hrow ltac:(simpl; lia)).
  apply (Zrange_forallb _ _ _ Hrow safeRevealed). simpl. lia.
Qed.

(** X3: in the same range the multiplier is never [NaN] or infinite and
    never below the house edge 0.99, so a cash-out always pays a finite
    amount of at least 99% of the stake. *)
Theorem multiplier_finite_in_range (safeRevealed bombCount : Z) :
  1 <= bombCount <= 24 -> 0 <= safeRevealed <= 25 - bombCount ->
  PrimFloat.leb houseEdge (calculateMultiplier safeRevealed bombCount) = true
  /\ PrimFloat.ltb (calculateMultiplier safeRevealed bombCount) infinity = true.
Proof.
  intros Hb Hk.
  pose proof (finite_above_edge_cell safeRevealed bombCount Hb Hk) as Hcell.
  unfold finite_above_edge in Hcell.
  destruct (Z.leb_spec safeRevealed (25 - bombCount)); [|lia].
  now apply andb_prop in Hcell.
Qed.

Lemma multiplier_finite_in_range_witness :
  PrimFloat.leb houseEdge (calculateMultiplier 20 5) = true
  /\ PrimFloat.ltb (calculateMultiplier 20 5) infinity = true.
Proof. apply (multiplier_finite_in_range 20 5); lia. Defined.

(** X4: asked for one safe reveal more than the board holds, the loop of
    [calculateMultiplier] multiplies by a zero factor; the chance is 0 and
    the function returns [houseEdge / 0], which is [Infinity]. *)
Theorem multiplier_past_range_is_infinite (bombCount : Z) :
  1 <= bombCount <= 24 ->
  chanceOf (25 - bombCount + 1) bombCount = 0%float
  /\ calculateMultiplier (25 - bombCount + 1) bombCount = infinity.
Proof.
  intros Hb.
  apply (Zrange_Forall
           (fun b => chanceOf (25 - b + 1) b = 0%float
                     /\ calculateMultiplier (25 - b + 1) b = infinity)
           1 24); [|simpl; lia].
  repeat constructor.
Qed.

Lemma multiplier_past_range_is_infinite_witness :
  chanceOf (25 - 24 + 1) 24 = 0%float
  /\ calculateMultiplier (25 - 24 + 1) 24 = infinity.
Proof. apply (multiplier_past_range_is_infinite 24); lia. Defined.

End MorePayout.

Section OnchainFacts.
Import Onchain.
Local Open Scope Z_scope.

Lemma toInt32_mod256 (z : Z) : toInt32 (JS.Int z) mod 256 = z mod 256.
Proof.
  unfold toInt32.
  rewrite (Z.mod_eq (z + 2 ^ 31) (2 ^ 32)) by lia.
  replace (z + 2 ^ 31 - 2 ^ 32 * ((z + 2 ^ 31) / 2 ^ 32) - 2 ^ 31)
    with (z + (- (2 ^ 24 * ((z + 2 ^ 31) / 2 ^ 32))) * 256) by lia.
  apply Z_mod_plus_full.
Qed.

(** X5: the nonce [startSoloOnchain] sends on chain is the low byte of
    the integer nonce: it equals [nonce mod 256], lies in 0..255, and two
    nonces 256 apart are sent as the same value. *)
Theorem gameNonce_is_low_byte (nonce : Z) :
  gameNonce (JS.Int nonce) = nonce mod 256
  /\ 0 <= gameNonce (JS.Int nonce) <= 255
  /\ gameNonce (JS.Int (nonce + 256)) = gameNonce (JS.Int nonce).
Proof.
  assert (H : forall z, gameNonce (JS.Int z) = z mod 256).
  { intros z. unfold gameNonce. change 0xff with (Z.ones 8).
    rewrite Z.land_ones by lia. apply toInt32_mod256. }
  rewrite !H. pose proof (Z.mod_pos_bound nonce 256 ltac:(lia)).
  repeat split; try lia.
  replace (nonce + 256) with (nonce + 1 * 256) by lia. apply Z_mod_plus_full.
Qed.

End OnchainFacts.

(** ** Solo rounds *)

Section MoreSolo.
Import Solo SoloAux SoloUI.
Local Open Scope Z_scope.

Tactic Notation "sfields" :=
  cbn [gameState betAmount bombCount tiles currentMultiplier safeRevealed
       state prevGameState serverSeed recorded initialState].
Tactic Notation "sfields" "in" hyp(H) :=
  cbn [gameState betAmount bombCount tiles currentMultiplier safeRevealed
       state prevGameState serverSeed recorded initialState] in H.

(** X6: in every state the solo component can reach, the board has 25
    tiles, the tile at index k carries id k, the [prevGameState] ref
    agrees with the game state between events, and the bomb count is
    within the slider's 1..24; while a round is being played no bomb
    is revealed and [safeRevealed] is the number of revealed tiles. *)
Theorem solo_round_invariant (c : Component) :
  reachable c ->
  length (tiles (state c)) = 25%nat
  /\ (forall k t, tiles (state c) !! k = Some t -> id t = k)
  /\ prevGameState c = gameState (state c)
  /\ 1 <= bombCount (state c) <= 24
  /\ (gameState (state c) = playing ->
      (forall t, t ∈ tiles (state c) -> isRevealed t = true -> isBomb t = false)
      /\ safeRevealed (state c)
         = Z.of_nat (length (List.filter isRevealed (tiles (state c))))).
Proof.
  intros Hreach.
  destruct (solo_reachable_invariant _ Hreach) as [Hprev Hwf Hb _ Hplay].
  split; [apply wf_length, Hwf|].
  split; [intros k t; apply wf_lookup_id, Hwf|].
  split; [exact Hprev|]. split; [exact Hb|].
  intros Hp. destruct (Hplay Hp) as [Hno Hcount]. split; [|exact Hcount].
  intros t Hin Hr. destruct (isBomb t) eqn:Hbomb; [|reflexivity].
  apply list_elem_of_In in Hin.
  rewrite (isLoss_false_unrevealed _ _ Hno Hin Hbomb) in Hr. discriminate.
Qed.

Lemma solo_round_invariant_witness :
  length (tiles (state demoRound)) = 25%nat
  /\ safeRevealed (state demoRound)
     = Z.of_nat (length (List.filter isRevealed (tiles (state demoRound)))).
Proof.
  destruct (solo_round_invariant demoRound demoRound_reachable)
    as (Hlen & _ & _ & _ & Hplay).
  split; [exact Hlen|]. apply Hplay. reflexivity.
Defined.

Lemma dispatch_same_state st c a :
  prevGameState c = gameState (state c) ->
  gameReducer (state c) a = Some (state c) ->
  dispatch st c a = Some c.
Proof.
  destruct c as [s seed prev recs]. sfields. intros -> Hred.
  unfold dispatch. sfields. rewrite Hred.
  unfold settlementEffect. sfields.
  destruct (gameState s); reflexivity.
Qed.

(** X7: [revealTile] on a tile that is already revealed, or while no
    round is being played, leaves the whole component as it was: state,
    seed and the list of recorded games. *)
Theorem reveal_is_ignored (st : Stats) (c : Component) (tileId : nat)
    (tile : Tile) :
  reachable c ->
  tiles (state c) !! tileId = Some tile ->
  gameState (state c) <> playing \/ isRevealed tile = true ->
  revealTile st tileId c = Some c.
Proof.
  intros Hreach Hk Hcase. unfold revealTile.
  destruct (GameStatus_eqb (gameState (state c)) playing) eqn:Hst;
    [|reflexivity].
  apply GameStatus_eqb_eq in Hst. destruct Hcase as [Hn|Hr]; [contradiction|].
  cbn [negb]. apply dispatch_same_state.
  - apply (inv_prev _ (solo_reachable_invariant _ Hreach)).
  - cbn [gameReducer]. now rewrite Hk, Hr.
Qed.

Lemma revealOne_insert (ts : list Tile) (tileId : nat) (tile : Tile) :
  wf_tiles ts -> ts !! tileId = Some tile ->
  map (revealOne tileId) ts = <[tileId := reveal tile]> ts.
Proof.
  intros Hwf Hk. apply list_eq. intros k.
  rewrite list_lookup_fmap.
  destruct (decide (k = tileId)) as [->|Hne].
  - rewrite list_lookup_insert_eq by (eapply lookup_lt_Some, Hk).
    rewrite Hk. simpl. unfold revealOne.
    rewrite (wf_lookup_id _ _ _ Hwf Hk), Nat.eqb_refl. reflexivity.
  - rewrite list_lookup_insert_ne by congruence.
    destruct (ts !! k) as [t|] eqn:Ht; [|reflexivity].
    simpl. unfold revealOne. rewrite (wf_lookup_id _ _ _ Hwf Ht).
    destruct (Nat.eqb_spec k tileId); [contradiction | reflexivity].
Qed.

(** X8: revealing an unrevealed safe tile that is not the last safe one
    keeps the round in [playing], reveals exactly that tile, raises
    [safeRevealed] by one, stores [calculateMultiplier] of the new count
    and records no game. *)
Theorem safe_reveal_continues (st : Stats) (c : Component) (tileId : nat)
    (tile : Tile) :
  reachable c -> gameState (state c) = playing ->
  tiles (state c) !! tileId = Some tile ->
  isRevealed tile = false -> isBomb tile = false ->
  safeRevealed (state c) + 1 <> 25 - bombCount (state c) ->
  revealTile st tileId c
  = Some (mkComponent
            (mkState playing (betAmount (state c)) (bombCount (state c))
                     (<[tileId := reveal tile]> (tiles (state c)))
                     (Payout.calculateMultiplier (safeRevealed (state c) + 1)
                                                 (bombCount (state c)))
                     (safeRevealed (state c) + 1))
            (serverSeed c) playing (recorded c)).
Proof.
  intros Hreach Hplay Hk Hr Hb Hnot.
  destruct (solo_reachable_invariant _ Hreach) as [Hprev Hwf _ _ _].
  unfold revealTile, dispatch. rewrite Hplay. cbn [GameStatus_eqb negb].
  cbn [gameReducer]. rewrite Hk, Hr, Hb.
  apply Z.eqb_neq in Hnot. rewrite Hnot.
  fold (revealOne tileId). rewrite (revealOne_insert _ _ _ Hwf Hk).
  unfold settlementEffect. sfields. rewrite Hplay.
  rewrite andb_false_r. reflexivity.
Qed.

Lemma safe_reveal_continues_witness :
  exists c',
    revealTile demoStats 0 demoRound = Some c'
    /\ gameState (state c') = playing
    /\ safeRevealed (state c') = 1
    /\ recorded c' = [].
Proof.
  eexists. split.
  - apply (safe_reveal_continues demoStats demoRound 0
             (mkTile 0 false false false));
      [apply demoRound_reachable | reflexivity | reflexivity | reflexivity
      | reflexivity | discriminate].
  - repeat split.
Defined.

Lemma gameReducer_reveal_layout (s s' : State) (tileId : nat) :
  gameReducer s (REVEAL_TILE tileId) = Some s' ->
  map id (tiles s') = map id (tiles s)
  /\ map isBomb (tiles s') = map isBomb (tiles s)
  /\ (forall k t, tiles s !! k = Some t -> isRevealed t = true ->
        exists t', tiles s' !! k = Some t' /\ isRevealed t' = true)
  /\ betAmount s' = betAmount s /\ bombCount s' = bombCount s.
Proof.
  cbn [gameReducer]. intros H.
  destruct (tiles s !! tileId) as [tile|]; [|discriminate].
  assert (Hone : forall t, id (revealOne tileId t) = id t
                           /\ isBomb (revealOne tileId t) = isBomb t
                           /\ (isRevealed t = true ->
                               isRevealed (revealOne tileId t) = true)).
  { intros t. unfold revealOne. destruct (Nat.eqb (id t) tileId); auto. }
  fold (revealOne tileId) in H.
  assert (Hgen : forall f : Tile -> Tile,
             (forall t, id (f t) = id t /\ isBomb (f t) = isBomb t
                        /\ (isRevealed t = true -> isRevealed (f t) = true)) ->
             map id (map f (tiles s)) = map id (tiles s)
             /\ map isBomb (map f (tiles s)) = map isBomb (tiles s)
             /\ (forall k t, tiles s !! k = Some t -> isRevealed t = true ->
                   exists t', map f (tiles s) !! k = Some t'
                              /\ isRevealed t' = true)).
  { intros f Hf. rewrite !map_map. repeat split.
    - apply map_ext. intros t. apply Hf.
    - apply map_ext. intros t. apply Hf.
    - intros k t Hk Hr. exists (f t).
      rewrite list_lookup_fmap, Hk. split; [reflexivity | now apply Hf]. }
  repeat case_match; injection H as <-; sfields.
  - split; [reflexivity|]. split; [reflexivity|]. split; [eauto | auto].
  - destruct (Hgen reveal) as (G1 & G2 & G3); [intros t; simpl; auto|].
    split; [exact G1|]. split; [exact G2|]. split; [exact G3|].
    split; reflexivity.
  - rewrite (map_map (revealOne tileId) reveal (tiles s)).
    destruct (Hgen (fun t => reveal (revealOne tileId t))) as (G1 & G2 & G3).
    { intros t. destruct (Hone t) as (? & ? & ?). simpl. auto. }
    split; [exact G1|]. split; [exact G2|]. split; [exact G3|].
    split; reflexivity.
  - destruct (Hgen (revealOne tileId)) as (G1 & G2 & G3); [exact Hone|].
    split; [exact G1|]. split; [exact G2|]. split; [exact G3|].
    split; reflexivity.
Qed.

(** X10: [cashOut] during a round with at least one safe reveal finishes
    the round with the state otherwise unchanged and hands [addGame] one
    game with net profit [betAmount * currentMultiplier - betAmount] and
    the current multiplier; outside a round, or before the first safe
    reveal, it changes nothing. *)
Theorem cash_out_records_win (st : Stats) (c : Component) :
  reachable c ->
  (gameState (state c) = playing -> safeRevealed (state c) <> 0 ->
   cashOut st c
   = Some (mkComponent
             (mkState finished (betAmount (state c)) (bombCount (state c))
                      (tiles (state c)) (currentMultiplier (state c))
                      (safeRevealed (state c)))
             (serverSeed c) finished
             (mkRecord
                (betAmount (state c) * currentMultiplier (state c)
                 - betAmount (state c))%float
                (betAmount (state c)) (currentMultiplier (state c))
                (serverSeed c) (clientSeedOf st) (nonceOf st)
              :: recorded c)))
  /\ (gameState (state c) <> playing \/ safeRevealed (state c) = 0 ->
      cashOut st c = Some c).
Proof.
  intros Hreach.
  destruct (solo_reachable_invariant _ Hreach) as [Hprev _ _ _ Hplay].
  split.
  - intros Hp Hsr. destruct (Hplay Hp) as [Hno _].
    unfold cashOut, dispatch. rewrite Hp. apply Z.eqb_neq in Hsr. rewrite Hsr.
    cbn [GameStatus_eqb negb orb gameReducer].
    unfold settlementEffect, settlement. sfields. rewrite Hprev, Hp.
    cbn [GameStatus_eqb andb]. unfold isLoss in Hno. rewrite Hno. reflexivity.
  - intros Hcase. unfold cashOut.
    destruct (GameStatus_eqb (gameState (state c)) playing) eqn:Hst;
      [|reflexivity].
    apply GameStatus_eqb_eq in Hst. destruct Hcase as [Hn|H0]; [contradiction|].
    rewrite H0. reflexivity.
Qed.

Lemma dispatch_records st c a c' :
  prevGameState c = gameState (state c) ->
  dispatch st c a = Some c' ->
  recorded c' =
    if GameStatus_eqb (gameState (state c)) playing
       && GameStatus_eqb (gameState (state c')) finished
    then settlement st (serverSeed c) (state c') :: recorded c
    else recorded c.
Proof.
  intros Hprev. unfold dispatch.
  destruct (gameReducer (state c) a) as [s'|]; [|discriminate].
  intros H. injection H as <-. unfold settlementEffect. sfields.
  rewrite Hprev. reflexivity.
Qed.

(** X11: an event hands a game to [addGame] exactly when it takes the
    round from [playing] to [finished], and then exactly one; every other
    event leaves the recorded games as they were. *)
Theorem one_record_per_round (c c' : Component) :
  reachable c -> step c c' ->
  (gameState (state c) = playing /\ gameState (state c') = finished
   /\ exists r, recorded c' = r :: recorded c)
  \/ (~ (gameState (state c) = playing /\ gameState (state c') = finished)
      /\ recorded c' = recorded c).
Proof.
  intros Hreach Hstep.
  pose proof (inv_prev _ (solo_reachable_invariant _ Hreach)) as Hprev.
  assert (Hd : forall st a c0,
             prevGameState c0 = prevGameState c ->
             state c0 = state c -> recorded c0 = recorded c ->
             dispatch st c0 a = Some c' ->
             (gameState (state c) = playing /\ gameState (state c') = finished
              /\ exists r, recorded c' = r :: recorded c)
             \/ (~ (gameState (state c) = playing
                    /\ gameState (state c') = finished)
                 /\ recorded c' = recorded c)).
  { intros st a c0 E1 E2 E3 H.
    apply dispatch_records in H; [|congruence].
    rewrite E2, E3 in H.
    destruct (gameState (state c)) eqn:G, (gameState (state c')) eqn:G';
      cbn [GameStatus_eqb andb] in H;
      first [ left; split; [reflexivity|]; split; [reflexivity|]; eauto
            | right; split; [intros [? ?]; discriminate | exact H] ]. }
  assert (Hsame : c' = c ->
             (gameState (state c) = playing /\ gameState (state c') = finished
              /\ exists r, recorded c' = r :: recorded c)
             \/ (~ (gameState (state c) = playing
                    /\ gameState (state c') = finished)
                 /\ recorded c' = recorded c)).
  { intros ->. right. split; [|reflexivity]. intros [E1 E2]. congruence. }
  destruct Hstep as [st v c c' H | st v c c' Hv H | st seed c c' H
                    | st tileId c c' Hid H | st c c' H | st c c' H].
  - eapply Hd; eauto.
  - eapply Hd; eauto.
  - unfold initializeGame in H.
    destruct (PrimFloat.leb _ 0); [injection H as <-; now apply Hsame|].
    destruct (Shuffle.generateBombLocations _ _ _ _); [|discriminate].
    eapply Hd in H; eauto.
  - unfold revealTile in H.
    destruct (negb _); [injection H as <-; now apply Hsame|].
    eapply Hd; eauto.
  - unfold cashOut in H.
    destruct (_ || _); [injection H as <-; now apply Hsame|].
    eapply Hd; eauto.
  - eapply Hd; eauto.
Qed.

End MoreSolo.

Section MoreSolo2.
Import Solo SoloAux SoloDemo SoloUI.
Local Open Scope Z_scope.

Tactic Notation "sfields" :=
  cbn [gameState betAmount bombCount tiles currentMultiplier safeRevealed
       state prevGameState serverSeed recorded initialState].
Tactic Notation "sfields" "in" hyp(H) :=
  cbn [gameState betAmount bombCount tiles currentMultiplier safeRevealed
       state prevGameState serverSeed recorded initialState] in H.

Lemma demoRound1_reachable : reachable demoRound1.
Proof.
  eapply reach_step; [apply demoRound_reachable|].
  apply (step_reveal demoStats 0); [lia | reflexivity].
Qed.

Lemma clientSeedOf_nonempty (st : Stats) : clientSeedOf st <> EmptyString.
Proof.
  unfold clientSeedOf. destruct (profileClientSeed st) as [s|]; [|discriminate].
  destruct s; simpl; discriminate.
Qed.

Lemma filter_freshTiles_length (bomb : nat -> bool) :
  length (List.filter isBomb (freshTiles bomb))
  = length (List.filter bomb (seq 0 25)).
Proof.
  unfold freshTiles. generalize (seq 0 25). intros l.
  induction l as [|i l IH]; simpl; [reflexivity|].
  destruct (bomb i); simpl; now rewrite IH.
Qed.

Lemma existsb_eqb_elem (i : nat) (l : list nat) :
  existsb (Nat.eqb i) l = true <-> i ∈ l.
Proof.
  rewrite existsb_exists, list_elem_of_In. split.
  - intros (x & Hin & E). apply Nat.eqb_eq in E. now subst.
  - intros Hin. exists i. split; [exact Hin | apply Nat.eqb_refl].
Qed.

(** As many tiles are marked as there are distinct positions on the
    board. *)
Lemma marked_count (bombs : list nat) :
  NoDup bombs -> (forall v, v ∈ bombs -> (v < 25)%nat) ->
  length (List.filter (fun i => existsb (Nat.eqb i) bombs) (seq 0 25))
  = length bombs.
Proof.
  intros Hnd Hlt. apply Permutation_length, NoDup_Permutation.
  - apply NoDup_ListNoDup, List.NoDup_filter, seq_NoDup.
  - exact Hnd.
  - intros v. rewrite list_elem_of_In, filter_In, <- list_elem_of_In.
    rewrite existsb_eqb_elem, elem_of_seq. split; [tauto|].
    intros Hv. specialize (Hlt v Hv). split; [lia | exact Hv].
Qed.

(** X12: with a stake that is not [<= 0], a non-empty server seed and a
    numeric game count, [initializeGame] starts a round on a fresh board
    whose bombs are the ids [generateBombLocations] returns for nonce
    [totalGames + 1]; exactly [bombCount] tiles are bombs, the multiplier
    is 1, the count of safe reveals is 0 and the recorded games stay as
    they were. *)
Theorem initializeGame_lays_bombs
    (st : Stats) (newServerSeed : string) (n : Z) (c : Component) :
  reachable c ->
  PrimFloat.leb (betAmount (state c)) 0 = false ->
  newServerSeed <> EmptyString ->
  totalGames st = JS.Int n ->
  exists bombs,
    Shuffle.generateBombLocations newServerSeed (clientSeedOf st)
      (JS.Int (n + 1)) (JS.Int (bombCount (state c))) = Some bombs
    /\ Z.of_nat (length bombs) = bombCount (state c)
    /\ initializeGame st newServerSeed c
       = Some (mkComponent
                 (mkState playing (betAmount (state c)) (bombCount (state c))
                    (freshTiles (fun i => existsb (Nat.eqb i) bombs)) 1 0)
                 newServerSeed playing (recorded c))
    /\ Z.of_nat (length (List.filter isBomb
                           (freshTiles (fun i => existsb (Nat.eqb i) bombs))))
       = bombCount (state c).
Proof.
  intros Hreach Hstake Hseed Htotal.
  pose proof (inv_bombs _ (solo_reachable_invariant _ Hreach)) as Hb.
  destruct (generateBombLocations_slice newServerSeed (clientSeedOf st)
              (n + 1) Hseed (clientSeedOf_nonempty st))
    as (perm & Hperm & Hrun).
  specialize (Hrun (bombCount (state c))).
  destruct (slice0_of_board perm (bombCount (state c)) Hperm)
    as (Hnd & Hlt & Hlen).
  set (bombs := JS.slice0 perm (bombCount (state c))) in *.
  rename Hrun into Hgen.
  destruct (Z.ltb_spec (bombCount (state c)) 0) as [?|_]; [lia|].
  rewrite Z.min_l in Hlen by lia.
  exists bombs. split; [exact Hgen|]. split; [exact Hlen|]. split.
  - unfold initializeGame, nonceOf. rewrite Hstake, Htotal, Hgen.
    unfold dispatch. cbn [gameReducer]. unfold settlementEffect. sfields.
    rewrite andb_false_r. reflexivity.
  - rewrite filter_freshTiles_length, marked_count; assumption.
Qed.

Lemma initializeGame_lays_bombs_witness :
  exists bombs,
    Shuffle.generateBombLocations "abc" (clientSeedOf demoStats)
      (JS.Int (0 + 1)) (JS.Int (bombCount (state initialComponent)))
    = Some bombs
    /\ Z.of_nat (length bombs) = 5.
Proof.
  destruct (initializeGame_lays_bombs demoStats "abc" 0 initialComponent)
    as (bombs & Hgen & Hlen & _);
    [apply reach_init | reflexivity | discriminate | reflexivity |].
  exists bombs. split; [exact Hgen | exact Hlen].
Defined.

(** *** The page's own gating *)

Lemma ui_step_step (c c' : Component) : ui_step c c' -> step c c'.
Proof.
  destruct 1; eauto using step_bet, step_bombs, step_start, step_reveal,
    step_cash, step_reset.
Qed.

Lemma ui_reachable_reachable (c : Component) : ui_reachable c -> reachable c.
Proof.
  induction 1 as [|c c' _ IH Hstep]; [apply reach_init|].
  eapply reach_step; [exact IH | apply ui_step_step, Hstep].
Qed.

Lemma dispatch_state st c a c' :
  dispatch st c a = Some c' -> gameReducer (state c) a = Some (state c').
Proof.
  unfold dispatch. destruct (gameReducer (state c) a); [|discriminate].
  intros H. injection H as <-. reflexivity.
Qed.

Lemma counters_ok_initial : counters_ok initialComponent.
Proof. constructor; simpl; try reflexivity; try lia; discriminate. Qed.

Ltac counters Hred :=
  let Hs := fresh "Hs" in
  injection Hred as Hs; constructor; rewrite <- Hs; sfields;
  unfold multiplierOf; sfields.

Lemma counters_ok_step (c c' : Component) :
  reachable c -> counters_ok c -> ui_step c c' -> counters_ok c'.
Proof.
  intros Hreach Hok Hstep. pose proof Hok as [Hm Hbet Hplay Hfin].
  pose proof (inv_bombs _ (solo_reachable_invariant _ Hreach)) as Hb.
  unfold multiplierOf in Hm.
  destruct Hstep as [st v c c' Hg H | st v c c' Hg Hv H | st seed c c' Hg H
                    | st tileId c c' Hid H | st c c' H | st c c' Hg H].
  - apply dispatch_state in H. cbn [gameReducer] in H. counters H;
      rewrite ?Hg; try discriminate; auto.
  - apply dispatch_state in H. cbn [gameReducer] in H.
    specialize (Hbet Hg). rewrite Hbet in Hm. cbn in Hm.
    counters H; rewrite ?Hg, ?Hbet; try discriminate; auto.
  - unfold initializeGame in H.
    destruct (PrimFloat.leb _ 0); [injection H as <-; exact Hok|].
    destruct (Shuffle.generateBombLocations _ _ _ _); [|discriminate].
    apply dispatch_state in H. cbn [gameReducer] in H. sfields in H.
    counters H; try discriminate; try reflexivity. intros _. lia.
  - unfold revealTile in H.
    destruct (GameStatus_eqb (gameState (state c)) playing) eqn:Hst;
      cbn [negb] in H; [|injection H as <-; exact Hok].
    apply GameStatus_eqb_eq in Hst. specialize (Hplay Hst).
    apply dispatch_state in H. cbn [gameReducer] in H.
    destruct (tiles (state c) !! tileId) as [tile|]; [|discriminate].
    destruct (isRevealed tile).
    { injection H as Hs. constructor; rewrite <- Hs; auto. }
    destruct (isBomb tile).
    { counters H; try discriminate; auto. intros _. lia. }
    destruct (Z.eqb_spec (safeRevealed (state c) + 1)
                (25 - bombCount (state c))) as [E|NE].
    + counters H; try discriminate.
      * destruct (Z.eqb_spec (safeRevealed (state c) + 1) 0); [lia|reflexivity].
      * intros _. lia.
    + counters H; rewrite ?Hst; try discriminate.
      * destruct (Z.eqb_spec (safeRevealed (state c) + 1) 0); [lia|reflexivity].
      * intros _. lia.
  - unfold cashOut in H.
    destruct (GameStatus_eqb (gameState (state c)) playing) eqn:Hst;
      cbn [negb orb] in H; [|injection H as <-; exact Hok].
    apply GameStatus_eqb_eq in Hst. specialize (Hplay Hst).
    destruct (safeRevealed (state c) =? 0) eqn:E0;
      [injection H as <-; exact Hok|].
    apply dispatch_state in H. cbn [gameReducer] in H.
    counters H; rewrite ?E0; try discriminate; auto. intros _. lia.
  - apply dispatch_state in H. cbn [gameReducer] in H. sfields in H.
    counters H; try discriminate; try reflexivity.
Qed.

Lemma ui_reachable_counters (c : Component) :
  ui_reachable c -> counters_ok c.
Proof.
  induction 1 as [|c c' Hr IH Hstep]; [apply counters_ok_initial|].
  eapply counters_ok_step; eauto using ui_reachable_reachable.
Qed.

(** X13: after any sequence of interactions the rendered page offers,
    the stored multiplier is 1 before the first safe reveal and
    [calculateMultiplier safeRevealed bombCount] after it; the number of
    safe reveals never exceeds [25 - bombCount] (and stays below it while
    playing), so the stored multiplier is finite and at least 0.99. *)
Theorem stored_multiplier_follows_counters (c : Component) :
  ui_reachable c ->
  currentMultiplier (state c)
    = (if safeRevealed (state c) =? 0 then 1%float
       else Payout.calculateMultiplier (safeRevealed (state c))
                                       (bombCount (state c)))
  /\ 0 <= safeRevealed (state c) <= 25 - bombCount (state c)
  /\ (gameState (state c) = playing ->
      safeRevealed (state c) < 25 - bombCount (state c))
  /\ PrimFloat.leb Payout.houseEdge (currentMultiplier (state c)) = true
  /\ PrimFloat.ltb (currentMultiplier (state c)) infinity = true.
Proof.
  intros Hui.
  pose proof (ui_reachable_counters _ Hui) as [Hm Hbet Hplay Hfin].
  pose proof (inv_bombs _ (solo_reachable_invariant _
                             (ui_reachable_reachable _ Hui))) as Hb.
  assert (Hrange : 0 <= safeRevealed (state c) <= 25 - bombCount (state c)).
  { destruct (gameState (state c)) eqn:G.
    - rewrite Hbet by reflexivity. lia.
    - specialize (Hplay eq_refl). lia.
    - now apply Hfin. }
  split; [exact Hm|]. split; [exact Hrange|].
  split; [intros Hp; now apply Hplay|].
  rewrite Hm. unfold multiplierOf.
  destruct (safeRevealed (state c) =? 0); [split; reflexivity|].
  pose proof (finite_above_edge_cell _ _ Hb Hrange) as Hcell.
  unfold PayoutExact.finite_above_edge in Hcell.
  destruct (Z.leb_spec (safeRevealed (state c)) (25 - bombCount (state c)));
    [|lia].
  now apply andb_prop in Hcell.
Qed.

End MoreSolo2.

(** ** Duels *)

Section MoreDuel.
Import Duel DuelAux DuelBooks.
Variable seedrandom : string -> nat -> float.
Local Open Scope Z_scope.

(** Everything an accepted move does. *)
Lemma processMove_Accepted_effect fuel c tileId side c' :
  processMove seedrandom fuel c tileId side = Accepted c' ->
  gameOver (state c) = false
  /\ hasHitBomb (state c) side = false
  /\ activeTurn (state c) = side
  /\ exists tiles1 tile0 over won flip,
       placedTiles seedrandom fuel (state c) tileId = Some tiles1
       /\ tiles1 !! tileId = Some tile0
       /\ hasHitBomb (state c') side = isBomb tile0
       /\ hasHitBomb (state c') (other side) = hasHitBomb (state c) (other side)
       /\ score (state c') side
          = (if isBomb tile0 then score (state c) side
             else score (state c) side + 1)
       /\ score (state c') (other side) = score (state c) (other side)
       /\ gameOverCheck seedrandom (gameSeed (state c))
            (safeRevealedCount
               (<[tileId := mkTile (id tile0) true (isBomb tile0) (Some side)]>
                  tiles1) =? 25 - bombCount (state c))
            (playerHasHitBomb (state c')) (opponentHasHitBomb (state c'))
            (playerScore (state c')) (opponentScore (state c'))
          = (over, won, flip)
       /\ gameOver (state c') = over
       /\ activeTurn (state c') = (if over then side else other side)
       /\ minesPlaced (state c') = true
       /\ betAmount (state c') = jsonCopy (betAmount (state c))
       /\ bombCount (state c') = bombCount (state c)
       /\ gameSeed (state c') = gameSeed (state c)
       /\ serverSeed (state c') = serverSeed (state c)
       /\ clientSeed (state c') = clientSeed (state c)
       /\ nonce (state c') = nonce (state c)
       /\ coinflip c' = match flip with
                        | Some w => mkCoinflip true (Some w)
                        | None => coinflip c
                        end
       /\ winner (state c') = match won with
                              | Some w => Some (Winner_of w)
                              | None => winner (state c)
                              end
       /\ tiles (state c')
          = (let tiles2 :=
               <[tileId := mkTile (id tile0) true (isBomb tile0) (Some side)]>
                 tiles1 in
             match won with
             | Some _ => revealAll tiles2
             | None => tiles2
             end)
       /\ recorded c' = match won with
                        | Some w =>
                            gameRecord (state c)
                                       (jsonCopy (betAmount (state c))) w
                            :: recorded c
                        | None => recorded c
                        end.
Proof.
  unfold processMove. intros H.
  destruct (gameOver (state c)) eqn:Hover; [discriminate|].
  destruct (Side_eqb side player && _) eqn:Hp; [discriminate|].
  destruct (Side_eqb side opponent && _) eqn:Ho; [discriminate|].
  assert (Hside : hasHitBomb (state c) side = false
                  /\ activeTurn (state c) = side).
  { destruct side, (activeTurn (state c)); simpl in *;
      destruct (playerHasHitBomb (state c)), (opponentHasHitBomb (state c));
      simpl in *; try discriminate; auto. }
  destruct Hside as [Hbust Hturn].
  fold (placedTiles seedrandom fuel (state c) tileId) in H.
  destruct (placedTiles seedrandom fuel (state c) tileId) as [tiles1|] eqn:Hpl;
    [|discriminate].
  destruct (tiles1 !! tileId) as [tile0|] eqn:Hk; [|discriminate].
  cbv zeta in H.
  match type of H with
  | context [gameOverCheck ?r ?sd ?a ?pb ?ob ?ps ?os] =>
      destruct (gameOverCheck r sd a pb ob ps os) as [[over won] flip] eqn:Hcheck
  end.
  assert (Hwon : over = false -> won = None).
  { intros ->. now apply gameOverCheck_continue in Hcheck. }
  split; [reflexivity|]. split; [exact Hbust|]. split; [exact Hturn|].
  exists tiles1, tile0, over, won, flip.
  split; [first [reflexivity | exact Hpl]|].
  split; [first [reflexivity | exact Hk]|].
  destruct over; [destruct won as [w|]|rewrite (Hwon eq_refl) in *];
    injection H as <-;
    cbn [state coinflip recorded minesPlaced bombCount gameSeed betAmount
         serverSeed clientSeed nonce activeTurn
         playerHasHitBomb opponentHasHitBomb playerScore opponentScore
         gameOver winner tiles isBomb];
    cbn [isBomb] in Hcheck;
    (split; [destruct side, (isBomb tile0); simpl in *; congruence|]);
    (split; [destruct side, (isBomb tile0); reflexivity|]);
    (split; [destruct side, (isBomb tile0); reflexivity|]);
    (split; [destruct side, (isBomb tile0); reflexivity|]);
    (split; [exact Hcheck|]);
    repeat (split; [first [reflexivity | exact Hturn]|]); reflexivity.
Qed.

(** *** More on the game-over check *)

Ltac check_cases H :=
  unfold gameOverCheck in H;
  repeat match type of H with
         | context [if ?b then _ else _] => destruct b eqn:?
         end;
  simplify_eq;
  repeat match goal with
         | E : _ && _ = true |- _ => apply andb_prop in E as [? ?]
         | E : _ && _ = false |- _ => apply andb_false_iff in E
         | E : (_ <? _) = true |- _ => apply Z.ltb_lt in E
         | E : (_ <? _) = false |- _ => apply Z.ltb_ge in E
         end.

Lemma gameOverCheck_by_score sd a pb ob ps os over w flip :
  gameOverCheck seedrandom sd a pb ob ps os = (over, Some w, flip) ->
  over = true /\ flip = None
  /\ ((w = player /\ os < ps) \/ (w = opponent /\ ps < os)).
Proof. intros H. check_cases H; repeat split; auto; lia. Qed.

Lemma gameOverCheck_live sd a pb ob ps os won flip :
  gameOverCheck seedrandom sd a pb ob ps os = (false, won, flip) ->
  a = false /\ (pb = true -> os <= ps) /\ (ob = true -> ps <= os)
  /\ (pb = true -> ob = true -> False).
Proof.
  intros H. check_cases H; repeat split; try congruence; intros; subst;
    simpl in *; intuition (try congruence; try lia).
Qed.

Lemma gameOverCheck_ends sd a pb ob ps os :
  (pb = true /\ ob = true) \/ (pb = true /\ ps < os)
    \/ (ob = true /\ os < ps) ->
  exists won flip,
    gameOverCheck seedrandom sd a pb ob ps os = (true, won, flip).
Proof.
  intros H. unfold gameOverCheck.
  repeat match goal with
         | |- context [if ?b then _ else _] => destruct b eqn:?
         end; eauto;
  exfalso;
  repeat match goal with
         | E : _ && _ = false |- _ => apply andb_false_iff in E
         | E : (_ <? _) = false |- _ => apply Z.ltb_ge in E
         end;
  intuition (try congruence; try lia).
Qed.

(** *** Turn, flags and scores *)

Lemma turn_ok_no_skip (s : GameState) : turn_ok s -> turnEffect s = s.
Proof.
  intros Hok. unfold turnEffect. cbv zeta.
  destruct (gameOver s); [reflexivity|].
  destruct Hok as [(Hp & Ho & _) | [(Hp & Ho & Ht & _) | (Hp & Ho & Ht & _)]];
    rewrite Hp, Ho, ?Ht; destruct (activeTurn s); reflexivity.
Qed.

Lemma turn_ok_after_move fuel c tileId side c' :
  turn_ok (state c) ->
  processMove seedrandom fuel c tileId side = Accepted c' ->
  gameOver (state c') = false -> turn_ok (state c').
Proof.
  intros Hok H Hlive.
  apply processMove_Accepted_effect in H
    as (_ & Hb & Ht & tiles1 & tile0 & over & won & flip & _ & _
        & Hb1 & Hb2 & Hs1 & Hs2 & Hcheck & Hover & Hturn & _).
  rewrite Hlive in Hover. subst over.
  apply gameOverCheck_live in Hcheck as (_ & Hc1 & Hc2 & Hc3).
  unfold turn_ok in *. unfold score, hasHitBomb, other in *.
  destruct side, (isBomb tile0);
    rewrite ?Hb1, ?Hb2, ?Hs1, ?Hs2, ?Hturn in *;
    destruct (playerHasHitBomb (state c')) eqn:Ep,
             (opponentHasHitBomb (state c')) eqn:Eo;
    intuition (try congruence; try lia).
Qed.

(** *** The books *)

Lemma gameRecord_same (s s' : GameState) (bet : Amount) (w : Side) :
  serverSeed s' = serverSeed s ->
  clientSeed s' = clientSeed s -> nonce s' = nonce s ->
  gameRecord s' bet w = gameRecord s bet w.
Proof. unfold gameRecord. now intros -> -> ->. Qed.

Lemma books_ok_initial now settings :
  books_ok (initialComponent seedrandom now settings).
Proof.
  constructor; simpl; try discriminate; try reflexivity.
  intros _. left. auto.
Qed.

Lemma books_ok_processMove fuel c tileId side c' :
  invariant c -> books_ok c ->
  processMove seedrandom fuel c tileId side = Accepted c' ->
  books_ok c'.
Proof.
  intros [_ Hpending Hshow] [Hlive Hnone Hsome Hbshow] H.
  pose proof H as Heff.
  apply processMove_Accepted_effect in Heff
    as (Hover & _ & _ & tiles1 & tile0 & over & won & flip & _ & _
        & _ & _ & _ & _ & Hcheck & Hover' & _ & _ & Hbet & _ & _
        & Hss & Hcs & Hn & Hflip & Hwin & _ & Hrec).
  pose proof (Hpending Hover) as Hw0. pose proof (Hnone Hw0) as Hr0.
  constructor.
  - intros Hl. eapply turn_ok_after_move; eauto.
  - rewrite Hwin, Hrec. destruct won; [discriminate|]. auto.
  - intros x. rewrite Hwin, Hrec, Hr0. destruct won as [w|].
    + intros E. injection E as <-. exists w. split; [reflexivity|].
      f_equal. rewrite Hbet. symmetry. now apply gameRecord_same.
    + rewrite Hw0. discriminate.
  - rewrite Hflip, Hwin. destruct flip as [w|].
    + intros _. apply gameOverCheck_flip in Hcheck as [_ ->]. exact Hw0.
    + intros Hs. apply Hshow in Hs. congruence.
Qed.

Lemma books_ok_step c c' :
  invariant c -> books_ok c -> step seedrandom c c' -> books_ok c'.
Proof.
  intros Hinv Hok Hstep. pose proof Hinv as [_ Hpending Hshow].
  pose proof Hok as [Hlive Hnone Hsome Hbshow].
  destruct Hstep as [fuel tileId c c' H | fuel pick c c' H
                    | fuel pick st now0 settings0 now seed cfg c c' _ _ _ H
                    | c | w c Hs | st now seed settings c c' H].
  - unfold handleTileClick in H. repeat case_match; try discriminate.
    eapply books_ok_processMove; eauto.
  - unfold makeBotMove in H. repeat case_match; try discriminate.
    eapply books_ok_processMove; eauto.
  - apply makeBotMove_processMove in H as [tileId H].
    eapply books_ok_processMove;
      [apply duel_invariant_initial | apply books_ok_initial | exact H].
  - assert (E : turnEffect (state c) = state c).
    { destruct (gameOver (state c)) eqn:G.
      - unfold turnEffect. now rewrite G.
      - apply turn_ok_no_skip. auto. }
    rewrite E. destruct c; exact Hok.
  - pose proof (Hbshow Hs) as Hw0. pose proof (Hnone Hw0) as Hr0.
    constructor; cbn.
    + rewrite (Hshow Hs). discriminate.
    + discriminate.
    + intros x E. injection E as <-. exists w. rewrite Hr0. auto.
    + discriminate.
  - unfold settingsEffect in H.
    destruct settings as [cfg|]; [|injection H as <-; exact Hok].
    destruct (_ || _) eqn:Hgate; [injection H as <-; exact Hok|].
    destruct (Shuffle.generateBombLocations _ _ _ _); [|discriminate].
    apply orb_false_elim in Hgate as [_ Hover].
    pose proof (Hnone (Hpending Hover)) as Hr0.
    injection H as <-. constructor; cbn.
    + intros _. left. auto.
    + intros _. exact Hr0.
    + discriminate.
    + intros _. reflexivity.
Qed.

Lemma reachable_books_ok c : reachable seedrandom c -> books_ok c.
Proof.
  induction 1 as [|c c' Hr IH Hstep]; [apply books_ok_initial|].
  eapply books_ok_step; eauto using duel_reachable_invariant.
Qed.

(** *** The stake after the JSON copy *)

Lemma jsonCopy_idempotent (x : Amount) : jsonCopy (jsonCopy x) = jsonCopy x.
Proof.
  destruct x as [f|]; [|reflexivity]. cbn [jsonCopy].
  destruct (PrimFloat.is_nan f || PrimFloat.is_infinity f) eqn:E;
    [reflexivity|].
  destruct (PrimFloat.is_zero f) eqn:Z0; [reflexivity|].
  cbn [jsonCopy]. now rewrite E, Z0.
Qed.

Lemma existsb_isRevealed_insert (l : list Tile) (i : nat) (x y : Tile) :
  l !! i = Some x -> isRevealed y = true ->
  existsb isRevealed (<[i := y]> l) = true.
Proof.
  intros Hi Hy. apply existsb_exists. exists y. split; [|exact Hy].
  apply list_elem_of_In, (list_elem_of_lookup_2 _ i).
  apply list_lookup_insert_eq. eapply lookup_lt_Some, Hi.
Qed.

Lemma existsb_isRevealed_revealAll (l : list Tile) :
  existsb isRevealed l = true -> existsb isRevealed (revealAll l) = true.
Proof.
  unfold revealAll. induction l as [|a l IH]; [discriminate | reflexivity].
Qed.

Lemma stake_ok_initial now settings :
  stake_ok (initialComponent seedrandom now settings).
Proof. constructor; discriminate. Qed.

Lemma stake_ok_processMove fuel c tileId side c' :
  processMove seedrandom fuel c tileId side = Accepted c' -> stake_ok c'.
Proof.
  intros H.
  apply processMove_Accepted_effect in H
    as (_ & _ & _ & tiles1 & tile0 & over & won & flip & _ & Hk
        & _ & _ & _ & _ & _ & _ & _ & _ & Hbet & _ & _ & _ & _ & _
        & _ & _ & Htiles & _).
  assert (Hshown : existsb isRevealed (tiles (state c')) = true).
  { rewrite Htiles. cbv zeta.
    pose proof (existsb_isRevealed_insert tiles1 tileId tile0
                  (mkTile (id tile0) true (isBomb tile0) (Some side))
                  Hk eq_refl) as Hins.
    destruct won; [apply existsb_isRevealed_revealAll|]; exact Hins. }
  constructor; intros _; [|exact Hshown].
  rewrite Hbet. apply jsonCopy_idempotent.
Qed.

Lemma stake_ok_step c c' :
  stake_ok c -> step seedrandom c c' -> stake_ok c'.
Proof.
  intros Hok Hstep. pose proof Hok as [Hcopied Hover].
  destruct Hstep as [fuel tileId c c' H | fuel pick c c' H
                    | fuel pick st now0 settings0 now seed cfg c c' _ _ _ H
                    | c | w c Hs | st now seed settings c c' H].
  - unfold handleTileClick in H. repeat case_match; try discriminate.
    eapply stake_ok_processMove; eauto.
  - apply makeBotMove_processMove in H as [tileId H].
    eapply stake_ok_processMove; eauto.
  - apply makeBotMove_processMove in H as [tileId H].
    eapply stake_ok_processMove; eauto.
  - destruct (turnEffect_cases (state c)) as [E|[turn E]]; cbn [state];
      rewrite E; constructor; assumption.
  - constructor; assumption.
  - unfold settingsEffect in H.
    destruct settings as [cfg|]; [|injection H as <-; exact Hok].
    destruct (_ || _) eqn:Hgate; [injection H as <-; exact Hok|].
    destruct (Shuffle.generateBombLocations _ _ _ _) as [locs|];
      [|discriminate].
    injection H as <-. constructor; cbn [state tiles gameOver betAmount].
    + intros Hshown. exfalso. revert Hshown. generalize (seq 0 25).
      intros l. induction l as [|i l IH]; [discriminate | exact IH].
    + discriminate.
Qed.

Lemma reachable_stake_ok c : reachable seedrandom c -> stake_ok c.
Proof.
  induction 1 as [|c c' Hr IH Hstep]; [apply stake_ok_initial|].
  eapply stake_ok_step; eauto.
Qed.

(** X18: in every reachable state of the duel no game is recorded while
    no winner is set; once a winner is set the round is over, the winner
    is never ['tie'], and exactly one game is recorded, with the stake of
    the state as the wagered amount: the stake as net profit and
    multiplier 2 when the player wins, minus the stake and multiplier 0
    when the opponent wins.  That stake has been through the JSON copy
    of [processMove]: it is a finite number that is not [-0], or [null]
    where the configured amount was [NaN] or infinite; minus [null] is
    [-0]. *)
Theorem one_settlement_per_duel (c : Component) :
  reachable seedrandom c ->
  match winner (state c) with
  | None => recorded c = []
  | Some WinTie => False
  | Some WinPlayer =>
      gameOver (state c) = true
      /\ jsonCopy (betAmount (state c)) = betAmount (state c)
      /\ recorded c =
           [mkRecord (betAmount (state c)) (betAmount (state c)) 2
                     (serverSeed (state c)) (clientSeed (state c))
                     (nonce (state c))]
  | Some WinOpponent =>
      gameOver (state c) = true
      /\ jsonCopy (betAmount (state c)) = betAmount (state c)
      /\ recorded c =
           [mkRecord (betAmount (state c))
                     (Num (negate (betAmount (state c)))) 0
                     (serverSeed (state c)) (clientSeed (state c))
                     (nonce (state c))]
  end.
Proof.
  intros Hreach.
  destruct (reachable_books_ok _ Hreach) as [_ Hnone Hsome _].
  destruct (reachable_stake_ok _ Hreach) as [Hcopied Hshown].
  pose proof (inv_pending _ (duel_reachable_invariant _ _ Hreach)) as Hpending.
  destruct (winner (state c)) as [x|] eqn:Hw; [|now apply Hnone].
  assert (Hover : gameOver (state c) = true).
  { destruct (gameOver (state c)); [reflexivity|].
    specialize (Hpending eq_refl). discriminate. }
  destruct (Hsome x eq_refl) as (w & -> & Hrec).
  destruct w; simpl; (split; [exact Hover|]); (split; [auto|]); exact Hrec.
Qed.

(** X19: when a move itself sets the winner, the round is over, every
    tile is shown, and the winner has strictly more points than the
    other side. *)
Theorem score_winner_leads fuel (c c' : Component) tileId side x :
  reachable seedrandom c ->
  processMove seedrandom fuel c tileId side = Accepted c' ->
  winner (state c') = Some x ->
  gameOver (state c') = true
  /\ forallb isRevealed (tiles (state c')) = true
  /\ ((x = WinPlayer /\ opponentScore (state c') < playerScore (state c'))
      \/ (x = WinOpponent
          /\ playerScore (state c') < opponentScore (state c'))).
Proof.
  intros Hreach H Hx.
  pose proof (inv_pending _ (duel_reachable_invariant _ _ Hreach)) as Hpending.
  apply processMove_Accepted_effect in H
    as (Hover & _ & _ & tiles1 & tile0 & over & won & flip & _ & _
        & _ & _ & _ & _ & Hcheck & Hover' & _ & _ & _ & _ & _
        & _ & _ & _ & _ & Hwin & Htiles & _).
  rewrite Hwin in Hx. destruct won as [w|].
  - injection Hx as <-.
    apply gameOverCheck_by_score in Hcheck as (-> & _ & Hlead).
    split; [exact Hover'|]. split.
    + rewrite Htiles. cbv zeta. unfold revealAll.
      rewrite forallb_forall. intros t Hin.
      apply in_map_iff in Hin as (t0 & <- & _). reflexivity.
    + destruct Hlead as [[-> ?]|[-> ?]]; simpl; auto.
  - rewrite (Hpending Hover) in Hx. discriminate.
Qed.

(** X20: the turn-skipping effect never changes a reachable state:
    while the round is live a side that has hit a bomb is never on turn.
    In that situation the scores are level, so whatever the other side
    reveals next ends the round. *)
Theorem busted_side_is_never_on_turn (c : Component) (side : Side) :
  reachable seedrandom c ->
  turnEffect (state c) = state c
  /\ (gameOver (state c) = false -> hasHitBomb (state c) side = true ->
      activeTurn (state c) = other side
      /\ playerScore (state c) = opponentScore (state c)
      /\ forall fuel tileId who c',
           processMove seedrandom fuel c tileId who = Accepted c' ->
           gameOver (state c') = true).
Proof.
  intros Hreach.
  destruct (reachable_books_ok _ Hreach) as [Hlive _ _ _].
  split.
  - destruct (gameOver (state c)) eqn:G.
    + unfold turnEffect. now rewrite G.
    + apply turn_ok_no_skip. auto.
  - intros Hover Hbust. specialize (Hlive Hover).
    assert (Hst : activeTurn (state c) = other side
                  /\ playerScore (state c) = opponentScore (state c)
                  /\ hasHitBomb (state c) (other side) = false).
    { unfold turn_ok in Hlive.
      destruct side; simpl in *;
        intuition (try congruence). }
    destruct Hst as (Hturn & Heq & Hother).
    split; [exact Hturn|]. split; [exact Heq|].
    intros fuel tileId who c' H.
    apply processMove_Accepted_effect in H
      as (_ & _ & Hwho & tiles1 & tile0 & over & won & flip & _ & _
          & Hb1 & Hb2 & Hs1 & Hs2 & Hcheck & Hover' & _).
    rewrite Hturn in Hwho. subst who.
    destruct (gameOverCheck_ends (gameSeed (state c))
                (safeRevealedCount
                   (<[tileId := mkTile (id tile0) true (isBomb tile0)
                                  (Some (other side))]> tiles1)
                 =? 25 - bombCount (state c))
                (playerHasHitBomb (state c')) (opponentHasHitBomb (state c'))
                (playerScore (state c')) (opponentScore (state c')))
      as (won' & flip' & E).
    { destruct side; simpl in *; destruct (isBomb tile0);
        rewrite ?Hb1, ?Hb2, ?Hs1, ?Hs2, ?Hbust; simpl;
        intuition (try congruence; try lia). }
    rewrite E in Hcheck. injection Hcheck as <- _ _. exact Hover'.
Qed.

End MoreDuel.

Section MoreDuel2.
Import Duel DuelAux DuelBooks DuelTally.
Variable seedrandom : string -> nat -> float.
Local Open Scope Z_scope.

(** *** [placeMines] *)

Lemma placeLoop_result (fuel n first : nat) (b : Z) (total : float)
    (seed : string) (acc res : gset (option Z)) :
  placeLoop seedrandom fuel n first b total seed acc = Some res ->
  (Some (Z.of_nat first) ∉ acc) ->
  Z.of_nat (size acc) <= b ->
  (Some (Z.of_nat first) ∉ res) /\ Z.of_nat (size res) = b.
Proof.
  revert n acc. induction fuel as [|fuel IH]; intros n acc H Hnot Hle.
  - cbn [placeLoop] in H.
    destruct (Z.ltb_spec (Z.of_nat (size acc)) b); [discriminate|].
    injection H as <-. split; [exact Hnot | lia].
  - cbn [placeLoop] in H.
    destruct (Z.ltb_spec (Z.of_nat (size acc)) b) as [Hlt|Hge].
    2:{ injection H as <-. split; [exact Hnot | lia]. }
    apply IH in H; [exact H| |].
    + case_bool_decide as Hpos; [exact Hnot|].
      rewrite elem_of_union, elem_of_singleton. intros [E|E]; auto.
    + case_bool_decide as Hpos; [lia|].
      set (pos := floorZ (seedrandom seed n * total)) in *.
      destruct (decide (pos ∈ acc)) as [Hin|Hout].
      * rewrite (subseteq_union_1_L {[pos]} acc)
          by (apply singleton_subseteq_l, Hin).
        lia.
      * rewrite size_union by (apply disjoint_singleton_l, Hout).
        rewrite size_singleton. lia.
Qed.

Lemma placeLoop_done (fuel n first : nat) (b : Z) (total : float)
    (seed : string) (acc : gset (option Z)) :
  b <= Z.of_nat (size acc) ->
  placeLoop seedrandom fuel n first b total seed acc = Some acc.
Proof.
  intros Hge.
  destruct fuel; cbn [placeLoop];
    (destruct (Z.ltb_spec (Z.of_nat (size acc)) b); [lia | reflexivity]).
Qed.

Lemma placeMines_avoids_first (fuel first : nat) (b : Z)
    (seed : string) (res : gset (option Z)) :
  placeMines seedrandom fuel first b 25 seed = Some res ->
  Some (Z.of_nat first) ∉ res.
Proof.
  unfold placeMines. intros H.
  destruct (Z.le_gt_cases 0 b) as [Hb|Hb].
  - apply placeLoop_result in H; [|set_solver|rewrite size_empty; lia].
    apply H.
  - rewrite placeLoop_done in H by (rewrite size_empty; lia).
    injection H as <-. set_solver.
Qed.

(** X14: whenever the loop of [placeMines] ends, the set it returns does
    not contain the first clicked tile and holds exactly [bombCount]
    distinct positions (none for a count below 1), whatever the random
    generator draws. *)
Theorem placeMines_first_click_safe (fuel first : nat) (b : Z)
    (seed : string) (res : gset (option Z)) :
  placeMines seedrandom fuel first b 25 seed = Some res ->
  (Some (Z.of_nat first) ∉ res)
  /\ Z.of_nat (size res) = Z.max b 0.
Proof.
  intros H. split; [eapply placeMines_avoids_first, H|].
  unfold placeMines in H.
  destruct (Z.le_gt_cases 0 b) as [Hb|Hb].
  - apply placeLoop_result in H; [|set_solver|rewrite size_empty; lia].
    rewrite Z.max_l by lia. apply H.
  - rewrite placeLoop_done in H by (rewrite size_empty; lia).
    injection H as <-. rewrite size_empty. lia.
Qed.

(** *** The blank board *)

Lemma fresh_ok_step c c' :
  fresh_ok (state c) -> step seedrandom c c' -> fresh_ok (state c').
Proof.
  intros Hok Hstep.
  assert (Hmove : forall fuel tileId who,
             processMove seedrandom fuel c tileId who = Accepted c' ->
             fresh_ok (state c')).
  { intros fuel tileId who H.
    apply processMove_Accepted_inv in H as (_ & _ & _ & Hm & _).
    intros E. congruence. }
  destruct Hstep as [fuel tileId c c' H | fuel pick c c' H
                    | fuel pick st now0 settings0 now seed cfg c c' _ _ _ H
                    | c | w c Hs | st now seed settings c c' H].
  - unfold handleTileClick in H. repeat case_match; try discriminate. eauto.
  - unfold makeBotMove in H. repeat case_match; try discriminate. eauto.
  - apply makeBotMove_processMove in H as [tileId H].
    apply processMove_Accepted_inv in H as (_ & _ & _ & Hm & _).
    intros E. congruence.
  - destruct (turnEffect_cases (state c)) as [E|[turn E]]; cbn [state];
      rewrite E; exact Hok.
  - exact Hok.
  - unfold settingsEffect in H.
    destruct settings as [cfg|]; [|injection H as <-; exact Hok].
    destruct (_ || _); [injection H as <-; exact Hok|].
    destruct (Shuffle.generateBombLocations _ _ _ _); [|discriminate].
    injection H as <-. intros E. discriminate.
Qed.

Lemma reachable_fresh_ok c : reachable seedrandom c -> fresh_ok (state c).
Proof.
  induction 1 as [|c c' Hr IH Hstep].
  - intros _. simpl. auto.
  - eapply fresh_ok_step; eauto.
Qed.

Lemma blank_lookup (tileId : nat) (t : Tile) :
  map (fun id => mkTile id false false None) (seq 0 25) !! tileId = Some t ->
  t = mkTile tileId false false None.
Proof.
  rewrite list_lookup_fmap. intros H.
  destruct (seq 0 25 !! tileId) as [k|] eqn:Hk; [|discriminate].
  apply lookup_seq in Hk as [-> _]. now injection H as <-.
Qed.

(** X15: the first accepted move of a duel, made while the mines are
    not placed, never hits a bomb: the clicked tile is revealed as safe,
    the mover has one point, the other side none, and the mines are
    placed afterwards. *)
Theorem first_move_is_safe (fuel : nat) (c c' : Component) (tileId : nat)
    (side : Side) :
  reachable seedrandom c ->
  minesPlaced (state c) = false ->
  processMove seedrandom fuel c tileId side = Accepted c' ->
  hasHitBomb (state c') side = false
  /\ score (state c') side = 1
  /\ score (state c') (other side) = 0
  /\ minesPlaced (state c') = true
  /\ exists t, tiles (state c') !! tileId = Some t
               /\ isRevealed t = true /\ isBomb t = false.
Proof.
  intros Hreach Hnp H.
  destruct (reachable_fresh_ok _ Hreach Hnp) as (Hblank & Hps & Hos).
  apply processMove_Accepted_effect in H
    as (_ & _ & _ & tiles1 & tile0 & over & won & flip & Hpl & Hk
        & Hb1 & _ & Hs1 & Hs2 & _ & _ & _ & Hm & _ & _ & _ & _ & _ & _
        & _ & _ & Htiles & _).
  pose proof (lookup_lt_Some _ _ _ Hk) as Hlt.
  unfold placedTiles in Hpl. rewrite Hnp in Hpl.
  destruct (placeMines _ _ _ _ _ _) as [res|] eqn:HR; [|discriminate].
  injection Hpl as <-.
  apply placeMines_avoids_first in HR as Hnot.
  rewrite list_lookup_imap in Hk.
  destruct (tiles (state c) !! tileId) as [t0|] eqn:Ht0; [|discriminate].
  rewrite Hblank in Ht0. apply blank_lookup in Ht0. subst t0.
  simpl in Hk. rewrite bool_decide_eq_false_2 in Hk by exact Hnot.
  injection Hk as <-. cbn [isBomb id] in *.
  split; [exact Hb1|].
  split; [rewrite Hs1; destruct side; simpl; lia|].
  split; [rewrite Hs2; destruct side; simpl; lia|].
  split; [exact Hm|].
  rewrite Htiles. cbv zeta.
  destruct won as [w|].
  - eexists. unfold revealAll. rewrite list_lookup_fmap.
    rewrite list_lookup_insert_eq by exact Hlt.
    split; [reflexivity|]. split; reflexivity.
  - eexists. rewrite list_lookup_insert_eq by exact Hlt.
    split; [reflexivity|]. split; reflexivity.
Qed.

(** *** The pre-generated board *)

Lemma duel_marked_count (bombs : list nat) :
  length (List.filter isBomb
            (map (fun i => mkTile i false (existsb (Nat.eqb i) bombs) None)
                 (seq 0 25)))
  = length (List.filter (fun i => existsb (Nat.eqb i) bombs) (seq 0 25)).
Proof.
  generalize (seq 0 25). intros l.
  induction l as [|i l IH]; simpl; [reflexivity|].
  destruct (existsb (Nat.eqb i) bombs); simpl; now rewrite IH.
Qed.

Lemma existsb_isRevealed_fresh (f : nat -> bool) (l : list nat) :
  existsb isRevealed (map (fun i => mkTile i false (f i) None) l) = false.
Proof. induction l as [|i l IH]; [reflexivity | exact IH]. Qed.

Lemma ids_of_fresh (f : nat -> bool) (l : list nat) :
  map id (map (fun i => mkTile i false (f i) None) l) = l.
Proof. induction l as [|i l IH]; simpl; [reflexivity | now rewrite IH]. Qed.

(** X16: the settings effect does nothing once the mines are placed, a
    tile is revealed or the round is over; otherwise, for a non-empty
    server seed and 0..25 bombs, it replaces the state by a fresh round
    with the configured stake and bomb count, exactly that many bomb
    tiles, nothing revealed, both scores 0 and no winner. *)
Theorem settingsEffect_lays_bombs
    (st : Stats) (now newServerSeed : string) (cfg : GameSettings)
    (c : Component) :
  newServerSeed <> EmptyString -> 0 <= bombs cfg <= 25 ->
  (minesPlaced (state c) || existsb isRevealed (tiles (state c))
     || gameOver (state c) = true ->
   settingsEffect seedrandom st now newServerSeed (Some cfg) c = Some c)
  /\ (minesPlaced (state c) || existsb isRevealed (tiles (state c))
        || gameOver (state c) = false ->
      exists c',
        settingsEffect seedrandom st now newServerSeed (Some cfg) c = Some c'
        /\ minesPlaced (state c') = true
        /\ bombCount (state c') = bombs cfg
        /\ betAmount (state c') = amount cfg
        /\ serverSeed (state c') = newServerSeed
        /\ Z.of_nat (length (List.filter isBomb (tiles (state c'))))
           = bombs cfg
        /\ existsb isRevealed (tiles (state c')) = false
        /\ playerScore (state c') = 0 /\ opponentScore (state c') = 0
        /\ gameOver (state c') = false /\ winner (state c') = None).
Proof.
  intros Hseed Hb. split.
  - intros Hgate. unfold settingsEffect. now rewrite Hgate.
  - intros Hgate. unfold settingsEffect. rewrite Hgate.
    set (cs := match profileClientSeed st with
               | Some x => if JS.not_string x then "default-client-seed"%string
                           else x
               | None => "default-client-seed"%string
               end).
    assert (Hcs : cs <> EmptyString).
    { unfold cs. destruct (profileClientSeed st) as [x|]; [|discriminate].
      destruct x; simpl; discriminate. }
    assert (Hn : exists n, match totalGames st with
                           | JS.Int n => JS.Int (n + 1)
                           | JS.NaN => JS.Int 1
                           end = JS.Int n).
    { destruct (totalGames st); eauto. }
    destruct Hn as [n ->].
    destruct (generateBombLocations_slice newServerSeed cs n Hseed Hcs)
      as (perm & Hperm & Hrun).
    rewrite (Hrun (bombs cfg)).
    destruct (slice0_of_board perm (bombs cfg) Hperm) as (Hnd & Hlt & Hlen).
    set (locs := JS.slice0 perm (bombs cfg)) in *.
    destruct (Z.ltb_spec (bombs cfg) 0) as [?|_]; [lia|].
    rewrite Z.min_l in Hlen by lia.
    eexists. split; [reflexivity|].
    cbn [state minesPlaced bombCount betAmount serverSeed tiles playerScore
         opponentScore gameOver winner].
    split; [reflexivity|]. split; [reflexivity|]. split; [reflexivity|].
    split; [reflexivity|].
    split; [rewrite duel_marked_count, marked_count; assumption|].
    split; [apply (existsb_isRevealed_fresh _ (seq 0 25))|].
    repeat split.
Qed.

(** *** Scores and revealed tiles *)

Lemma safeRevealedCount_insert (l : list Tile) (i : nat) (x y : Tile) :
  l !! i = Some x -> isRevealed x = false ->
  safeRevealedCount (<[i := y]> l)
  = safeRevealedCount l + (if negb (isBomb y) && isRevealed y then 1 else 0).
Proof.
  unfold safeRevealedCount. revert i.
  induction l as [|a l IH]; intros i Hi Hx; [discriminate|].
  destruct i as [|i]; simpl in Hi.
  - injection Hi as ->. simpl. rewrite Hx, andb_false_r.
    destruct (negb (isBomb y) && isRevealed y); simpl; lia.
  - simpl. specialize (IH i Hi Hx).
    destruct (negb (isBomb a) && isRevealed a); simpl; lia.
Qed.

Lemma safeRevealedCount_unrevealed (l : list Tile) :
  existsb isRevealed l = false -> safeRevealedCount l = 0.
Proof.
  unfold safeRevealedCount. induction l as [|a l IH]; simpl; [reflexivity|].
  intros H. apply orb_false_elim in H as [Ha Hl].
  rewrite Ha, andb_false_r. auto.
Qed.

Lemma wf_lookup (l : list Tile) (t : Tile) :
  map id l = seq 0 25 -> In t l -> l !! id t = Some t.
Proof.
  intros Hwf Hin.
  apply list_elem_of_In, list_elem_of_lookup in Hin as [k Hk].
  assert (H : map id l !! k = Some (id t))
    by (rewrite list_lookup_fmap, Hk; reflexivity).
  rewrite Hwf in H. apply lookup_seq in H as [E _]. simpl in E.
  now rewrite E.
Qed.

Lemma placedTiles_shape fuel (s : GameState) tileId tiles1 :
  fresh_ok s ->
  placedTiles seedrandom fuel s tileId = Some tiles1 ->
  map id tiles1 = map id (tiles s)
  /\ map isRevealed tiles1 = map isRevealed (tiles s)
  /\ safeRevealedCount tiles1 = safeRevealedCount (tiles s).
Proof.
  intros Hfresh. unfold placedTiles.
  destruct (minesPlaced s) eqn:Hm.
  { intros H. injection H as <-. auto. }
  destruct (placeMines _ _ _ _ _ _) as [res|]; [|discriminate].
  intros H. injection H as <-.
  destruct (Hfresh Hm) as (Hblank & _).
  set (f := fun (index : nat) (tile : Tile) =>
              if bool_decide (Some (Z.of_nat index) ∈ res)
              then mkTile (id tile) (isRevealed tile) true (revealedBy tile)
              else tile).
  assert (Hid : map id (imap f (tiles s)) = map id (tiles s)).
  { apply list_eq. intros k.
    rewrite !list_lookup_fmap, list_lookup_imap.
    destruct (tiles s !! k) as [t|]; [|reflexivity].
    simpl. unfold f. case_bool_decide; reflexivity. }
  assert (Hrev : map isRevealed (imap f (tiles s)) = map isRevealed (tiles s)).
  { apply list_eq. intros k.
    rewrite !list_lookup_fmap, list_lookup_imap.
    destruct (tiles s !! k) as [t|]; [|reflexivity].
    simpl. unfold f. case_bool_decide; reflexivity. }
  split; [exact Hid|]. split; [exact Hrev|].
  assert (Hnone : forall l, existsb isRevealed l
                            = existsb (fun b : bool => b) (map isRevealed l)).
  { intros l. induction l as [|a l IH]; simpl; [reflexivity | now rewrite IH]. }
  rewrite !safeRevealedCount_unrevealed; [reflexivity| |].
  - rewrite Hblank. apply (existsb_isRevealed_fresh (fun _ => false)).
  - rewrite Hnone, Hrev, <- Hnone, Hblank.
    apply (existsb_isRevealed_fresh (fun _ => false)).
Qed.

Lemma tally_ok_processMove fuel c tileId side c' t :
  fresh_ok (state c) -> tally_ok (state c) ->
  winner (state c) = None ->
  tiles (state c) !! tileId = Some t -> isRevealed t = false ->
  processMove seedrandom fuel c tileId side = Accepted c' ->
  tally_ok (state c').
Proof.
  intros Hfresh [Hwf Htally] Hw0 Ht Hr H.
  apply processMove_Accepted_effect in H
    as (_ & _ & _ & tiles1 & tile0 & over & won & flip & Hpl & Hk
        & _ & _ & Hs1 & Hs2 & _ & _ & _ & _ & _ & _ & _ & _ & _ & _
        & _ & Hwin & Htiles & _).
  destruct (placedTiles_shape _ _ _ _ Hfresh Hpl) as (Hid & Hrev & Hcnt).
  assert (Hid0 : id tile0 = id t /\ isRevealed tile0 = false).
  { assert (E1 : map id tiles1 !! tileId = Some (id tile0))
      by (rewrite list_lookup_fmap, Hk; reflexivity).
    assert (E2 : map isRevealed tiles1 !! tileId = Some (isRevealed tile0))
      by (rewrite list_lookup_fmap, Hk; reflexivity).
    rewrite Hid, list_lookup_fmap, Ht in E1.
    rewrite Hrev, list_lookup_fmap, Ht in E2.
    simpl in *. split; congruence. }
  destruct Hid0 as [Hid0 Hr0].
  set (tile := mkTile (id tile0) true (isBomb tile0) (Some side)) in *.
  assert (Hid2 : map id (<[tileId := tile]> tiles1) = seq 0 25).
  { rewrite list_fmap_insert. cbn [id tile].
    rewrite list_insert_id;
      [transitivity (map id (tiles (state c))); [exact Hid | exact Hwf]|].
    rewrite list_lookup_fmap, Hk. reflexivity. }
  unfold tally_ok. rewrite Htiles. cbv zeta. fold tile. split.
  - destruct won; [|exact Hid2].
    unfold revealAll. rewrite map_map. cbn [id]. exact Hid2.
  - rewrite Hwin. destruct won as [w|]; [discriminate|]. intros _.
    rewrite (safeRevealedCount_insert _ _ _ _ Hk Hr0), Hcnt,
      <- (Htally Hw0).
    cbn [isBomb isRevealed tile]. unfold score in *.
    destruct side, (isBomb tile0); simpl in *; lia.
Qed.

Lemma tally_ok_makeBotMove fuel c pick c' :
  invariant c -> fresh_ok (state c) -> tally_ok (state c) ->
  makeBotMove seedrandom fuel c pick = Accepted c' -> tally_ok (state c').
Proof.
  intros [_ Hpending _] Hfresh Hok H. pose proof Hok as [Hwf Htally].
  unfold makeBotMove in H.
  destruct (List.filter _ _ !! pick) as [t|] eqn:Ht;
    [|destruct (Nat.eqb _ 0); discriminate].
  apply list_elem_of_lookup_2, list_elem_of_In, filter_In in Ht
    as [Hin Hr].
  apply negb_true_iff in Hr.
  assert (Hover : gameOver (state c) = false).
  { now apply processMove_Accepted_inv in H. }
  eapply tally_ok_processMove; eauto using wf_lookup.
Qed.

Lemma tally_ok_initial now settings :
  tally_ok (state (initialComponent seedrandom now settings)).
Proof.
  split; [apply (ids_of_fresh (fun _ => false) (seq 0 25)) | reflexivity].
Qed.

Lemma tally_ok_step c c' :
  invariant c -> fresh_ok (state c) -> tally_ok (state c) ->
  step seedrandom c c' -> tally_ok (state c').
Proof.
  intros Hinv Hfresh Hok Hstep. pose proof Hinv as [_ Hpending _].
  pose proof Hok as [Hwf Htally].
  destruct Hstep as [fuel tileId c c' H | fuel pick c c' H
                    | fuel pick st now0 settings0 now seed cfg c c' _ _ _ H
                    | c | w c Hs | st now seed settings c c' H].
  - unfold handleTileClick in H.
    destruct (tiles (state c) !! tileId) as [t|] eqn:Ht; [|discriminate].
    destruct (isRevealed t) eqn:Hr; [discriminate|].
    assert (Hover : gameOver (state c) = false).
    { now apply processMove_Accepted_inv in H. }
    eapply tally_ok_processMove; eauto.
  - eapply tally_ok_makeBotMove; eauto.
  - eapply tally_ok_makeBotMove;
      [apply duel_invariant_initial | | apply tally_ok_initial | exact H].
    intros _. simpl. auto.
  - destruct (turnEffect_cases (state c)) as [E|[turn E]]; cbn [state];
      rewrite E; exact Hok.
  - split; [exact Hwf | discriminate].
  - unfold settingsEffect in H.
    destruct settings as [cfg|]; [|injection H as <-; exact Hok].
    destruct (_ || _); [injection H as <-; exact Hok|].
    destruct (Shuffle.generateBombLocations _ _ _ _) as [locs|];
      [|discriminate].
    injection H as <-. split; cbn [state tiles winner playerScore opponentScore].
    + apply (ids_of_fresh (fun i => existsb (Nat.eqb i) locs) (seq 0 25)).
    + intros _. symmetry. apply safeRevealedCount_unrevealed.
      apply (existsb_isRevealed_fresh
               (fun i => existsb (Nat.eqb i) locs) (seq 0 25)).
Qed.

Lemma reachable_tally_ok c : reachable seedrandom c -> tally_ok (state c).
Proof.
  induction 1 as [|c c' Hr IH Hstep].
  - apply tally_ok_initial.
  - eapply tally_ok_step;
      eauto using duel_reachable_invariant, reachable_fresh_ok.
Qed.

(** X17: in every reachable state of the duel the board has 25 tiles
    with id equal to index, and while no winner is set the two scores
    add up to the number of revealed safe tiles. *)
Theorem scores_count_safe_tiles (c : Component) :
  reachable seedrandom c ->
  length (tiles (state c)) = 25%nat
  /\ (forall k t, tiles (state c) !! k = Some t -> id t = k)
  /\ (winner (state c) = None ->
      playerScore (state c) + opponentScore (state c)
      = Z.of_nat (length (List.filter
                            (fun t => negb (isBomb t) && isRevealed t)
                            (tiles (state c))))).
Proof.
  intros Hreach. destruct (reachable_tally_ok _ Hreach) as [Hwf Htally].
  split; [|split].
  - rewrite <- (length_map id), Hwf. reflexivity.
  - intros k t Hk.
    assert (H : map id (tiles (state c)) !! k = Some (id t))
      by (rewrite list_lookup_fmap, Hk; reflexivity).
    rewrite Hwf in H. apply lookup_seq in H. lia.
  - exact Htally.
Qed.

End MoreDuel2.

(** ** Frozen layouts *)

Section Layout.
Import Frozen.
Local Open Scope Z_scope.

Lemma same_layout_refl {T} (id : T -> nat) (isBomb isRevealed : T -> bool)
    (l : list T) :
  same_layout id isBomb isRevealed l l.
Proof. repeat split. eauto. Qed.

Lemma same_layout_trans {T} (id : T -> nat) (isBomb isRevealed : T -> bool)
    (l1 l2 l3 : list T) :
  same_layout id isBomb isRevealed l1 l2 ->
  same_layout id isBomb isRevealed l2 l3 ->
  same_layout id isBomb isRevealed l1 l3.
Proof.
  intros (A1 & B1 & C1) (A2 & B2 & C2).
  split; [congruence|]. split; [congruence|].
  intros k t Hk Hr. destruct (C1 k t Hk Hr) as (t' & Hk' & Hr'). eauto.
Qed.

Lemma same_layout_map {T} (id : T -> nat) (isBomb isRevealed : T -> bool)
    (f : T -> T) (l : list T) :
  (forall t, id (f t) = id t /\ isBomb (f t) = isBomb t
             /\ (isRevealed t = true -> isRevealed (f t) = true)) ->
  same_layout id isBomb isRevealed l (map f l).
Proof.
  intros Hf. split; [|split].
  - rewrite map_map. apply map_ext. intros t. apply Hf.
  - rewrite map_map. apply map_ext. intros t. apply Hf.
  - intros k t Hk Hr. exists (f t). split; [|now apply Hf].
    change (map f l) with (f <$> l). rewrite list_lookup_fmap, Hk. reflexivity.
Qed.

Lemma same_layout_insert {T} (id : T -> nat) (isBomb isRevealed : T -> bool)
    (l : list T) (i : nat) (x y : T) :
  l !! i = Some x -> id y = id x -> isBomb y = isBomb x ->
  isRevealed y = true ->
  same_layout id isBomb isRevealed l (<[i := y]> l).
Proof.
  intros Hi Hid Hb Hr.
  split; [|split].
  - change (map id (<[i:=y]> l)) with (id <$> <[i:=y]> l).
    rewrite list_fmap_insert, Hid. apply list_insert_id.
    rewrite list_lookup_fmap, Hi. reflexivity.
  - change (map isBomb (<[i:=y]> l)) with (isBomb <$> <[i:=y]> l).
    rewrite list_fmap_insert, Hb. apply list_insert_id.
    rewrite list_lookup_fmap, Hi. reflexivity.
  - intros k t Hk Ht. destruct (decide (k = i)) as [->|Hne].
    + exists y. split; [|exact Hr].
      apply list_lookup_insert_eq. eapply lookup_lt_Some, Hi.
    + exists t. split; [|exact Ht]. now rewrite list_lookup_insert_ne.
Qed.

End Layout.

Section SoloLayout.
Import Solo SoloAux SoloDemo SoloUI Frozen.
Local Open Scope Z_scope.

Lemma dispatch_serverSeed st c a c' :
  dispatch st c a = Some c' -> serverSeed c' = serverSeed c.
Proof.
  unfold dispatch. destruct (gameReducer (state c) a); [|discriminate].
  intros H. injection H as <-. reflexivity.
Qed.

(** X9: while a round is being played nothing the page offers changes the
    layout: every interaction keeps the tile ids, the bomb flags, the
    stake, the bomb count and the server seed, and no revealed tile is
    hidden again. *)
Theorem round_keeps_layout (c c' : Component) :
  ui_step c c' -> gameState (state c) = playing ->
  same_layout id isBomb isRevealed (tiles (state c)) (tiles (state c'))
  /\ betAmount (state c') = betAmount (state c)
  /\ bombCount (state c') = bombCount (state c)
  /\ serverSeed c' = serverSeed c.
Proof.
  intros Hstep Hp.
  destruct Hstep as [st v c c' G H | st v c c' G Hv H | st seed c c' G H
                    | st tileId c c' Hlt H | st c c' H | st c c' G H];
    try congruence.
  - unfold revealTile in H. rewrite Hp in H. cbn [GameStatus_eqb negb] in H.
    split; [|split; [|split]]; [| | |eapply dispatch_serverSeed, H].
    all: apply dispatch_state, gameReducer_reveal_layout in H
        as (A & B & C & D & E).
    + repeat split; assumption.
    + exact D.
    + exact E.
  - unfold cashOut in H. rewrite Hp in H. cbn [GameStatus_eqb negb orb] in H.
    destruct (safeRevealed (state c) =? 0).
    + injection H as <-. split; [apply same_layout_refl|]. auto.
    + pose proof (dispatch_serverSeed _ _ _ _ H) as Hseed.
      apply dispatch_state in H. cbn [gameReducer] in H.
      injection H as H. rewrite <- H. cbn [tiles betAmount bombCount].
      split; [apply same_layout_refl|]. auto.
Qed.

Lemma round_keeps_layout_witness :
  map isBomb (tiles (state demoRound1)) = map isBomb (tiles (state demoRound))
  /\ serverSeed demoRound1 = serverSeed demoRound.
Proof.
  destruct (round_keeps_layout demoRound demoRound1) as ((_ & Hb & _) & _ & _ & Hs).
  - apply (ui_reveal demoStats 0); [lia | reflexivity].
  - reflexivity.
  - split; [exact Hb | exact Hs].
Defined.

End SoloLayout.

Section DuelLayout.
Import Duel DuelAux DuelBooks DuelTally Frozen.
Variable seedrandom : string -> nat -> float.
Local Open Scope Z_scope.

Lemma duel_revealAll_layout (l : list Tile) :
  same_layout id isBomb isRevealed l (revealAll l).
Proof. apply same_layout_map. intros t. simpl. auto. Qed.

Lemma processMove_layout fuel c tileId side c' :
  minesPlaced (state c) = true ->
  processMove seedrandom fuel c tileId side = Accepted c' ->
  same_layout id isBomb isRevealed (tiles (state c)) (tiles (state c'))
  /\ minesPlaced (state c') = true
  /\ betAmount (state c') = jsonCopy (betAmount (state c))
  /\ bombCount (state c') = bombCount (state c)
  /\ serverSeed (state c') = serverSeed (state c)
  /\ clientSeed (state c') = clientSeed (state c)
  /\ nonce (state c') = nonce (state c).
Proof.
  intros Hm H.
  apply processMove_Accepted_effect in H
    as (_ & _ & _ & tiles1 & tile0 & over & won & flip & Hpl & Hk
        & _ & _ & _ & _ & _ & _ & _ & Hm' & Hbet & Hbc & _ & Hss & Hcs & Hn
        & _ & _ & Htiles & _).
  unfold placedTiles in Hpl. rewrite Hm in Hpl. injection Hpl as <-.
  split; [|auto 10].
  rewrite Htiles. cbv zeta.
  assert (Hins : same_layout id isBomb isRevealed (tiles (state c))
                   (<[tileId := mkTile (id tile0) true (isBomb tile0)
                                       (Some side)]> (tiles (state c))))
    by (eapply same_layout_insert; [exact Hk | reflexivity..]).
  destruct won; [|exact Hins].
  eapply same_layout_trans; [exact Hins | apply duel_revealAll_layout].
Qed.

(** X21: once a tile of a duel has been revealed, no event moves the
    mines: every click, bot move, turn effect, coinflip result and
    settings effect keeps the tile ids and bomb flags, hides no revealed
    tile, and keeps the stake, the bomb count, the seeds and the nonce.
    (Before the first reveal the round the settings effect installs can
    still be replaced, by the move of the bot timer set at the first
    render: [step_bot_stale].) *)
Theorem duel_layout_is_frozen (c c' : Component) :
  reachable seedrandom c ->
  existsb isRevealed (tiles (state c)) = true ->
  step seedrandom c c' ->
  same_layout id isBomb isRevealed (tiles (state c)) (tiles (state c'))
  /\ minesPlaced (state c') = true
  /\ betAmount (state c') = betAmount (state c)
  /\ bombCount (state c') = bombCount (state c)
  /\ serverSeed (state c') = serverSeed (state c)
  /\ clientSeed (state c') = clientSeed (state c)
  /\ nonce (state c') = nonce (state c).
Proof.
  intros Hreach Hshown Hstep.
  assert (Hm : minesPlaced (state c) = true).
  { destruct (minesPlaced (state c)) eqn:E; [reflexivity|].
    destruct (reachable_fresh_ok _ _ Hreach E) as (Hblank & _).
    rewrite Hblank in Hshown. discriminate. }
  pose proof (sk_copied _ (reachable_stake_ok _ _ Hreach) Hshown) as Hcopy.
  assert (Hmove : forall fuel tileId who,
             processMove seedrandom fuel c tileId who = Accepted c' ->
             same_layout id isBomb isRevealed
               (tiles (state c)) (tiles (state c'))
             /\ minesPlaced (state c') = true
             /\ betAmount (state c') = betAmount (state c)
             /\ bombCount (state c') = bombCount (state c)
             /\ serverSeed (state c') = serverSeed (state c)
             /\ clientSeed (state c') = clientSeed (state c)
             /\ nonce (state c') = nonce (state c)).
  { intros fuel tileId who H.
    destruct (processMove_layout _ _ _ _ _ Hm H)
      as (Hl & Hm' & Hbet & Hrest).
    rewrite Hcopy in Hbet. auto. }
  destruct Hstep as [fuel tileId c c' H | fuel pick c c' H
                    | fuel pick st now0 settings0 now seed cfg c c' _ Hset _ _
                    | c | w c Hs | st now seed settings c c' H].
  - unfold handleTileClick in H. repeat case_match; try discriminate. eauto.
  - apply makeBotMove_processMove in H as [tileId H]. eauto.
  - apply settingsEffect_installs in Hset as (_ & _ & Hnone).
    congruence.
  - destruct (turnEffect_cases (state c)) as [E|[turn E]]; cbn [state];
      rewrite E; cbn [tiles minesPlaced betAmount bombCount serverSeed
                      clientSeed nonce];
      (split; [apply same_layout_refl | auto 10]).
  - unfold handleCoinflipComplete.
    cbn [state tiles minesPlaced betAmount bombCount serverSeed clientSeed
         nonce].
    split; [apply same_layout_refl | auto 10].
  - unfold settingsEffect in H. destruct settings as [cfg|].
    + rewrite Hm in H. cbn [orb] in H. injection H as <-.
      split; [apply same_layout_refl | auto 10].
    + injection H as <-. split; [apply same_layout_refl | auto 10].
Qed.

End DuelLayout.

Section DuelLayoutInstance.
Import Duel DuelAux Frozen.

Lemma duel2_reachable : reachable cyclePRNG duel2.
Proof.
  eapply reach_step; [eapply reach_step|].
  - apply (reach_init cyclePRNG "1700000000000" None).
  - apply (step_click cyclePRNG 10 24). vm_compute. reflexivity.
  - apply (step_bot cyclePRNG 0 23). vm_compute. reflexivity.
Qed.

Lemma duel_layout_is_frozen_witness :
  map isBomb (tiles (state duel3)) = map isBomb (tiles (state duel2))
  /\ minesPlaced (state duel3) = true
  /\ betAmount (state duel3) = betAmount (state duel2).
Proof.
  destruct (duel_layout_is_frozen cyclePRNG duel2 duel3)
    as ((_ & Hb & _) & Hm & Hbet & _).
  - apply duel2_reachable.
  - reflexivity.
  - apply (step_click cyclePRNG 0 0). vm_compute. reflexivity.
  - split; [exact Hb|]. split; [exact Hm | exact Hbet].
Defined.

End DuelLayoutInstance.

(** ** Nested layouts and progress *)

Section Nested.
Import JS Shuffle.
Local Open Scope Z_scope.

(** X22: for fixed seeds and nonce the layouts are nested: the bombs for
    a smaller count are the first ones of the bombs for any larger count,
    so raising the bomb count only adds bombs. *)
Theorem bomb_locations_nested
    (serverSeed clientSeed : string) (nonce small large : Z) :
  serverSeed <> EmptyString -> clientSeed <> EmptyString ->
  0 <= small <= large ->
  exists fewer more,
    generateBombLocations serverSeed clientSeed (Int nonce) (Int small)
      = Some fewer
    /\ generateBombLocations serverSeed clientSeed (Int nonce) (Int large)
       = Some more
    /\ fewer = take (Z.to_nat small) more.
Proof.
  intros Hs Hc Hle.
  destruct (generateBombLocations_slice serverSeed clientSeed nonce Hs Hc)
    as (perm & _ & Hrun).
  exists (slice0 perm small), (slice0 perm large).
  split; [apply Hrun|]. split; [apply Hrun|].
  unfold slice0.
  destruct (Z.ltb_spec small 0); [lia|]. destruct (Z.ltb_spec large 0); [lia|].
  rewrite take_take. f_equal. lia.
Qed.

Lemma bomb_locations_nested_witness :
  exists fewer more,
    generateBombLocations "abc" "def" (Int 1) (Int 3) = Some fewer
    /\ generateBombLocations "abc" "def" (Int 1) (Int 5) = Some more
    /\ fewer = take (Z.to_nat 3) more.
Proof.
  apply (bomb_locations_nested "abc" "def" 1 3 5); [discriminate.. | lia].
Defined.

End Nested.

Section DuelProgress.
Import Duel DuelAux DuelBooks DuelTally Progress.
Variable seedrandom : string -> nat -> float.
Local Open Scope Z_scope.

Lemma revealedCount_by_flags (l l' : list Tile) :
  map isRevealed l = map isRevealed l' -> revealedCount l = revealedCount l'.
Proof.
  unfold revealedCount. revert l'.
  induction l as [|a l IH]; intros [|b l'] H; try discriminate;
    [reflexivity|].
  simpl in H. injection H as Hab Hl. simpl. rewrite Hab.
  destruct (isRevealed b); simpl; rewrite (IH _ Hl); reflexivity.
Qed.

Lemma revealedCount_insert (l : list Tile) (i : nat) (x y : Tile) :
  l !! i = Some x -> isRevealed x = false -> isRevealed y = true ->
  revealedCount (<[i := y]> l) = S (revealedCount l).
Proof.
  unfold revealedCount. revert i.
  induction l as [|a l IH]; intros i Hi Hx Hy; [discriminate|].
  destruct i as [|i]; simpl in Hi.
  - injection Hi as ->. simpl. rewrite Hx, Hy. reflexivity.
  - simpl. specialize (IH i Hi Hx Hy).
    destruct (isRevealed a); simpl; lia.
Qed.

Lemma revealedCount_le (l : list Tile) :
  (revealedCount l <= length l)%nat.
Proof. apply List.filter_length_le. Qed.

Lemma revealedCount_revealAll (l : list Tile) :
  revealedCount (revealAll l) = length l.
Proof.
  unfold revealedCount, revealAll.
  induction l as [|a l IH]; simpl; [reflexivity | now rewrite IH].
Qed.

Lemma processMove_reveals fuel c tileId side c' t :
  reachable seedrandom c ->
  tiles (state c) !! tileId = Some t -> isRevealed t = false ->
  processMove seedrandom fuel c tileId side = Accepted c' ->
  (revealedCount (tiles (state c)) < revealedCount (tiles (state c')) <= 25)%nat.
Proof.
  intros Hreach Ht Hr H.
  pose proof (reachable_fresh_ok _ _ Hreach) as Hfresh.
  destruct (reachable_tally_ok _ _ Hreach) as [Hwf _].
  assert (Hlen : length (tiles (state c)) = 25%nat).
  { rewrite <- (length_map id), Hwf. apply length_seq. }
  apply processMove_Accepted_effect in H
    as (_ & _ & _ & tiles1 & tile0 & over & won & flip & Hpl & Hk
        & _ & _ & _ & _ & _ & _ & _ & _ & _ & _ & _ & _ & _ & _
        & _ & _ & Htiles & _).
  destruct (placedTiles_shape _ _ _ _ _ Hfresh Hpl) as (_ & Hflags & _).
  assert (Hr0 : isRevealed tile0 = false).
  { assert (E : map isRevealed tiles1 !! tileId
                = map isRevealed (tiles (state c)) !! tileId)
      by now rewrite Hflags.
    change (map isRevealed tiles1) with (isRevealed <$> tiles1) in E.
    change (map isRevealed (tiles (state c)))
      with (isRevealed <$> tiles (state c)) in E.
    rewrite !list_lookup_fmap, Hk, Ht in E. simpl in E. congruence. }
  assert (Hlen1 : length tiles1 = 25%nat).
  { rewrite <- (length_map isRevealed), Hflags, length_map. exact Hlen. }
  pose proof (revealedCount_insert tiles1 tileId tile0
                (mkTile (id tile0) true (isBomb tile0) (Some side))
                Hk Hr0 eq_refl) as Hins.
  rewrite (revealedCount_by_flags _ _ Hflags) in Hins.
  pose proof (revealedCount_le
                (<[tileId := mkTile (id tile0) true (isBomb tile0)
                                    (Some side)]> tiles1)) as Hle.
  rewrite length_insert, Hlen1 in Hle.
  rewrite Htiles. cbv zeta. destruct won.
  - rewrite revealedCount_revealAll, length_insert, Hlen1. lia.
  - lia.
Qed.

(** X23: every accepted move of a duel, a click of the player or a move
    of the bot, shows at least one tile that was hidden before, and no
    more than 25 tiles are ever shown; a round therefore takes at most 25
    accepted moves. *)
Theorem accepted_move_reveals_new_tile fuel (c c' : Component) :
  reachable seedrandom c ->
  (exists tileId, handleTileClick seedrandom fuel c tileId = Accepted c')
  \/ (exists pick, makeBotMove seedrandom fuel c pick = Accepted c') ->
  (revealedCount (tiles (state c)) < revealedCount (tiles (state c')) <= 25)%nat.
Proof.
  intros Hreach [[tileId H]|[pick H]].
  - unfold handleTileClick in H.
    destruct (tiles (state c) !! tileId) as [t|] eqn:Ht; [|discriminate].
    destruct (isRevealed t) eqn:Hr; [discriminate|].
    eapply processMove_reveals; eauto.
  - unfold makeBotMove in H.
    destruct (_ !! pick) as [randomTile|] eqn:Hpick.
    2:{ destruct (Nat.eqb _ 0); discriminate. }
    apply list_elem_of_lookup_2, list_elem_of_In, List.filter_In in Hpick
      as [Hin Hr].
    apply negb_true_iff in Hr.
    destruct (reachable_tally_ok _ _ Hreach) as [Hwf _].
    eapply processMove_reveals; eauto using wf_lookup.
Qed.

End DuelProgress.

Section DuelProgressInstance.
Import Duel DuelAux Progress.

Lemma accepted_move_reveals_new_tile_witness :
  (revealedCount (tiles (state duel2)) < revealedCount (tiles (state duel3))
   <= 25)%nat.
Proof.
  apply (accepted_move_reveals_new_tile cyclePRNG 0 duel2 duel3).
  - eapply reach_step; [eapply reach_step; [apply (reach_init cyclePRNG "1700000000000" None)|]|].
    + apply (step_click cyclePRNG 10 24). vm_compute. reflexivity.
    + apply (step_bot cyclePRNG 0 23). vm_compute. reflexivity.
  - left. exists 0%nat. vm_compute. reflexivity.
Defined.

End DuelProgressInstance.

(** ** Worked instances *)

Section SoloWitnesses.
Import Solo SoloAux SoloDemo SoloUI.
Local Open Scope Z_scope.

Lemma demoRound1_ui_reachable : ui_reachable demoRound1.
Proof.
  eapply ui_next; [eapply ui_next; [apply ui_init|]|].
  - apply (ui_start demoStats "abc"); [reflexivity | vm_compute; reflexivity].
  - apply (ui_reveal demoStats 0); [lia | reflexivity].
Qed.

Lemma reveal_is_ignored_witness :
  revealTile demoStats 0 demoRound1 = Some demoRound1.
Proof.
  apply (reveal_is_ignored demoStats demoRound1 0 (mkTile 0 true false false));
    [apply demoRound1_reachable | reflexivity | right; reflexivity].
Defined.

Lemma cash_out_records_win_witness :
  exists c',
    cashOut demoStats demoRound1 = Some c'
    /\ gameState (state c') = finished
    /\ length (recorded c') = 1%nat.
Proof.
  destruct (cash_out_records_win demoStats demoRound1 demoRound1_reachable)
    as [Hwin _].
  eexists. split; [apply Hwin; [reflexivity | discriminate]|].
  split; reflexivity.
Defined.

Lemma one_record_per_round_witness :
  exists c',
    revealTile demoStats 20 demoRound = Some c'
    /\ ((gameState (state demoRound) = playing
         /\ gameState (state c') = finished
         /\ exists r, recorded c' = r :: recorded demoRound)
        \/ (~ (gameState (state demoRound) = playing
               /\ gameState (state c') = finished)
            /\ recorded c' = recorded demoRound)).
Proof.
  eexists. split; [reflexivity|].
  apply (one_record_per_round demoRound _ demoRound_reachable).
  apply (step_reveal demoStats 20); [lia | reflexivity].
Defined.

Lemma stored_multiplier_follows_counters_witness :
  currentMultiplier (state demoRound1)
    = Payout.calculateMultiplier 1 5
  /\ PrimFloat.ltb (currentMultiplier (state demoRound1)) infinity = true.
Proof.
  destruct (stored_multiplier_follows_counters demoRound1
              demoRound1_ui_reachable) as (Hm & _ & _ & _ & Hfin).
  split; [exact Hm | exact Hfin].
Defined.

End SoloWitnesses.

Section DuelWitnesses.
Import Duel DuelAux DuelBooks DuelTally DuelDemo.
Local Open Scope Z_scope.

Lemma duel0_reachable : reachable cyclePRNG duel0.
Proof. apply (reach_init cyclePRNG "1700000000000" None). Qed.

Lemma placeMines_first_click_safe_witness :
  exists res,
    placeMines cyclePRNG 10 24 3 25 "1700000000000" = Some res
    /\ (Some (Z.of_nat 24) ∉ res)
    /\ Z.of_nat (size res) = Z.max 3 0.
Proof.
  destruct (placeMines cyclePRNG 10 24 3 25 "1700000000000") as [res|] eqn:E.
  - exists res. split; [reflexivity|].
    apply (placeMines_first_click_safe cyclePRNG 10 24 3 "1700000000000" res E).
  - exfalso. vm_compute in E. discriminate.
Defined.

Lemma first_move_is_safe_witness :
  hasHitBomb (state duel1) player = false
  /\ score (state duel1) player = 1.
Proof.
  destruct (first_move_is_safe cyclePRNG 10 duel0 duel1 24 player)
    as (Hb & Hs & _);
    [apply duel0_reachable | reflexivity | vm_compute; reflexivity |].
  split; [exact Hb | exact Hs].
Defined.

Lemma settingsEffect_lays_bombs_witness :
  exists c',
    settingsEffect cyclePRNG (mkStats None (JS.Int 0)) "1700000000001" "abc"
      (Some (mkSettings 3 0.01)) duel0 = Some c'
    /\ minesPlaced (state c') = true
    /\ Z.of_nat (length (List.filter isBomb (tiles (state c')))) = 3.
Proof.
  destruct (settingsEffect_lays_bombs cyclePRNG (mkStats None (JS.Int 0))
              "1700000000001" "abc" (mkSettings 3 0.01) duel0)
    as [_ Hnew]; [discriminate | simpl; lia |].
  destruct Hnew as (c' & Hrun & Hm & _ & _ & _ & Hcount & _); [reflexivity|].
  exists c'. split; [exact Hrun|]. split; [exact Hm | exact Hcount].
Defined.

Lemma scores_count_safe_tiles_witness :
  playerScore (state duel3) + opponentScore (state duel3)
  = Z.of_nat (length (List.filter
                        (fun t => negb (isBomb t) && isRevealed t)
                        (tiles (state duel3)))).
Proof.
  destruct (scores_count_safe_tiles cyclePRNG duel3 duel3_reachable)
    as (_ & _ & H).
  apply H. reflexivity.
Defined.

Lemma duel4_reachable : reachable cyclePRNG duel4.
Proof.
  eapply reach_step; [apply duel3_reachable|].
  apply (step_bot cyclePRNG 0 4). vm_compute. reflexivity.
Qed.

Lemma one_settlement_per_duel_witness :
  recorded duel4
  = [mkRecord (Num 0.01) (Num (-0.01)) 0
              (serverSeed (state duel4)) (clientSeed (state duel4))
              (nonce (state duel4))].
Proof.
  apply (one_settlement_per_duel cyclePRNG duel4 duel4_reachable).
Defined.

Lemma score_winner_leads_witness :
  gameOver (state duel4) = true
  /\ forallb isRevealed (tiles (state duel4)) = true
  /\ ((WinOpponent = WinPlayer
       /\ opponentScore (state duel4) < playerScore (state duel4))
      \/ (WinOpponent = WinOpponent
          /\ playerScore (state duel4) < opponentScore (state duel4))).
Proof.
  apply (score_winner_leads cyclePRNG 0 duel3 duel4 5 opponent WinOpponent);
    [apply duel3_reachable | vm_compute; reflexivity | reflexivity].
Defined.

Lemma busted_side_is_never_on_turn_witness :
  turnEffect (state duel3) = state duel3
  /\ activeTurn (state duel3) = opponent
  /\ playerScore (state duel3) = opponentScore (state duel3).
Proof.
  destruct (busted_side_is_never_on_turn cyclePRNG duel3 player
              duel3_reachable) as (Hskip & Hlive).
  destruct Hlive as (Hturn & Heq & _); [reflexivity | reflexivity |].
  split; [exact Hskip|]. split; [exact Hturn | exact Heq].
Defined.

End DuelWitnesses.
